(** * A shallow embedding of the printf family (printf.c and its helpers)

    The development follows the four translation units of the library:
    - printf_format.c        : the directive parser and its validator,
    - printf_basic_output.c  : the emitters for d i u o x X c s p n,
    - printf_arguments.c     : sequential and positional argument delivery,
    - printf.c               : the four sinks, the engine and the entry points.

    C objects are modelled as follows.
    - Integers are [Z]; conversions to a C type are written out as wrap-around
      functions (LP64: int is 32 bits, long, long long, intmax_t, size_t and
      ptrdiff_t are 64 bits).  Signed overflow is undefined behaviour and is
      reported as such.
    - A [const char *] that is read is a [string]: the characters up to the
      terminating NUL; reading at the end yields NUL.
    - Functions that mutate objects through pointers are computations of a
      state-and-error monad over the machine state; undefined behaviour
      (a wild store, a NULL stream, a type-confused load) is an outcome of its
      own, and so is the end of the program at a failed [assert]. *)

From stdpp Require Import gmap list strings.
From Stdlib Require Import ZArith Lia Ascii.

Open Scope Z_scope.

(** ** C integer types *)

Module CInt.

Definition INT_MAX : Z := 2147483647.
Definition INT_MIN : Z := -2147483648.
Definition UINT_MAX : Z := 4294967295.
Definition SIZE_MAX : Z := 18446744073709551615.
Definition UINTMAX_MAX : Z := 18446744073709551615.

(** Conversion to an unsigned type of [bits] bits. *)
Definition wrap_unsigned (bits : Z) (z : Z) : Z := z mod 2 ^ bits.

(** Conversion to a signed type of [bits] bits (two's complement). *)
Definition wrap_signed (bits : Z) (z : Z) : Z :=
  (z + 2 ^ (bits - 1)) mod 2 ^ bits - 2 ^ (bits - 1).

Definition to_schar := wrap_signed 8.
Definition to_uchar := wrap_unsigned 8.
Definition to_short := wrap_signed 16.
Definition to_ushort := wrap_unsigned 16.
Definition to_int := wrap_signed 32.
Definition to_uint := wrap_unsigned 32.
Definition to_long := wrap_signed 64.
Definition to_ulong := wrap_unsigned 64.
Definition to_intmax := wrap_signed 64.
Definition to_uintmax := wrap_unsigned 64.
Definition to_size_t := wrap_unsigned 64.
Definition to_ptrdiff := wrap_signed 64.

(** Arithmetic on [int]: a result outside the type is undefined. *)
Definition int_checked (z : Z) : option Z :=
  if decide (INT_MIN ≤ z ≤ INT_MAX) then Some z else None.

End CInt.
Import CInt.

(** ** Characters and C strings *)

Definition char_code (c : ascii) : Z := Z.of_N (N_of_ascii c).
Definition char_of_code (z : Z) : ascii := ascii_of_N (Z.to_N (z mod 256)).

Definition NUL : ascii := zero.

(** [*format] *)
Definition peek (format : string) : ascii :=
  match format with
  | EmptyString => NUL
  | String c _ => c
  end.

(** [format + n] *)
Fixpoint skip (n : nat) (format : string) : string :=
  match n, format with
  | O, _ => format
  | S n', String _ rest => skip n' rest
  | S _, EmptyString => EmptyString
  end.

Definition is_char (c : ascii) (format : string) : bool :=
  bool_decide (peek format = c).

(** [strncmp(format, pre, strlen(pre)) == 0] for a NUL-free [pre]. *)
Fixpoint starts_with (pre format : string) : bool :=
  match pre, format with
  | EmptyString, _ => true
  | String a pre', String b rest =>
      if bool_decide (a = b) then starts_with pre' rest else false
  | String _ _, EmptyString => false
  end.

(** [strlen] of the characters before the first NUL. *)
Fixpoint strlen (s : string) : Z :=
  match s with
  | EmptyString => 0
  | String c rest => if bool_decide (c = NUL) then 0 else 1 + strlen rest
  end.

(** ** printf_definitions.h *)

Inductive format_error :=
| FORMAT_okay
| FORMAT_ERROR_no_positional_width
| FORMAT_ERROR_no_positional_precision
| FORMAT_ERROR_unknown_type
| FORMAT_ERROR_incompatible_length_type
| FORMAT_WARNING_flag_does_nothing
| FORMAT_WARNING_repeat_flag
| FORMAT_WARNING_width_does_nothing
| FORMAT_WARNING_precision_does_nothing
| FORMAT_WARNING_does_not_print.

Inductive format_string_types :=
| TYPE_d | TYPE_i | TYPE_u | TYPE_o | TYPE_x | TYPE_X | TYPE_f | TYPE_F
| TYPE_e | TYPE_E | TYPE_g | TYPE_G | TYPE_a | TYPE_A | TYPE_c | TYPE_s
| TYPE_p | TYPE_n | TYPE_ERROR.

Inductive format_string_lengths :=
| LENGTH_none | LENGTH_hh | LENGTH_h | LENGTH_l | LENGTH_ll | LENGTH_j
| LENGTH_z | LENGTH_t | LENGTH_L.

Inductive printf_output_type :=
| OUTPUT_file_descriptor | OUTPUT_stream | OUTPUT_string
| OUTPUT_allocated_string.

Global Instance format_error_eq_dec : EqDecision format_error.
Proof. solve_decision. Defined.
Global Instance format_string_types_eq_dec : EqDecision format_string_types.
Proof. solve_decision. Defined.
Global Instance format_string_lengths_eq_dec : EqDecision format_string_lengths.
Proof. solve_decision. Defined.
Global Instance printf_output_type_eq_dec : EqDecision printf_output_type.
Proof. solve_decision. Defined.

(** [struct format_specifier_struct].  The fields carry the prefix [fs_]
    because [length], [type] and [width] are taken. *)
Record format_specifier := mk_fs {
  fs_input_length : Z;
  fs_left_justify : bool;
  fs_always_sign : bool;
  fs_empty_sign : bool;
  fs_alternate_form : bool;
  fs_zero_padded : bool;
  fs_preceding_width : Z;
  fs_width : Z;
  fs_preceding_precision : Z;
  fs_precision : Z;
  fs_length : format_string_lengths;
  fs_type : format_string_types;
  fs_position : Z
}.

Global Instance format_specifier_eq_dec : EqDecision format_specifier.
Proof. solve_decision. Defined.

(** Field assignments [fs->field = v]. *)
Definition set_input_length (v : Z) (fs : format_specifier) :=
  mk_fs v (fs_left_justify fs) (fs_always_sign fs) (fs_empty_sign fs)
    (fs_alternate_form fs) (fs_zero_padded fs) (fs_preceding_width fs)
    (fs_width fs) (fs_preceding_precision fs) (fs_precision fs)
    (fs_length fs) (fs_type fs) (fs_position fs).
Definition set_left_justify (v : bool) (fs : format_specifier) :=
  mk_fs (fs_input_length fs) v (fs_always_sign fs) (fs_empty_sign fs)
    (fs_alternate_form fs) (fs_zero_padded fs) (fs_preceding_width fs)
    (fs_width fs) (fs_preceding_precision fs) (fs_precision fs)
    (fs_length fs) (fs_type fs) (fs_position fs).
Definition set_always_sign (v : bool) (fs : format_specifier) :=
  mk_fs (fs_input_length fs) (fs_left_justify fs) v (fs_empty_sign fs)
    (fs_alternate_form fs) (fs_zero_padded fs) (fs_preceding_width fs)
    (fs_width fs) (fs_preceding_precision fs) (fs_precision fs)
    (fs_length fs) (fs_type fs) (fs_position fs).
Definition set_empty_sign (v : bool) (fs : format_specifier) :=
  mk_fs (fs_input_length fs) (fs_left_justify fs) (fs_always_sign fs) v
    (fs_alternate_form fs) (fs_zero_padded fs) (fs_preceding_width fs)
    (fs_width fs) (fs_preceding_precision fs) (fs_precision fs)
    (fs_length fs) (fs_type fs) (fs_position fs).
Definition set_alternate_form (v : bool) (fs : format_specifier) :=
  mk_fs (fs_input_length fs) (fs_left_justify fs) (fs_always_sign fs)
    (fs_empty_sign fs) v (fs_zero_padded fs) (fs_preceding_width fs)
    (fs_width fs) (fs_preceding_precision fs) (fs_precision fs)
    (fs_length fs) (fs_type fs) (fs_position fs).
Definition set_zero_padded (v : bool) (fs : format_specifier) :=
  mk_fs (fs_input_length fs) (fs_left_justify fs) (fs_always_sign fs)
    (fs_empty_sign fs) (fs_alternate_form fs) v (fs_preceding_width fs)
    (fs_width fs) (fs_preceding_precision fs) (fs_precision fs)
    (fs_length fs) (fs_type fs) (fs_position fs).
Definition set_preceding_width (v : Z) (fs : format_specifier) :=
  mk_fs (fs_input_length fs) (fs_left_justify fs) (fs_always_sign fs)
    (fs_empty_sign fs) (fs_alternate_form fs) (fs_zero_padded fs) v
    (fs_width fs) (fs_preceding_precision fs) (fs_precision fs)
    (fs_length fs) (fs_type fs) (fs_position fs).
Definition set_width (v : Z) (fs : format_specifier) :=
  mk_fs (fs_input_length fs) (fs_left_justify fs) (fs_always_sign fs)
    (fs_empty_sign fs) (fs_alternate_form fs) (fs_zero_padded fs)
    (fs_preceding_width fs) v (fs_preceding_precision fs) (fs_precision fs)
    (fs_length fs) (fs_type fs) (fs_position fs).
Definition set_preceding_precision (v : Z) (fs : format_specifier) :=
  mk_fs (fs_input_length fs) (fs_left_justify fs) (fs_always_sign fs)
    (fs_empty_sign fs) (fs_alternate_form fs) (fs_zero_padded fs)
    (fs_preceding_width fs) (fs_width fs) v (fs_precision fs)
    (fs_length fs) (fs_type fs) (fs_position fs).
Definition set_precision (v : Z) (fs : format_specifier) :=
  mk_fs (fs_input_length fs) (fs_left_justify fs) (fs_always_sign fs)
    (fs_empty_sign fs) (fs_alternate_form fs) (fs_zero_padded fs)
    (fs_preceding_width fs) (fs_width fs) (fs_preceding_precision fs) v
    (fs_length fs) (fs_type fs) (fs_position fs).
Definition set_length (v : format_string_lengths) (fs : format_specifier) :=
  mk_fs (fs_input_length fs) (fs_left_justify fs) (fs_always_sign fs)
    (fs_empty_sign fs) (fs_alternate_form fs) (fs_zero_padded fs)
    (fs_preceding_width fs) (fs_width fs) (fs_preceding_precision fs)
    (fs_precision fs) v (fs_type fs) (fs_position fs).
Definition set_type (v : format_string_types) (fs : format_specifier) :=
  mk_fs (fs_input_length fs) (fs_left_justify fs) (fs_always_sign fs)
    (fs_empty_sign fs) (fs_alternate_form fs) (fs_zero_padded fs)
    (fs_preceding_width fs) (fs_width fs) (fs_preceding_precision fs)
    (fs_precision fs) (fs_length fs) v (fs_position fs).
Definition set_position (v : Z) (fs : format_specifier) :=
  mk_fs (fs_input_length fs) (fs_left_justify fs) (fs_always_sign fs)
    (fs_empty_sign fs) (fs_alternate_form fs) (fs_zero_padded fs)
    (fs_preceding_width fs) (fs_width fs) (fs_preceding_precision fs)
    (fs_precision fs) (fs_length fs) (fs_type fs) v.

(** ** printf_format.c: the directive parser

    The parser works on [int] counters without bounds checks; an overflow of
    one of them is undefined behaviour, [None] below. *)

Module Format.

Definition is_digit (c : ascii) : bool :=
  bool_decide (char_code "0" ≤ char_code c ≤ char_code "9").

(** [*format - '0'] *)
Definition digit_value (c : ascii) : Z := char_code c - char_code "0".

(** The loop of [format_string_atoi]. *)
Fixpoint format_string_atoi_loop (format : string) (current characters_read : Z)
  : option (Z * Z) :=
  match format with
  | String c rest =>
      if is_digit c then
        current ← int_checked (current * 10);
        current ← int_checked (current + digit_value c);
        characters_read ← int_checked (characters_read + 1);
        format_string_atoi_loop rest current characters_read
      else Some (characters_read, current)
  | EmptyString => Some (characters_read, current)
  end.

(** Returns [(characters_read, *value)]. *)
Definition format_string_atoi (format : string) : option (Z * Z) :=
  format_string_atoi_loop format 0 0.

(** [fs->input_length += n] *)
Definition add_input_length (n : Z) (fs : format_specifier)
  : option format_specifier :=
  l ← int_checked (fs_input_length fs + n);
  Some (set_input_length l fs).

Definition read_format_string_type (format : string) (fs : format_specifier)
  : option (format_error * format_specifier) :=
  let found (t : format_string_types) :=
    fs ← add_input_length 1 (set_type t fs);
    Some (FORMAT_okay, fs) in
  if is_char "d" format then found TYPE_d
  else if is_char "i" format then found TYPE_i
  else if is_char "u" format then found TYPE_u
  else if is_char "o" format then found TYPE_o
  else if is_char "x" format then found TYPE_x
  else if is_char "X" format then found TYPE_X
  else if is_char "f" format then found TYPE_f
  else if is_char "F" format then found TYPE_F
  else if is_char "e" format then found TYPE_e
  else if is_char "E" format then found TYPE_E
  else if is_char "g" format then found TYPE_g
  else if is_char "G" format then found TYPE_G
  else if is_char "a" format then found TYPE_a
  else if is_char "A" format then found TYPE_A
  else if is_char "c" format then found TYPE_c
  else if is_char "s" format then found TYPE_s
  else if is_char "p" format then found TYPE_p
  else if is_char "n" format then found TYPE_n
  else Some (FORMAT_ERROR_unknown_type, set_type TYPE_ERROR fs).

Definition read_format_string_length (format : string) (fs : format_specifier)
  : option (format_error * format_specifier) :=
  let found (l : format_string_lengths) (n : Z) :=
    fs ← add_input_length n (set_length l fs);
    read_format_string_type (skip (Z.to_nat n) format) fs in
  if starts_with "hh" format then found LENGTH_hh 2
  else if is_char "h" format then found LENGTH_h 1
  else if starts_with "ll" format then found LENGTH_ll 2
  else if is_char "l" format then found LENGTH_l 1
  else if is_char "j" format then found LENGTH_j 1
  else if is_char "z" format then found LENGTH_z 1
  else if is_char "t" format then found LENGTH_t 1
  else if is_char "L" format then found LENGTH_L 1
  else read_format_string_type format (set_length LENGTH_none fs).

Definition read_format_string_precision (format : string)
  (fs : format_specifier) : option (format_error * format_specifier) :=
  if is_char "." format then
    let format := skip 1 format in
    fs ← add_input_length 1 fs;
    if is_char "*" format then
      let format := skip 1 format in
      fs ← add_input_length 1 fs;
      if bool_decide (fs_position fs ≠ 0) then
        '(characters_read, precision) ← format_string_atoi format;
        let fs := set_preceding_precision precision fs in
        fs ← add_input_length characters_read fs;
        let format := skip (Z.to_nat characters_read) format in
        if bool_decide (precision = 0) || negb (is_char "$" format) then
          Some (FORMAT_ERROR_no_positional_precision, fs)
        else
          let format := skip 1 format in
          fs ← add_input_length 1 fs;
          read_format_string_length format fs
      else
        read_format_string_length format (set_preceding_precision 1 fs)
    else
      '(characters_read, precision) ← format_string_atoi format;
      let fs := set_precision precision fs in
      fs ← add_input_length characters_read fs;
      read_format_string_length (skip (Z.to_nat characters_read) format) fs
  else read_format_string_length format fs.

Definition read_format_string_width (format : string) (fs : format_specifier)
  : option (format_error * format_specifier) :=
  if is_char "*" format then
    fs ← add_input_length 1 fs;
    let format := skip 1 format in
    if bool_decide (fs_position fs ≠ 0) then
      '(characters_read, width) ← format_string_atoi format;
      let fs := set_preceding_width width fs in
      fs ← add_input_length characters_read fs;
      let format := skip (Z.to_nat characters_read) format in
      if bool_decide (width = 0) || negb (is_char "$" format) then
        Some (FORMAT_ERROR_no_positional_width, fs)
      else
        let format := skip 1 format in
        fs ← add_input_length 1 fs;
        read_format_string_precision format fs
    else
      read_format_string_precision format (set_preceding_width 1 fs)
  else
    '(characters_read, width) ← format_string_atoi format;
    let fs := set_width width fs in
    fs ← add_input_length characters_read fs;
    read_format_string_precision (skip (Z.to_nat characters_read) format) fs.

(** The [while (!finished_finding_flags)] loop of
    [read_format_string_flags]; returns the cursor, the specifier and the
    pending warning. *)
Fixpoint read_format_string_flags_loop (format : string)
  (fs : format_specifier) (error : format_error)
  : option (string * format_specifier * format_error) :=
  let flag (seen : bool) (set : format_specifier) (rest : string) :=
    let error := if seen then FORMAT_WARNING_repeat_flag else error in
    fs ← add_input_length 1 set;
    read_format_string_flags_loop rest fs error in
  match format with
  | String c rest =>
      if bool_decide (c = "-"%char) then
        flag (fs_left_justify fs) (set_left_justify true fs) rest
      else if bool_decide (c = "+"%char) then
        flag (fs_always_sign fs) (set_always_sign true fs) rest
      else if bool_decide (c = " "%char) then
        flag (fs_empty_sign fs) (set_empty_sign true fs) rest
      else if bool_decide (c = "#"%char) then
        flag (fs_alternate_form fs) (set_alternate_form true fs) rest
      else if bool_decide (c = "0"%char) then
        flag (fs_zero_padded fs) (set_zero_padded true fs) rest
      else Some (format, fs, error)
  | EmptyString => Some (format, fs, error)
  end.

Definition read_format_string_flags (format : string) (fs : format_specifier)
  : option (format_error * format_specifier) :=
  '(format, fs, error) ← read_format_string_flags_loop format fs FORMAT_okay;
  '(rest, fs) ← read_format_string_width format fs;
  if bool_decide (rest = FORMAT_okay) then Some (error, fs)
  else Some (rest, fs).

Definition read_format_string_position (format : string)
  (fs : format_specifier) : option (format_error * format_specifier) :=
  if bool_decide (char_code "0" < char_code (peek format) ≤ char_code "9") then
    '(characters_read, position) ← format_string_atoi format;
    fs ← add_input_length characters_read fs;
    let format := skip (Z.to_nat characters_read) format in
    if is_char "$" format then
      fs ← add_input_length 1 fs;
      let format := skip 1 format in
      read_format_string_flags format (set_position position fs)
    else
      read_format_string_precision format (set_width position fs)
  else read_format_string_flags format fs.

Definition format_error_is_error (error : format_error) : bool :=
  bool_decide (error = FORMAT_ERROR_no_positional_width)
  || bool_decide (error = FORMAT_ERROR_no_positional_precision)
  || bool_decide (error = FORMAT_ERROR_unknown_type)
  || bool_decide (error = FORMAT_ERROR_incompatible_length_type).

Definition format_error_is_warning (error : format_error) : bool :=
  bool_decide (error = FORMAT_WARNING_flag_does_nothing)
  || bool_decide (error = FORMAT_WARNING_repeat_flag)
  || bool_decide (error = FORMAT_WARNING_width_does_nothing)
  || bool_decide (error = FORMAT_WARNING_precision_does_nothing)
  || bool_decide (error = FORMAT_WARNING_does_not_print).

Definition format_string_check_length_type (fs : format_specifier)
  : format_error :=
  let l := fs_length fs in
  match fs_type fs with
  | TYPE_d | TYPE_i =>
      if bool_decide (l = LENGTH_L) then FORMAT_ERROR_incompatible_length_type
      else FORMAT_okay
  | TYPE_u | TYPE_o | TYPE_x | TYPE_X =>
      if bool_decide (l = LENGTH_L) then FORMAT_ERROR_incompatible_length_type
      else FORMAT_okay
  | TYPE_f | TYPE_F | TYPE_e | TYPE_E | TYPE_g | TYPE_G | TYPE_a | TYPE_A =>
      if bool_decide (l = LENGTH_h) || bool_decide (l = LENGTH_hh)
         || bool_decide (l = LENGTH_l) || bool_decide (l = LENGTH_ll)
         || bool_decide (l = LENGTH_j) || bool_decide (l = LENGTH_z)
         || bool_decide (l = LENGTH_t)
      then FORMAT_ERROR_incompatible_length_type else FORMAT_okay
  | TYPE_c =>
      if bool_decide (l = LENGTH_h) || bool_decide (l = LENGTH_hh)
         || bool_decide (l = LENGTH_ll) || bool_decide (l = LENGTH_j)
         || bool_decide (l = LENGTH_z) || bool_decide (l = LENGTH_t)
         || bool_decide (l = LENGTH_L)
      then FORMAT_ERROR_incompatible_length_type else FORMAT_okay
  | TYPE_s =>
      if bool_decide (l = LENGTH_h) || bool_decide (l = LENGTH_hh)
         || bool_decide (l = LENGTH_ll) || bool_decide (l = LENGTH_j)
         || bool_decide (l = LENGTH_z) || bool_decide (l = LENGTH_t)
         || bool_decide (l = LENGTH_L)
      then FORMAT_ERROR_incompatible_length_type else FORMAT_okay
  | TYPE_p =>
      if bool_decide (l ≠ LENGTH_none)
      then FORMAT_ERROR_incompatible_length_type else FORMAT_okay
  | TYPE_n =>
      if bool_decide (l = LENGTH_L) then FORMAT_ERROR_incompatible_length_type
      else FORMAT_okay
  | TYPE_ERROR => FORMAT_ERROR_unknown_type
  end.

(** The specifier as [read_format_string] initialises it.  The C code leaves
    [length] and [type] unset at this point; they are never read before the
    length and type fields have been parsed. *)
Definition initial_format_specifier : format_specifier :=
  mk_fs 0 false false false false false 0 0 0 (-1) LENGTH_none TYPE_ERROR 0.

Definition read_format_string (format : string)
  : option (format_error * format_specifier) :=
  '(error, fs) ← read_format_string_position format initial_format_specifier;
  if format_error_is_error error then Some (error, fs)
  else
    let error2 := format_string_check_length_type fs in
    if format_error_is_error error2 then Some (error2, fs)
    else Some (error, fs).

(** [format_string_check_unused_values] is a sequence of blocks
    [if (condition) { result = warning; fs->field = value; }], each looking
    at the specifier as the blocks before it left it.  [cancel] is one such
    block; the function applies them in the order of the source. *)
Definition cancel (condition : format_specifier → bool)
  (warning : format_error) (assign : format_specifier → format_specifier)
  (st : format_error * format_specifier) : format_error * format_specifier :=
  if condition st.2 then (warning, assign st.2) else st.

Definition has_type (ts : list format_string_types) (fs : format_specifier)
  : bool :=
  bool_decide (fs_type fs ∈ ts).

Definition unused_values_blocks
  : list (format_error * format_specifier → format_error * format_specifier) :=
  let W := FORMAT_WARNING_flag_does_nothing in
  let P := FORMAT_WARNING_does_not_print in
  [ (* "+ d" *)
    cancel (λ fs, fs_always_sign fs && fs_empty_sign fs) W
      (set_empty_sign false);
    (* "#i" "#d" "#u" *)
    cancel (λ fs, has_type [TYPE_d; TYPE_i; TYPE_u] fs && fs_alternate_form fs)
      W (set_alternate_form false);
    (* "+x" "+X" " x" " X" *)
    cancel (λ fs, has_type [TYPE_x; TYPE_X] fs && fs_always_sign fs) W
      (set_always_sign false);
    cancel (λ fs, has_type [TYPE_x; TYPE_X] fs && fs_empty_sign fs) W
      (set_empty_sign false);
    (* flags other than '-' with c, s or p *)
    cancel (λ fs, has_type [TYPE_c; TYPE_s; TYPE_p] fs && fs_always_sign fs) W
      (set_always_sign false);
    cancel (λ fs, has_type [TYPE_c; TYPE_s; TYPE_p] fs && fs_empty_sign fs) W
      (set_empty_sign false);
    cancel (λ fs, has_type [TYPE_c; TYPE_s; TYPE_p] fs && fs_alternate_form fs)
      W (set_alternate_form false);
    cancel (λ fs, has_type [TYPE_c; TYPE_s; TYPE_p] fs && fs_zero_padded fs) W
      (set_zero_padded false);
    (* everything with n *)
    cancel (λ fs, has_type [TYPE_n] fs && fs_always_sign fs) P
      (set_always_sign false);
    cancel (λ fs, has_type [TYPE_n] fs && fs_empty_sign fs) P
      (set_empty_sign false);
    cancel (λ fs, has_type [TYPE_n] fs && fs_alternate_form fs) P
      (set_alternate_form false);
    cancel (λ fs, has_type [TYPE_n] fs && fs_zero_padded fs) P
      (set_zero_padded false);
    cancel (λ fs, has_type [TYPE_n] fs && fs_left_justify fs) P
      (set_left_justify false);
    cancel (λ fs, has_type [TYPE_n] fs && bool_decide (fs_width fs ≠ 0)) P
      (set_width 0);
    cancel (λ fs, has_type [TYPE_n] fs && bool_decide (fs_precision fs ≠ -1)) P
      (set_precision (-1));
    (* precision with c or p *)
    cancel (λ fs, has_type [TYPE_c; TYPE_p] fs
                  && bool_decide (fs_precision fs ≠ -1))
      FORMAT_WARNING_precision_does_nothing (set_precision (-1));
    (* zero padded and left justified *)
    cancel (λ fs, fs_zero_padded fs && fs_left_justify fs) W
      (set_zero_padded false);
    (* a precision cancels the 0 flag *)
    cancel (λ fs, bool_decide (fs_precision fs ≠ -1) && fs_zero_padded fs) W
      (set_zero_padded false) ].

Definition format_string_check_unused_values (fs : format_specifier)
  : format_error * format_specifier :=
  foldl (λ st block, block st) (FORMAT_okay, fs) unused_values_blocks.

End Format.
Import Format.


(** ** The machine state *)

(** A variadic argument after the default promotions. *)
Inductive arg :=
| AInt (z : Z)                  (* an argument of integer type *)
| ADouble                       (* a floating argument; its value is opaque *)
| AString (s : option string)   (* a [char *]; [None] is NULL *)
| APointer (a : Z)              (* a [void *] by its address; 0 is NULL *)
| ATarget (l : option N).       (* a pointer to an integer object, for n *)

(** [struct struct_positional_info]; [pi_item] is the owning pointer. *)
Record positional_info := mk_pi {
  pi_length : format_string_lengths;
  pi_type : format_string_types;
  pi_item : option N
}.

(** [struct struct_positional_info_array] *)
Record positional_info_array := mk_pia {
  pia_size : Z;
  pia_array : option N
}.

(** An allocated object.  A scalar object records its size in bytes and its
    value, if initialised. *)
Inductive block :=
| BChars (data : list ascii)
| BObject (size : Z) (v : option arg)
| BItems (items : list positional_info).

(** The memory the argument machinery works on: the [va_list], the heap, and
    the allocator (its next address and the outcomes of the coming requests:
    [false] is a failed request, an empty list never fails). *)
Record memory := mk_memory {
  m_valist : list arg;
  m_heap : gmap N block;
  m_fresh : N;
  m_oracle : list bool
}.

(** What a stream or a descriptor has received, and how many more bytes it
    accepts ([None]: any number). *)
Record device := mk_device {
  dev_data : list ascii;
  dev_room : option nat
}.

(** [struct output_specifier_struct].  [out_string] is a character pointer:
    an array and an offset into it. *)
Record output_specifier := mk_output {
  out_type : printf_output_type;
  out_stream : option N;
  out_fd : Z;
  out_string : option (N * Z);
  out_allocated_size : Z;
  out_character_limit : Z;
  out_characters_written : Z
}.

Definition set_string (p : option (N * Z)) (o : output_specifier) :=
  mk_output (out_type o) (out_stream o) (out_fd o) p (out_allocated_size o)
    (out_character_limit o) (out_characters_written o).
Definition set_allocated_size (n : Z) (o : output_specifier) :=
  mk_output (out_type o) (out_stream o) (out_fd o) (out_string o) n
    (out_character_limit o) (out_characters_written o).
Definition set_characters_written (n : Z) (o : output_specifier) :=
  mk_output (out_type o) (out_stream o) (out_fd o) (out_string o)
    (out_allocated_size o) (out_character_limit o) n.

(** The whole state: the [output_specifier] object of the running call, the
    storage only a sink reaches (streams, descriptors, the caller's character
    arrays), and the memory. *)
Record state := mk_state {
  st_output : output_specifier;
  st_streams : gmap N device;
  st_fds : gmap Z device;
  st_buffers : gmap N (list ascii);
  st_mem : memory
}.

Definition set_output (o : output_specifier) (s : state) :=
  mk_state o (st_streams s) (st_fds s) (st_buffers s) (st_mem s).
Definition set_streams (f : gmap N device) (s : state) :=
  mk_state (st_output s) f (st_fds s) (st_buffers s) (st_mem s).
Definition set_fds (f : gmap Z device) (s : state) :=
  mk_state (st_output s) (st_streams s) f (st_buffers s) (st_mem s).
Definition set_buffers (b : gmap N (list ascii)) (s : state) :=
  mk_state (st_output s) (st_streams s) (st_fds s) b (st_mem s).
Definition set_mem (m : memory) (s : state) :=
  mk_state (st_output s) (st_streams s) (st_fds s) (st_buffers s) m.

Definition set_valist (v : list arg) (m : memory) :=
  mk_memory v (m_heap m) (m_fresh m) (m_oracle m).
Definition set_heap (h : gmap N block) (m : memory) :=
  mk_memory (m_valist m) h (m_fresh m) (m_oracle m).

(** ** The monad of C computations *)

(** A computation either returns with a value and a new state, or has
    undefined behaviour, or runs out of the iterations a loop was given, or
    ends the program at a failed [assert]. *)
Inductive outcome (S A : Type) :=
| Ok (a : A) (s : S)
| Undefined
| Exhausted
| Aborted.
Arguments Ok {S A} a s.
Arguments Undefined {S A}.
Arguments Exhausted {S A}.
Arguments Aborted {S A}.

Definition comp (S A : Type) : Type := S → outcome S A.

Global Instance comp_ret {S} : MRet (comp S) := λ A a s, Ok a s.
Global Instance comp_bind {S} : MBind (comp S) := λ A B f m s,
  match m s with
  | Ok a s' => f a s'
  | Undefined => Undefined
  | Exhausted => Exhausted
  | Aborted => Aborted
  end.

(** Computations on the whole state and on the memory alone. *)
Abbreviation M := (comp state).
Abbreviation E := (comp memory).

Definition undefined {S A} : comp S A := λ _, Undefined.
Definition exhausted {S A} : comp S A := λ _, Exhausted.
Definition aborted {S A} : comp S A := λ _, Aborted.
Definition get {S} : comp S S := λ s, Ok s s.
Definition modify {S} (f : S → S) : comp S unit := λ s, Ok () (f s).

(** A value that must exist, or else the behaviour is undefined. *)
Definition defined {S A} (o : option A) : comp S A :=
  match o with
  | Some a => mret a
  | None => undefined
  end.

(** A memory computation run inside the whole state. *)
Definition liftE {A} (e : E A) : M A := λ s,
  match e (st_mem s) with
  | Ok a m => Ok a (set_mem m s)
  | Undefined => Undefined
  | Exhausted => Exhausted
  | Aborted => Aborted
  end.

(** [assert(b)] of assert.h; nothing in the library defines NDEBUG, so a
    failed assertion ends the program. *)
Definition c_assert {S} (b : bool) : comp S unit :=
  if b then mret () else aborted.

(** [p != NULL] *)
Definition non_null {A} (p : option A) : bool :=
  match p with
  | Some _ => true
  | None => false
  end.

(** ** Memory primitives *)

Module Mem.

Definition sizeof_char : Z := 1.
Definition sizeof_short : Z := 2.
Definition sizeof_int : Z := 4.
Definition sizeof_long : Z := 8.
Definition sizeof_long_long : Z := 8.
Definition sizeof_intmax_t : Z := 8.
Definition sizeof_size_t : Z := 8.
Definition sizeof_ptrdiff_t : Z := 8.
Definition sizeof_double : Z := 8.
Definition sizeof_long_double : Z := 16.
Definition sizeof_pointer : Z := 8.

(** [malloc]: the new object starts as [b]. *)
Definition malloc (b : block) : E (option N) := λ m,
  let granted :=
    Ok (Some (m_fresh m))
       (mk_memory (m_valist m) (<[m_fresh m := b]> (m_heap m))
                  (m_fresh m + 1)%N (tail (m_oracle m))) in
  match m_oracle m with
  | false :: o => Ok None (mk_memory (m_valist m) (m_heap m) (m_fresh m) o)
  | _ => granted
  end.

(** [free]: NULL is ignored, anything else must be a live object. *)
Definition free (p : option N) : E unit :=
  match p with
  | None => mret ()
  | Some a =>
      m ← get;
      _ ← defined (m_heap m !! a);
      modify (set_heap (delete a (m_heap m)))
  end.

(** [realloc] of a live object: on success the object moves to a new address
    with the contents [resize] gives it; on failure it stays. *)
Definition realloc (p : N) (resize : block → option block)
  : E (option N) :=
  m ← get;
  old ← defined (m_heap m !! p);
  new ← defined (resize old);
  q ← malloc new;
  match q with
  | None => mret None
  | Some _ => _ ← modify (λ m, set_heap (delete p (m_heap m)) m); mret q
  end.

(** The first [n] elements, extended with [d] up to [n]. *)
Definition resize_list {A} (n : Z) (d : A) (l : list A) : list A :=
  take (Z.to_nat n) l ++ replicate (Z.to_nat n - length l) d.

Definition resize_chars (n : Z) (b : block) : option block :=
  match b with
  | BChars data => Some (BChars (resize_list n NUL data))
  | _ => None
  end.

(** An element of a [positional_info] array before it is assigned. *)
Definition blank_item : positional_info := mk_pi LENGTH_none TYPE_ERROR None.

Definition resize_items (n : Z) (b : block) : option block :=
  match b with
  | BItems items => Some (BItems (resize_list n blank_item items))
  | _ => None
  end.

(** [va_arg(valist->valist, T)] *)
Definition va_arg : E arg :=
  m ← get;
  match m_valist m with
  | a :: rest => _ ← modify (set_valist rest); mret a
  | [] => undefined
  end.

Definition va_arg_integer (conv : Z → Z) : E Z :=
  a ← va_arg;
  match a with AInt z => mret (conv z) | _ => undefined end.
Definition va_arg_double : E unit :=
  a ← va_arg;
  match a with ADouble => mret () | _ => undefined end.
Definition va_arg_string : E (option string) :=
  a ← va_arg;
  match a with AString s => mret s | _ => undefined end.
Definition va_arg_pointer : E Z :=
  a ← va_arg;
  match a with APointer p => mret p | _ => undefined end.
Definition va_arg_target : E (option N) :=
  a ← va_arg;
  match a with ATarget l => mret l | _ => undefined end.

(** A load through a pointer to a scalar type of [size] bytes. *)
Definition load_object (size : Z) (p : option N) : E arg :=
  a ← defined p;
  m ← get;
  b ← defined (m_heap m !! a);
  match b with
  | BObject size' (Some v) => if decide (size' = size) then mret v else undefined
  | _ => undefined
  end.

(** A store through a pointer to a scalar type of [size] bytes. *)
Definition store_object (size : Z) (p : option N) (v : arg) : E unit :=
  a ← defined p;
  m ← get;
  b ← defined (m_heap m !! a);
  match b with
  | BObject size' _ =>
      if decide (size' = size)
      then modify (set_heap (<[a := BObject size (Some v)]> (m_heap m)))
      else undefined
  | _ => undefined
  end.

Definition load_integer (size : Z) (conv : Z → Z) (p : option N) : E Z :=
  v ← load_object size p;
  match v with AInt z => mret (conv z) | _ => undefined end.
Definition load_string (p : option N) : E (option string) :=
  v ← load_object sizeof_pointer p;
  match v with AString s => mret s | _ => undefined end.
Definition load_pointer (p : option N) : E Z :=
  v ← load_object sizeof_pointer p;
  match v with APointer a => mret a | _ => undefined end.
Definition load_target (p : option N) : E (option N) :=
  v ← load_object sizeof_pointer p;
  match v with ATarget l => mret l | _ => undefined end.

(** [array[i]] and [array[i] = it] on a [positional_info] array. *)
Definition load_item (array : option N) (i : Z) : E positional_info :=
  a ← defined array;
  m ← get;
  b ← defined (m_heap m !! a);
  match b with
  | BItems items =>
      if decide (0 ≤ i) then defined (items !! Z.to_nat i) else undefined
  | _ => undefined
  end.

Definition store_item (array : option N) (i : Z) (it : positional_info)
  : E unit :=
  a ← defined array;
  m ← get;
  b ← defined (m_heap m !! a);
  match b with
  | BItems items =>
      if decide (0 ≤ i < Z.of_nat (length items))
      then modify (set_heap (<[a := BItems (<[Z.to_nat i := it]> items)]>
                               (m_heap m)))
      else undefined
  | _ => undefined
  end.

(** [*(string + i) = c] on an allocated character array. *)
Definition store_char (p : option (N * Z)) (i : Z) (c : ascii) : E unit :=
  '(a, off) ← defined p;
  m ← get;
  b ← defined (m_heap m !! a);
  match b with
  | BChars data =>
      if decide (0 ≤ off + i < Z.of_nat (length data))
      then modify (set_heap (<[a := BChars (<[Z.to_nat (off + i) := c]> data)]>
                               (m_heap m)))
      else undefined
  | _ => undefined
  end.

End Mem.
Import Mem.

(** ** printf.c: the four sinks *)

Module Sink.

Definition BASE_ALLOCATED_STRING_SIZE : Z := 16.

Definition get_output : M output_specifier := s ← get; mret (st_output s).
Definition put_output (o : output_specifier) : M unit := modify (set_output o).

(** [output->characters_written++] on a [size_t]. *)
Definition count_character : M unit :=
  o ← get_output;
  put_output (set_characters_written
                (to_size_t (out_characters_written o + 1)) o).

(** [output->characters_written], read. *)
Definition characters_written : M Z :=
  o ← get_output; mret (out_characters_written o).

(** [putc(c, stream) != EOF] *)
Definition putc (c : ascii) (stream : option N) : M bool :=
  h ← defined stream;
  s ← get;
  d ← defined (st_streams s !! h);
  match dev_room d with
  | Some O => mret false
  | room =>
      _ ← modify (set_streams
                    (<[h := mk_device (dev_data d ++ [c]) (Nat.pred <$> room)]>
                       (st_streams s)));
      mret true
  end.

(** [write(fd, &c, 1)]: the number of bytes written, or -1. *)
Definition write (fd : Z) (c : ascii) : M Z :=
  s ← get;
  match st_fds s !! fd with
  | None => mret (-1)
  | Some d =>
      match dev_room d with
      | Some O => mret 0
      | room =>
          _ ← modify (set_fds
                        (<[fd := mk_device (dev_data d ++ [c])
                                           (Nat.pred <$> room)]> (st_fds s)));
          mret 1
      end
  end.

(** A store through a character pointer into a caller's array. *)
Definition store_buffer (p : option (N * Z)) (c : ascii) : M unit :=
  '(a, off) ← defined p;
  s ← get;
  data ← defined (st_buffers s !! a);
  if decide (0 ≤ off < Z.of_nat (length data))
  then modify (set_buffers (<[a := <[Z.to_nat off := c]> data]> (st_buffers s)))
  else undefined.

(** [p + 1] on a character pointer. *)
Definition next_char (p : option (N * Z)) : option (N * Z) :=
  '(a, off) ← p; Some (a, off + 1).

(** [malloc], [realloc] and [free] of character arrays. *)
Definition malloc_chars (n : Z) : E (option (N * Z)) :=
  q ← malloc (BChars (replicate (Z.to_nat n) NUL));
  mret ((λ a, (a, 0)) <$> q).

Definition realloc_chars (p : option (N * Z)) (n : Z) : E (option (N * Z)) :=
  match p with
  | None => malloc_chars n
  | Some (a, off) =>
      if decide (off = 0)
      then q ← realloc a (resize_chars n); mret ((λ a, (a, 0)) <$> q)
      else undefined
  end.

Definition free_chars (p : option (N * Z)) : E unit :=
  match p with
  | None => mret ()
  | Some (a, off) => if decide (off = 0) then free (Some a) else undefined
  end.

Definition printf_output_sprintf (c : ascii) : M bool :=
  o ← get_output;
  if decide (out_character_limit o = 0) then
    (* We should never write anything. *)
    _ ← count_character; mret true
  else if decide (out_character_limit o - 1 ≤ out_characters_written o) then
    (* We've reached our max characters already. Leave room for NUL. *)
    _ ← count_character; mret true
  else
    _ ← store_buffer (out_string o) c;
    _ ← put_output (set_string (next_char (out_string o)) o);
    _ ← count_character;
    mret true.

Definition printf_output_fprintf (c : ascii) : M bool :=
  o ← get_output;
  written ← putc c (out_stream o);
  if written : bool then _ ← count_character; mret true
  else mret false.

Definition printf_output_dprintf (c : ascii) : M bool :=
  o ← get_output;
  n ← write (out_fd o) c;
  if decide (n ≠ 1) then mret false
  else _ ← count_character; mret true.

Definition printf_output_asprintf (c : ascii) : M bool :=
  o ← get_output;
  grown ←
    (if decide (out_allocated_size o ≤ out_characters_written o) then
       string ← liftE (realloc_chars (out_string o)
                         (to_size_t (out_allocated_size o * 2)));
       match string with
       | None => _ ← liftE (free_chars (out_string o)); mret false
       | Some _ =>
           _ ← put_output
                 (set_allocated_size (to_size_t (out_allocated_size o * 2))
                    (set_string string o));
           mret true
       end
     else mret true);
  if grown : bool then
    o ← get_output;
    _ ← liftE (store_char (out_string o) (out_characters_written o) c);
    _ ← count_character;
    mret true
  else mret false.

Definition printf_output (c : ascii) : M bool :=
  o ← get_output;
  match out_type o with
  | OUTPUT_string => printf_output_sprintf c
  | OUTPUT_stream => printf_output_fprintf c
  | OUTPUT_file_descriptor => printf_output_dprintf c
  | OUTPUT_allocated_string => printf_output_asprintf c
  end.

End Sink.
Import Sink.

(** ** printf_basic_output.c: the emitters *)

Module Output.

Definition base_conversion_small : string := "0123456789abcdef".
Definition base_conversion_capital : string := "0123456789ABCDEF".
Definition null_pointer_string : string := "(nil)".
Definition null_string_string : string := "(null)".

Definition BUFFER_SIZE : Z := 128.

(** [if (!a) return false; b] *)
Definition and_then {S} (a b : comp S bool) : comp S bool :=
  ok ← a; if ok : bool then b else mret false.
Infix ">>>" := and_then (at level 62, right associativity).

(** The loop of [pad_output]. *)
Fixpoint pad_output_loop (n : nat) (pad_character : ascii) : M bool :=
  match n with
  | O => mret true
  | S n' => printf_output pad_character >>> pad_output_loop n' pad_character
  end.

Definition pad_output (length : Z) (pad_character : ascii) : M bool :=
  pad_output_loop (Z.to_nat length) pad_character.

(** The loop of [write_backwards_buffer], [n] iterations from index [i].
    A scratch buffer is the list of the characters written into it. *)
Fixpoint write_backwards_buffer_loop (n : nat) (buffer : list ascii)
  (length i : Z) : M bool :=
  match n with
  | O => mret true
  | S n' =>
      (c ← defined (buffer !! Z.to_nat (length - 1 - i)); printf_output c)
      >>> write_backwards_buffer_loop n' buffer length (i + 1)
  end.

Definition write_backwards_buffer (buffer : list ascii) (length : Z) : M bool :=
  write_backwards_buffer_loop (Z.to_nat length) buffer length 0.

(** The loop of [write_forwards_buffer]; the buffer is a C string, NULL
    included. *)
Fixpoint write_forwards_buffer_loop (n : nat) (buffer : option string) (i : Z)
  : M bool :=
  match n with
  | O => mret true
  | S n' =>
      (str ← defined buffer;
       c ← defined (String.get (Z.to_nat i) str);
       printf_output c)
      >>> write_forwards_buffer_loop n' buffer (i + 1)
  end.

Definition write_forwards_buffer (buffer : option string) (length : Z)
  : M bool :=
  write_forwards_buffer_loop (Z.to_nat length) buffer 0.

(** [if (c != 0) printf_output(c)] *)
Definition write_prefix (prefix : ascii) : M bool :=
  if decide (prefix ≠ NUL) then printf_output prefix else mret true.

Definition write_backwards_buffer_with_padding (buffer : list ascii)
  (length : Z) (fs : format_specifier) (prefix prefix2 : ascii)
  (padding precision_padding : Z) : M bool :=
  if fs_zero_padded fs then
    (* Right justified, zero padded. *)
    write_prefix prefix >>> write_prefix prefix2
    >>> pad_output (to_int padding) "0"
    >>> pad_output (to_int precision_padding) "0"
    >>> write_backwards_buffer buffer (to_int length)
  else if negb (fs_left_justify fs) && negb (fs_zero_padded fs) then
    (* Right justified, padded with spaces. *)
    pad_output (to_int padding) " "
    >>> write_prefix prefix >>> write_prefix prefix2
    >>> pad_output (to_int precision_padding) "0"
    >>> write_backwards_buffer buffer (to_int length)
  else if fs_left_justify fs && negb (fs_zero_padded fs) then
    (* Left justified, padded with spaces. *)
    write_prefix prefix >>> write_prefix prefix2
    >>> pad_output (to_int precision_padding) "0"
    >>> write_backwards_buffer buffer (to_int length)
    >>> pad_output (to_int padding) " "
  else mret true.

(** The loop of [strnlen_safe]. *)
Fixpoint strnlen_safe_loop (str : string) (max count : Z) : Z :=
  if decide (count < max) then
    match str with
    | String c rest =>
        if decide (c ≠ NUL) then strnlen_safe_loop rest max (count + 1)
        else count
    | EmptyString => count
    end
  else count.

(** With [max = 0] the string is not read, so NULL is accepted. *)
Definition strnlen_safe {S} (str : option string) (max : Z) : comp S Z :=
  match str with
  | Some s => mret (to_int (strnlen_safe_loop s max 0))
  | None => if decide (0 < max) then undefined else mret (to_int 0)
  end.

Definition write_string (input : option string) (fs : format_specifier)
  : M bool :=
  let input :=
    if decide (fs_precision fs ≠ 0) then
      match input with None => Some null_string_string | Some _ => input end
    else input in
  length ←
    (if decide (fs_precision fs ≠ -1) then
       n ← strnlen_safe input (to_size_t (fs_precision fs));
       mret (to_uint n)
     else
       s ← defined input; mret (to_uint (strlen s)));
  let padding_amount :=
    if decide (length < fs_width fs) then to_int (to_uint (fs_width fs - length))
    else 0 in
  if negb (fs_left_justify fs) then
    pad_output padding_amount " "
    >>> write_forwards_buffer input (to_int length)
  else
    write_forwards_buffer input (to_int length)
    >>> pad_output padding_amount " ".

Definition write_character (value : Z) (fs : format_specifier) : M bool :=
  let buffer := char_of_code value in
  let padding_amount :=
    if decide (1 < fs_width fs) then to_int (to_uint (fs_width fs - 1))
    else 0 in
  write_backwards_buffer_with_padding [buffer] 1 fs NUL NUL
    (to_uint padding_amount) 0.

Definition write_characters_written (pointer : option N)
  (fs : format_specifier) : M bool :=
  n ← characters_written;
  let store size conv : M bool :=
    _ ← liftE (store_object size pointer (AInt (conv n))); mret true in
  match pointer with
  | None => mret false
  | Some _ =>
      match fs_length fs with
      | LENGTH_none => store sizeof_int to_int
      | LENGTH_hh => store sizeof_char to_schar
      | LENGTH_h => store sizeof_short to_short
      | LENGTH_l => store sizeof_long to_long
      | LENGTH_ll => store sizeof_long_long to_long
      | LENGTH_j => store sizeof_intmax_t to_intmax
      | LENGTH_z => store sizeof_size_t to_size_t
      | LENGTH_t => store sizeof_ptrdiff_t to_ptrdiff
      | LENGTH_L => mret false
      end
  end.

(** The loop of [write_integer_backwards] at a buffer with [room] free
    bytes; the result is the buffer as written, least significant digit
    first. *)
Fixpoint write_integer_backwards_loop (room : nat) (char_values : string)
  (value base : Z) : option (list ascii) :=
  match room with
  | O => None
  | S room' =>
      c ← String.get (Z.to_nat (value `mod` base)) char_values;
      if decide (value `div` base ≠ 0) then
        rest ← write_integer_backwards_loop room' char_values
                 (value `div` base) base;
        Some (c :: rest)
      else Some [c]
  end.

Definition write_integer_backwards (value : Z) (fs : format_specifier)
  (base : Z) : option (list ascii) :=
  let char_values :=
    if decide (fs_type fs = TYPE_X) then base_conversion_capital
    else base_conversion_small in
  write_integer_backwards_loop (Z.to_nat BUFFER_SIZE) char_values value base.

(** The loop of [write_decimal_negative_backwards]; [/] and [%] of C
    truncate towards zero. *)
Fixpoint write_decimal_negative_backwards_loop (room : nat) (value : Z)
  : option (list ascii) :=
  match room with
  | O => None
  | S room' =>
      let c := char_of_code (char_code "0" - Z.rem value 10) in
      if decide (Z.quot value 10 ≠ 0) then
        rest ← write_decimal_negative_backwards_loop room' (Z.quot value 10);
        Some (c :: rest)
      else Some [c]
  end.

Definition write_decimal_negative_backwards (value : Z)
  : option (list ascii) :=
  write_decimal_negative_backwards_loop (Z.to_nat BUFFER_SIZE) value.

(** "Determine if we need to pad our number up to precision": the pair
    [(precision_length, precision_padding)]. *)
Definition pad_to_precision (fs : format_specifier) (length : Z) : Z * Z :=
  if decide (fs_precision fs = -1) then (length, 0)
  else if decide (length < to_uint (fs_precision fs))
       then (to_uint (fs_precision fs), to_uint (fs_precision fs - length))
       else (length, 0).

(** "Determine if we need to pad our number up to width", with [extra]
    characters of sign or prefix. *)
Definition pad_to_width (fs : format_specifier) (precision_length extra : Z)
  : Z :=
  if decide (to_uint (precision_length + extra) < fs_width fs)
  then to_uint (fs_width fs - precision_length - extra)
  else 0.

(** The digits of [value], or none at all for a zero with precision 0. *)
Definition integer_digits (value : Z) (fs : format_specifier) (base : Z)
  : M (list ascii) :=
  if decide (fs_precision fs = 0 ∧ value = 0) then mret []
  else defined (write_integer_backwards value fs base).

Definition write_hexadecimal (value : Z) (fs : format_specifier) : M bool :=
  let x_char : ascii :=
    if fs_alternate_form fs
    then (if decide (fs_type fs = TYPE_X) then "X" else "x")%char
    else NUL in
  let zero_char : ascii := if fs_alternate_form fs then "0"%char else NUL in
  buffer ← integer_digits value fs 16;
  let length := Z.of_nat (length buffer) in
  let '(precision_length, precision_padding) := pad_to_precision fs length in
  let padding_amount :=
    pad_to_width fs precision_length (if fs_alternate_form fs then 2 else 0) in
  write_backwards_buffer_with_padding buffer length fs zero_char x_char
    padding_amount precision_padding.

Definition write_decimal_negative (value : Z) (fs : format_specifier)
  : M bool :=
  buffer ← defined (write_decimal_negative_backwards (to_intmax value));
  let length := Z.of_nat (length buffer) in
  let '(precision_length, precision_padding) := pad_to_precision fs length in
  let padding_amount := pad_to_width fs precision_length 1 in
  write_backwards_buffer_with_padding buffer length fs "-" NUL
    padding_amount precision_padding.

Definition write_decimal_positive (value : Z) (fs : format_specifier)
  : M bool :=
  buffer ← integer_digits value fs 10;
  let length := Z.of_nat (length buffer) in
  let '(precision_length, precision_padding) := pad_to_precision fs length in
  let padding_amount :=
    pad_to_width fs precision_length
      (if fs_always_sign fs || fs_empty_sign fs then 1 else 0) in
  let plus_char : ascii :=
    if fs_always_sign fs then "+"%char
    else if fs_empty_sign fs then " "%char else NUL in
  write_backwards_buffer_with_padding buffer length fs plus_char NUL
    padding_amount precision_padding.

(** [write_octal] clears [fs->alternate_form] in the caller's specifier when
    the precision already gives a leading zero; no caller reads the flag
    afterwards, so the update stays local here. *)
Definition write_octal (value : Z) (fs : format_specifier) : M bool :=
  buffer ← integer_digits value fs 8;
  let length := Z.of_nat (length buffer) in
  let '(precision_length, precision_padding) := pad_to_precision fs length in
  let fs :=
    if decide (length < precision_length) then set_alternate_form false fs
    else fs in
  let padding_amount :=
    pad_to_width fs precision_length (if fs_alternate_form fs then 1 else 0) in
  let zero_char : ascii := if fs_alternate_form fs then "0"%char else NUL in
  write_backwards_buffer_with_padding buffer length fs zero_char NUL
    padding_amount precision_padding.

Definition write_integer_positive (value : Z) (fs : format_specifier)
  : M bool :=
  match fs_type fs with
  | TYPE_u | TYPE_d | TYPE_i => write_decimal_positive value fs
  | TYPE_o => write_octal value fs
  | TYPE_x | TYPE_X => write_hexadecimal value fs
  | _ => mret false
  end.

Definition write_pointer (pointer : Z) (fs : format_specifier) : M bool :=
  let pointer_fs :=
    mk_fs 0 (fs_left_justify fs) false false false false 0 (fs_width fs) 0
      (-1) LENGTH_none TYPE_x 0 in
  if decide (pointer = 0) then write_string (Some null_pointer_string) pointer_fs
  else write_hexadecimal (to_uintmax pointer)
         (set_alternate_form true pointer_fs).

End Output.
Import Output.

(** ** printf_arguments.c: sequential and positional argument delivery *)

Module Arguments.

Definition DEFAULT_PIA_SIZE : Z := 8.

(** [positional_items[position - 1].item] *)
Definition item_of (positional_items : option N) (position : Z)
  : E (option N) :=
  current_item ← load_item positional_items (position - 1);
  mret (pi_item current_item).

Definition pop_or_load_integer (fs : format_specifier) (using_positions : bool)
  (positional_items : option N) : E Z :=
  pointer ← (if using_positions
             then item_of positional_items (fs_position fs) else mret None);
  let fetch size conv :=
    if using_positions then load_integer size conv pointer
    else va_arg_integer conv in
  match fs_length fs with
  | LENGTH_none => fetch sizeof_int to_int
  | LENGTH_hh => z ← fetch sizeof_int to_int; mret (to_schar z)
  | LENGTH_h => z ← fetch sizeof_int to_int; mret (to_short z)
  | LENGTH_l => fetch sizeof_long to_long
  | LENGTH_ll => fetch sizeof_long_long to_long
  | LENGTH_j => fetch sizeof_intmax_t to_intmax
  | LENGTH_z => z ← fetch sizeof_size_t to_size_t; mret (to_intmax z)
  | LENGTH_t => fetch sizeof_ptrdiff_t to_ptrdiff
  | LENGTH_L => mret 0
  end.

Definition pop_or_load_unsigned_integer (fs : format_specifier)
  (using_positions : bool) (positional_items : option N) : E Z :=
  pointer ← (if using_positions
             then item_of positional_items (fs_position fs) else mret None);
  let fetch size conv :=
    if using_positions then load_integer size conv pointer
    else va_arg_integer conv in
  match fs_length fs with
  | LENGTH_none => fetch sizeof_int to_uint
  | LENGTH_hh => z ← fetch sizeof_int to_uint; mret (to_uchar z)
  | LENGTH_h => z ← fetch sizeof_int to_uint; mret (to_ushort z)
  | LENGTH_l => fetch sizeof_long to_ulong
  | LENGTH_ll => fetch sizeof_long_long to_ulong
  | LENGTH_j => fetch sizeof_intmax_t to_uintmax
  | LENGTH_z => fetch sizeof_size_t to_size_t
  | LENGTH_t => z ← fetch sizeof_ptrdiff_t to_ptrdiff; mret (to_uintmax z)
  | LENGTH_L => mret 0
  end.

Definition pop_or_load_character (fs : format_specifier)
  (using_positions : bool) (positional_items : option N) : E Z :=
  if using_positions then
    pointer ← item_of positional_items (fs_position fs);
    z ← load_integer sizeof_int to_int pointer; mret (to_uchar z)
  else
    z ← va_arg_integer to_int; mret (to_uchar z).

Definition pop_or_load_string (fs : format_specifier) (using_positions : bool)
  (positional_items : option N) : E (option string) :=
  if using_positions then
    pointer ← item_of positional_items (fs_position fs);
    load_string pointer
  else va_arg_string.

Definition pop_or_load_pointer (fs : format_specifier) (using_positions : bool)
  (positional_items : option N) : E Z :=
  if using_positions then
    pointer ← item_of positional_items (fs_position fs);
    load_pointer pointer
  else va_arg_pointer.

Definition pop_or_load_width_precision (using_positions : bool)
  (positional_items : option N) (position : Z) : E Z :=
  if negb using_positions then va_arg_integer to_int
  else
    pointer ← item_of positional_items position;
    load_integer sizeof_int to_int pointer.

Definition pop_or_load_n_pointer (fs : format_specifier)
  (using_positions : bool) (positional_items : option N) : E (option N) :=
  if using_positions then
    pointer ← item_of positional_items (fs_position fs);
    load_target pointer
  else
    match fs_length fs with
    | LENGTH_L => mret None
    | _ => va_arg_target
    end.

(** [current_item->item = p], for [current_item = array + i]. *)
Definition set_item (array : option N) (i : Z) (p : option N) : E unit :=
  it ← load_item array i;
  store_item array i (mk_pi (pi_length it) (pi_type it) p).

(** The common body of the [pop_and_store_*] functions:
    [p = malloc(size); if (p == NULL) return false; *p = va_arg(...);
     current_item->item = p; return true]. *)
Definition pop_and_store (array : option N) (i : Z) (size : Z)
  (pop : E arg) : E bool :=
  p ← malloc (BObject size None);
  match p with
  | None => mret false
  | Some _ =>
      v ← pop;
      _ ← store_object size p v;
      _ ← set_item array i p;
      mret true
  end.

Definition pop_and_store_integer (array : option N) (i : Z) : E bool :=
  current_item ← load_item array i;
  let pop conv := z ← va_arg_integer conv; mret (AInt z) in
  match pi_length current_item with
  | LENGTH_none | LENGTH_hh | LENGTH_h =>
      pop_and_store array i sizeof_int (pop to_int)
  | LENGTH_l => pop_and_store array i sizeof_long (pop to_long)
  | LENGTH_ll => pop_and_store array i sizeof_long_long (pop to_long)
  | LENGTH_j => pop_and_store array i sizeof_intmax_t (pop to_intmax)
  | LENGTH_z => pop_and_store array i sizeof_size_t (pop to_size_t)
  | LENGTH_t => pop_and_store array i sizeof_ptrdiff_t (pop to_ptrdiff)
  | LENGTH_L => mret false
  end.

Definition pop_and_store_unsigned_integer (array : option N) (i : Z)
  : E bool :=
  current_item ← load_item array i;
  let pop conv := z ← va_arg_integer conv; mret (AInt z) in
  match pi_length current_item with
  | LENGTH_none | LENGTH_hh | LENGTH_h =>
      pop_and_store array i sizeof_int (pop to_uint)
  | LENGTH_l => pop_and_store array i sizeof_long (pop to_ulong)
  | LENGTH_ll => pop_and_store array i sizeof_long_long (pop to_ulong)
  | LENGTH_j => pop_and_store array i sizeof_intmax_t (pop to_uintmax)
  | LENGTH_z => pop_and_store array i sizeof_size_t (pop to_size_t)
  | LENGTH_t => pop_and_store array i sizeof_ptrdiff_t (pop to_ptrdiff)
  | LENGTH_L => mret false
  end.

Definition pop_and_store_floating_point (array : option N) (i : Z) : E bool :=
  current_item ← load_item array i;
  let pop := _ ← va_arg_double; mret ADouble in
  match pi_length current_item with
  | LENGTH_none => pop_and_store array i sizeof_double pop
  | LENGTH_L => pop_and_store array i sizeof_long_double pop
  | _ => mret false
  end.

Definition pop_and_store_character (array : option N) (i : Z) : E bool :=
  pop_and_store array i sizeof_int (z ← va_arg_integer to_int; mret (AInt z)).

Definition pop_and_store_pointer (array : option N) (i : Z) : E bool :=
  pop_and_store array i sizeof_pointer (p ← va_arg_pointer; mret (APointer p)).

Definition pop_and_store_string (array : option N) (i : Z) : E bool :=
  pop_and_store array i sizeof_pointer (s ← va_arg_string; mret (AString s)).

Definition pop_and_store_n_pointer (array : option N) (i : Z) : E bool :=
  current_item ← load_item array i;
  match pi_length current_item with
  | LENGTH_L => mret false
  | _ => pop_and_store array i sizeof_pointer
           (l ← va_arg_target; mret (ATarget l))
  end.

(** The loop of [pop_and_store_cleanup]: [n] iterations from index [i]. *)
Fixpoint pop_and_store_cleanup_loop (n : nat) (array : option N) (i : Z)
  : E unit :=
  match n with
  | O => mret ()
  | S n' =>
      it ← load_item array i;
      _ ← free (pi_item it);
      pop_and_store_cleanup_loop n' array (i + 1)
  end.

(** [for (int i = 0; i < count - 1; i++) free((pia->array + i)->item);] *)
Definition pop_and_store_cleanup (pia : positional_info_array) (count : Z)
  : E unit :=
  pop_and_store_cleanup_loop (Z.to_nat (count - 1)) (pia_array pia) 0.

(** The loop of [pop_and_store_argument_list]. *)
Fixpoint pop_and_store_argument_list_loop (n : nat)
  (pia : positional_info_array) (count i : Z) : E bool :=
  match n with
  | O => mret true
  | S n' =>
      let array := pia_array pia in
      current_item ← load_item array i;
      stored ←
        match pi_type current_item with
        | TYPE_d | TYPE_i => pop_and_store_integer array i
        | TYPE_o | TYPE_x | TYPE_X | TYPE_u =>
            pop_and_store_unsigned_integer array i
        | TYPE_f | TYPE_F | TYPE_e | TYPE_E | TYPE_g | TYPE_G | TYPE_a
        | TYPE_A => pop_and_store_floating_point array i
        | TYPE_c => pop_and_store_character array i
        | TYPE_s => pop_and_store_string array i
        | TYPE_p => pop_and_store_pointer array i
        | TYPE_n => pop_and_store_n_pointer array i
        | TYPE_ERROR => mret false
        end;
      if stored : bool then
        pop_and_store_argument_list_loop n' pia count (i + 1)
      else
        _ ← pop_and_store_cleanup pia count; mret false
  end.

Definition pop_and_store_argument_list (pia : positional_info_array)
  (count : Z) : E bool :=
  pop_and_store_argument_list_loop (Z.to_nat count) pia count 0.

(** [malloc] and [realloc] of [positional_info] arrays. *)
Definition malloc_items (n : Z) : E (option N) :=
  malloc (BItems (replicate (Z.to_nat n) blank_item)).

Definition realloc_items (p : option N) (n : Z) : E (option N) :=
  match p with
  | None => malloc_items n
  | Some a => realloc a (resize_items n)
  end.

(** [for (i = from; i < to; i++)] the three assignments that blank
    [array[i]]. *)
Fixpoint initialise_items (n : nat) (array : option N) (i : Z) : E unit :=
  match n with
  | O => mret ()
  | S n' =>
      _ ← store_item array i blank_item; initialise_items n' array (i + 1)
  end.

(** [while (current_size < required_size) current_size *= 2;] on [int]s.
    The loop has no exit for [current_size <= 0]; [fuel] bounds it. *)
Fixpoint double_until (fuel : nat) (current_size required_size : Z) : E Z :=
  if decide (current_size < required_size) then
    match fuel with
    | O => exhausted
    | S fuel' =>
        current_size ← defined (int_checked (current_size * 2));
        double_until fuel' current_size required_size
    end
  else mret current_size.

Definition pia_check_size_and_update (pia : positional_info_array)
  (required_size : Z) : E (bool * positional_info_array) :=
  if decide (pia_size pia < required_size) then
    current_size ← double_until 32 (pia_size pia) required_size;
    new_array ← realloc_items (pia_array pia) current_size;
    match new_array with
    | None => mret (false, pia)
    | Some _ =>
        _ ← initialise_items (Z.to_nat (current_size - pia_size pia))
              new_array (pia_size pia);
        mret (true, mk_pia current_size new_array)
    end
  else mret (true, pia).

Definition pia_initialise (pia : positional_info_array)
  : E (bool * positional_info_array) :=
  array ← malloc_items DEFAULT_PIA_SIZE;
  match array with
  | None => mret (false, mk_pia (pia_size pia) None)
  | Some _ =>
      _ ← initialise_items (Z.to_nat DEFAULT_PIA_SIZE) array 0;
      mret (true, mk_pia DEFAULT_PIA_SIZE array)
  end.

(** One of the three record blocks of [parse_format_string_for_positions]:
    make room for [required_size] slots, then check and set the slot
    [pia->array + index - 1] to [(length, type)].  On failure the array is
    freed. *)
Definition record_slot (pia : positional_info_array)
  (required_size index : Z) (type : format_string_types)
  (length : format_string_lengths) : E (bool * positional_info_array) :=
  '(ok, pia) ← pia_check_size_and_update pia required_size;
  if negb ok then
    _ ← free (pia_array pia); mret (false, pia)
  else
    current_item ← load_item (pia_array pia) (index - 1);
    if bool_decide (pi_type current_item ≠ TYPE_ERROR)
       && (bool_decide (pi_type current_item ≠ type)
           || bool_decide (pi_length current_item ≠ length))
    then
      (* This item has been used before with another length or type. *)
      _ ← free (pia_array pia); mret (false, pia)
    else
      _ ← store_item (pia_array pia) (index - 1)
            (mk_pi length type (pi_item current_item));
      mret (true, pia).

(** The body of the scan for one directive; [format] is just past the '%'. *)
Definition parse_position_directive (format : string)
  (pia : positional_info_array) (max_found : Z)
  : E (bool * positional_info_array * Z) :=
  '(error, fs) ← defined (read_format_string format);
  if format_error_is_error error then
    _ ← free (pia_array pia); mret (false, pia, max_found)
  else if decide (fs_position fs = 0) then
    (* Make sure we are using positions. *)
    _ ← free (pia_array pia); mret (false, pia, max_found)
  else
    (* Check preceding values. *)
    '(ok, pia, max_found) ←
      (if decide (fs_preceding_width fs ≠ 0) then
         '(ok, pia) ← record_slot pia (fs_preceding_width fs)
                        (fs_preceding_width fs) TYPE_i LENGTH_none;
         mret (ok, pia, Z.max max_found (fs_preceding_width fs))
       else mret (true, pia, max_found));
    if negb ok then mret (false, pia, max_found)
    else
      '(ok, pia, max_found) ←
        (if decide (fs_preceding_precision fs ≠ 0) then
           (* The slot is addressed with preceding_width, as in the source. *)
           '(ok, pia) ← record_slot pia (fs_preceding_precision fs)
                          (fs_preceding_width fs) TYPE_i LENGTH_none;
           mret (ok, pia, Z.max max_found (fs_preceding_precision fs))
         else mret (true, pia, max_found));
      if negb ok then mret (false, pia, max_found)
      else
        (* For printed type. *)
        '(ok, pia) ← record_slot pia (fs_position fs) (fs_position fs)
                       (fs_type fs) (fs_length fs);
        mret (ok, pia, Z.max max_found (fs_position fs)).

(** The main loop of [parse_format_string_for_positions], up to the NUL.
    The scan moves on by one character after a directive, and by two after
    an escaped percent sign. *)
Fixpoint parse_positions_loop (format : string) (pia : positional_info_array)
  (max_found : Z) : E (bool * positional_info_array * Z) :=
  match format with
  | EmptyString => mret (true, pia, max_found)
  | String c rest =>
      if decide (c = NUL) then mret (true, pia, max_found)
      else if decide (c = "%"%char) then
        match rest with
        | String "%" rest' => parse_positions_loop rest' pia max_found
        | _ =>
            '(ok, pia, max_found) ←
              parse_position_directive rest pia max_found;
            if ok : bool then parse_positions_loop rest pia max_found
            else mret (false, pia, max_found)
        end
      else parse_positions_loop rest pia max_found
  end.

(** The closing loop: every slot from 1 to [max_found] has been given. *)
Fixpoint all_slots_given (n : nat) (array : option N) (i : Z) : E bool :=
  match n with
  | O => mret true
  | S n' =>
      current_item ← load_item array i;
      if decide (pi_type current_item = TYPE_ERROR) then mret false
      else all_slots_given n' array (i + 1)
  end.

(** Returns the result, [*pia] and [*max]. *)
Definition parse_format_string_for_positions (format : string)
  (pia : positional_info_array) (max : Z)
  : E (bool * positional_info_array * Z) :=
  '(ok, pia) ← pia_initialise pia;
  if negb ok then mret (false, pia, max)
  else
    '(ok, pia, max_found) ← parse_positions_loop format pia 0;
    if negb ok then mret (false, pia, max)
    else
      given ← all_slots_given (Z.to_nat max_found) (pia_array pia) 0;
      if given : bool then mret (true, pia, max_found)
      else _ ← free (pia_array pia); mret (false, pia, max).

End Arguments.
Import Arguments.

(** ** printf.c: the engine *)

Module Engine.

(** [if (using_positions) { pop_and_store_cleanup(&pia, position_count);
    free(pia.array); }] *)
Definition tidy_up (using_positions : bool) (pia : positional_info_array)
  (position_count : Z) : M unit :=
  if using_positions then
    liftE (_ ← pop_and_store_cleanup pia position_count; free (pia_array pia))
  else mret ().

(** "Preceding width and positional preceding width": what the engine does
    to the specifier with the fetched [width]. *)
Definition apply_width (width : Z) (fs : format_specifier) : format_specifier :=
  if decide (0 ≤ width) then set_width width fs
  else
    let fs := set_left_justify true fs in
    if decide (width = INT_MIN) then set_width INT_MAX fs
    else set_width (- width) fs.

(** "Preceding precision or positional preceding precision": explicit
    precision values below 0 are ignored. *)
Definition apply_precision (precision : Z) (fs : format_specifier)
  : format_specifier :=
  if decide (0 ≤ precision) then set_precision precision fs else fs.

Definition is_float_type (t : format_string_types) : bool :=
  match t with
  | TYPE_f | TYPE_F | TYPE_e | TYPE_E | TYPE_g | TYPE_G | TYPE_a | TYPE_A =>
      true
  | _ => false
  end.

(** The [switch (fs.type)] of the engine, the floating types apart. *)
Definition emit_directive (fs : format_specifier) (using_positions : bool)
  (pia : positional_info_array) : M bool :=
  match fs_type fs with
  | TYPE_d | TYPE_i =>
      int_value ← liftE (pop_or_load_integer fs using_positions (pia_array pia));
      if decide (0 ≤ int_value) then write_integer_positive int_value fs
      else write_decimal_negative (to_uintmax int_value) fs
  | TYPE_o | TYPE_x | TYPE_X | TYPE_u =>
      uint_value ← liftE (pop_or_load_unsigned_integer fs using_positions
                            (pia_array pia));
      write_integer_positive uint_value fs
  | TYPE_c =>
      uint_value ← liftE (pop_or_load_character fs using_positions
                            (pia_array pia));
      write_character uint_value fs
  | TYPE_s =>
      string_value ← liftE (pop_or_load_string fs using_positions
                              (pia_array pia));
      write_string string_value fs
  | TYPE_p =>
      pointer_value ← liftE (pop_or_load_pointer fs using_positions
                               (pia_array pia));
      write_pointer pointer_value fs
  | TYPE_n =>
      pointer_value ← liftE (pop_or_load_n_pointer fs using_positions
                               (pia_array pia));
      write_characters_written pointer_value fs
  | _ => mret false
  end.

(** The first directive decides whether positions are in use; if so the
    whole format is scanned and the arguments are stored.  [None] stands for
    the [return false] of this block. *)
Definition decide_positions (format_start : string) (fs : format_specifier)
  (using_positions first_element : bool) (pia : positional_info_array)
  (position_count : Z) : M (option (bool * positional_info_array * Z)) :=
  if first_element && bool_decide (fs_position fs ≠ 0) then
    '(ok, pia, position_count) ←
      liftE (parse_format_string_for_positions format_start pia position_count);
    if negb ok then mret None
    else
      stored ← liftE (pop_and_store_argument_list pia position_count);
      if negb stored then
        _ ← liftE (free (pia_array pia)); mret None
      else mret (Some (true, pia, position_count))
  else mret (Some (using_positions, pia, position_count)).

(** The [while] loop of [generic_printf].  Every iteration moves [format]
    on, so [fuel] iterations, one per character of the format, are enough. *)
Fixpoint generic_printf_loop (fuel : nat) (format_start format : string)
  (using_positions first_element : bool) (pia : positional_info_array)
  (position_count : Z) : M bool :=
  if decide (peek format = NUL) then
    _ ← tidy_up using_positions pia position_count; mret true
  else
    match fuel with
    | O => exhausted
    | S fuel' =>
        if is_char "%" format && is_char "%" (skip 1 format) then
          (* Starting an escaped %. *)
          result ← printf_output "%";
          if negb result then mret false
          else generic_printf_loop fuel' format_start (skip 2 format)
                 using_positions first_element pia position_count
        else if is_char "%" format then
          (* Starting a format specifier. *)
          let format := skip 1 format in
          '(error, fs) ← defined (read_format_string format);
          if format_error_is_error error then
            _ ← tidy_up using_positions pia position_count; mret false
          else
            mode ← decide_positions format_start fs using_positions
                     first_element pia position_count;
            match mode with
            | None => mret false
            | Some (using_positions, pia, position_count) =>
                if bool_decide (fs_position fs = 0) && using_positions then
                  (* Using positions but weren't given one. *)
                  _ ← tidy_up using_positions pia position_count; mret false
                else if bool_decide (fs_position fs ≠ 0)
                        && negb using_positions then
                  (* Not using positions but were given one. *)
                  _ ← tidy_up using_positions pia position_count; mret false
                else
                  fs ← (if decide (fs_preceding_width fs ≠ 0) then
                          width ← liftE (pop_or_load_width_precision
                                           using_positions (pia_array pia)
                                           (fs_preceding_width fs));
                          mret (apply_width width fs)
                        else mret fs);
                  fs ← (if decide (fs_preceding_precision fs ≠ 0) then
                          precision ← liftE (pop_or_load_width_precision
                                               using_positions (pia_array pia)
                                               (fs_preceding_precision fs));
                          mret (apply_precision precision fs)
                        else mret fs);
                  let fs := (format_string_check_unused_values fs).2 in
                  if is_float_type (fs_type fs) then
                    (* FIXME Implement. *)
                    mret false
                  else
                    result ← emit_directive fs using_positions pia;
                    if negb result then
                      _ ← tidy_up using_positions pia position_count;
                      mret false
                    else
                      generic_printf_loop fuel' format_start
                        (skip (Z.to_nat (fs_input_length fs)) format)
                        using_positions false pia position_count
            end
        else
          (* Just a normal letter. *)
          result ← printf_output (peek format);
          if negb result then
            _ ← tidy_up using_positions pia position_count; mret false
          else generic_printf_loop fuel' format_start (skip 1 format)
                 using_positions first_element pia position_count
    end.

Definition generic_printf (format : string) : M bool :=
  generic_printf_loop (String.length format) format format false true
    (mk_pia 0 None) 0.

End Engine.
Import Engine.

(** ** printf.c: the entry points

    Every entry point asserts its pointer parameters before it tests them,
    so the test that returns -1 is reached with non-NULL parameters only.
    The variadic functions and their [va_list] twins start from the same
    argument list: [va_start] and [va_copy] both become [start]. *)

Module Entry.

Definition stdout : option N := Some 1%N.

(** [va_start] or [va_copy], then the engine on the initialised [output]. *)
Definition start (output : output_specifier) (format : string)
  (args : list arg) : M bool :=
  _ ← put_output output;
  _ ← liftE (modify (set_valist args));
  generic_printf format.

(** [return output.characters_written;] as an [int]. *)
Definition return_count : M Z :=
  n ← characters_written; mret (to_int n).

Definition new_printf (format : option string) (args : list arg) : M Z :=
  let output := mk_output OUTPUT_stream stdout 0 None 0 SIZE_MAX 0 in
  _ ← c_assert (non_null format);
  match format with
  | None => mret (-1)
  | Some format =>
      result ← start output format args;
      if result : bool then return_count else mret (-1)
  end.

Definition new_vprintf (format : option string) (args : list arg) : M Z :=
  let output := mk_output OUTPUT_stream stdout 0 None 0 SIZE_MAX 0 in
  _ ← c_assert (non_null format);
  match format with
  | None => mret (-1)
  | Some format =>
      result ← start output format args;
      if result : bool then return_count else mret (-1)
  end.

Definition new_fprintf (stream : option N) (format : option string)
  (args : list arg) : M Z :=
  let output := mk_output OUTPUT_stream stream 0 None 0 SIZE_MAX 0 in
  _ ← c_assert (non_null format);
  match format with
  | None => mret (-1)
  | Some format =>
      result ← start output format args;
      if result : bool then return_count else mret (-1)
  end.

Definition new_vfprintf (stream : option N) (format : option string)
  (args : list arg) : M Z :=
  let output := mk_output OUTPUT_stream stream 0 None 0 SIZE_MAX 0 in
  _ ← c_assert (non_null format);
  match format with
  | None => mret (-1)
  | Some format =>
      result ← start output format args;
      if result : bool then return_count else mret (-1)
  end.

(** [*(output.string) = 0;] *)
Definition terminate_string : M unit :=
  o ← get_output; store_buffer (out_string o) NUL.

Definition new_sprintf (str : option (N * Z)) (format : option string)
  (args : list arg) : M Z :=
  let output := mk_output OUTPUT_string None 0 str 0 SIZE_MAX 0 in
  _ ← c_assert (non_null format);
  _ ← c_assert (non_null str);
  match format, str with
  | Some format, Some _ =>
      result ← start output format args;
      if result : bool then _ ← terminate_string; return_count
      else mret (-1)
  | _, _ => mret (-1)
  end.

Definition new_snprintf (str : option (N * Z)) (size : Z)
  (format : option string) (args : list arg) : M Z :=
  let output := mk_output OUTPUT_string None 0 str 0 size 0 in
  _ ← c_assert (non_null format);
  match format with
  | None => mret (-1)
  | Some format =>
      _ ← (if decide (size ≠ 0) then c_assert (non_null str) else mret ());
      if bool_decide (size ≠ 0) && bool_decide (str = None) then mret (-1)
      else
        result ← start output format args;
        if result : bool then
          _ ← (if decide (size ≠ 0) then terminate_string else mret ());
          return_count
        else mret (-1)
  end.

Definition new_vsprintf (str : option (N * Z)) (format : option string)
  (args : list arg) : M Z :=
  let output := mk_output OUTPUT_string None 0 str 0 SIZE_MAX 0 in
  _ ← c_assert (non_null format);
  _ ← c_assert (non_null str);
  match format, str with
  | Some format, Some _ =>
      result ← start output format args;
      if result : bool then _ ← terminate_string; return_count
      else mret (-1)
  | _, _ => mret (-1)
  end.

Definition new_vsnprintf (str : option (N * Z)) (size : Z)
  (format : option string) (args : list arg) : M Z :=
  let output := mk_output OUTPUT_string None 0 str 0 size 0 in
  _ ← c_assert (non_null format);
  match format with
  | None => mret (-1)
  | Some format =>
      _ ← (if decide (size ≠ 0) then c_assert (non_null str) else mret ());
      if bool_decide (size ≠ 0) && bool_decide (str = None) then mret (-1)
      else
        result ← start output format args;
        if result : bool then
          _ ← (if decide (size ≠ 0) then terminate_string else mret ());
          return_count
        else mret (-1)
  end.

(** What a call has done to [*strp]: left it as it was, or assigned a
    pointer, which may be NULL. *)
Inductive strp_value :=
| Unassigned
| Assigned (p : option (N * Z)).

(** The code of [new_asprintf] and [new_vasprintf] after the engine has
    returned [result].  The second component of the value is what has been
    done to [*strp]. *)
Definition asprintf_finish (result : bool) : M (Z * strp_value) :=
  if result then
    o ← get_output;
    (* We need to NUL-terminate the string. *)
    grown ←
      (if decide (out_allocated_size o ≤ out_characters_written o) then
         (* We need to allocate more space. *)
         string ← liftE (realloc_chars (out_string o)
                           (to_size_t (out_allocated_size o + 1)));
         match string with
         | None => _ ← liftE (free_chars (out_string o)); mret false
         | Some _ =>
             _ ← put_output
                   (set_allocated_size (to_size_t (out_allocated_size o * 2))
                      (set_string string o));
             mret true
         end
       else mret true);
    if grown : bool then
      o ← get_output;
      _ ← liftE (store_char (out_string o) (out_characters_written o) NUL);
      mret (to_int (out_characters_written o), Assigned (out_string o))
    else mret (-1, Assigned None)
  else mret (-1, Assigned None).

(** [strp] is the out-parameter as the function tests it: [true] when the
    caller has passed a non-NULL [char **]. *)
Definition new_asprintf (strp : bool) (format : option string)
  (args : list arg) : M (Z * strp_value) :=
  string ← liftE (malloc_chars BASE_ALLOCATED_STRING_SIZE);
  let output :=
    mk_output OUTPUT_allocated_string None 0 string
      BASE_ALLOCATED_STRING_SIZE SIZE_MAX 0 in
  _ ← put_output output;
  _ ← c_assert (non_null format);
  _ ← c_assert strp;
  match format, strp with
  | Some format, true =>
      match string with
      | None => mret (-1, Assigned None)
      | Some _ =>
          result ← start output format args;
          asprintf_finish result
      end
  | _, _ => _ ← liftE (free_chars string); mret (-1, Unassigned)
  end.

Definition new_vasprintf (strp : bool) (format : option string)
  (args : list arg) : M (Z * strp_value) :=
  string ← liftE (malloc_chars BASE_ALLOCATED_STRING_SIZE);
  let output :=
    mk_output OUTPUT_allocated_string None 0 string
      BASE_ALLOCATED_STRING_SIZE SIZE_MAX 0 in
  _ ← put_output output;
  _ ← c_assert (non_null format);
  _ ← c_assert strp;
  match format, strp with
  | Some format, true =>
      match string with
      | None => mret (-1, Assigned None)
      | Some _ =>
          result ← start output format args;
          asprintf_finish result
      end
  | _, _ => _ ← liftE (free_chars string); mret (-1, Unassigned)
  end.

Definition new_dprintf (fd : Z) (format : option string) (args : list arg)
  : M Z :=
  let output := mk_output OUTPUT_stream None fd None 0 SIZE_MAX 0 in
  _ ← c_assert (non_null format);
  match format with
  | None => mret (-1)
  | Some format =>
      result ← start output format args;
      if result : bool then return_count else mret (-1)
  end.

Definition new_vdprintf (fd : Z) (format : option string) (args : list arg)
  : M Z :=
  let output := mk_output OUTPUT_file_descriptor None fd None 0 SIZE_MAX 0 in
  _ ← c_assert (non_null format);
  match format with
  | None => mret (-1)
  | Some format =>
      result ← start output format args;
      if result : bool then return_count else mret (-1)
  end.

End Entry.
Import Entry.

(** ** A machine to run the entry points on *)

Module Scenario.

Definition no_memory : memory := mk_memory [] ∅ 1%N [].

(** A machine with an empty 16-byte array at address 7, an open standard
    output, a descriptor 3, and an [int] object at address 9 in the heap. *)
Definition machine : state :=
  mk_state (mk_output OUTPUT_stream None 0 None 0 0 0)
    {[1%N := mk_device [] None]}
    {[3 := mk_device [] None]}
    {[7%N := replicate 16 NUL]}
    (mk_memory [] {[9%N := BObject 4 None]} 10%N []).

(** The C string held in a character array. *)
Fixpoint c_string (data : list ascii) : string :=
  match data with
  | [] => EmptyString
  | c :: rest => if decide (c = NUL) then EmptyString else String c (c_string rest)
  end.

(** The array at address 7 as a C string, and the return value. *)
Definition printed (r : outcome state Z) : option (string * Z) :=
  match r with
  | Ok n s => data ← st_buffers s !! 7%N; Some (c_string data, n)
  | _ => None
  end.

Definition sprintf (format : string) (args : list arg) : option (string * Z) :=
  printed (new_sprintf (Some (7%N, 0)) (Some format) args machine).

End Scenario.


(** * Vocabulary of the properties *)

(** Submit the characters one by one, stopping at the first failed write;
    every emitter of printf_basic_output.c has this shape. *)
Fixpoint emit (cs : list ascii) : M bool :=
  match cs with
  | [] => mret true
  | c :: cs' => printf_output c >>> emit cs'
  end.

(** The character of digit [d] in a conversion table. *)
Definition digit_char (char_values : string) (d : Z) : ascii :=
  default NUL (String.get (Z.to_nat d) char_values).

(** The number denoted by digits given least significant first. *)
Fixpoint lsb_value (base : Z) (ds : list Z) : Z :=
  match ds with
  | [] => 0
  | d :: rest => d + base * lsb_value base rest
  end.

(** The three layouts of [write_backwards_buffer_with_padding]: the sign or
    prefix, the number, and [padding] fill characters. *)
Definition field (fs : format_specifier) (prefix number : list ascii)
  (padding : Z) : list ascii :=
  if fs_zero_padded fs then
    prefix ++ replicate (Z.to_nat padding) "0"%char ++ number
  else if fs_left_justify fs then
    prefix ++ number ++ replicate (Z.to_nat padding) " "%char
  else replicate (Z.to_nat padding) " "%char ++ prefix ++ number.

(** The scratch buffer, most significant digit first, zero-extended on the
    left up to the precision. *)
Definition digit_run (fs : format_specifier) (buffer : list ascii)
  : list ascii :=
  replicate (Z.to_nat (fs_precision fs - Z.of_nat (length buffer))) "0"%char
  ++ rev buffer.

(** A field of at least [fs_width] characters. *)
Definition padded_field (fs : format_specifier) (prefix number : list ascii)
  : list ascii :=
  field fs prefix number
    (fs_width fs - Z.of_nat (length prefix) - Z.of_nat (length number)).

Definition prefix_chars (p : ascii) : list ascii :=
  if decide (p ≠ NUL) then [p] else [].

(** [buffer] holds the digits of [value] in [base], least significant first:
    at least one digit, and no leading zero. *)
Definition numeral (char_values : string) (base value : Z)
  (buffer : list ascii) : Prop :=
  ∃ ds : list Z,
    buffer = digit_char char_values <$> ds
    ∧ lsb_value base ds = value
    ∧ Forall (λ d, 0 ≤ d < base) ds
    ∧ (1 ≤ length ds ≤ 64)%nat
    ∧ (value = 0 → ds = [0])
    ∧ (0 < value → base ^ (Z.of_nat (length ds) - 1) ≤ value).

Definition conversion_table (fs : format_specifier) : string :=
  if decide (fs_type fs = TYPE_X) then base_conversion_capital
  else base_conversion_small.

Definition base_of (t : format_string_types) : Z :=
  match t with
  | TYPE_o => 8
  | TYPE_x | TYPE_X => 16
  | _ => 10
  end.

Definition is_integer_type (t : format_string_types) : bool :=
  match t with
  | TYPE_d | TYPE_i | TYPE_u | TYPE_o | TYPE_x | TYPE_X => true
  | _ => false
  end.

(** The sign or prefix the emitters put before the digits of a value that
    is not negative. *)
Definition integer_prefix (fs : format_specifier) (buffer : list ascii)
  : list ascii :=
  match fs_type fs with
  | TYPE_o =>
      if fs_alternate_form fs
         && negb (bool_decide (Z.of_nat (length buffer) < fs_precision fs))
      then ["0"%char] else []
  | TYPE_x => if fs_alternate_form fs then ["0"; "x"]%char else []
  | TYPE_X => if fs_alternate_form fs then ["0"; "X"]%char else []
  | _ =>
      if fs_always_sign fs then ["+"%char]
      else if fs_empty_sign fs then [" "%char] else []
  end.


(** The characters of a C string. *)
Definition chars_of (str : string) : list ascii :=
  String.list_ascii_of_string str.

(** The two layouts of [write_string]: the text, and spaces up to the
    width. *)
Definition string_field (fs : format_specifier) (text : list ascii)
  : list ascii :=
  let fill :=
    replicate (Z.to_nat (fs_width fs - Z.of_nat (length text))) " "%char in
  if fs_left_justify fs then text ++ fill else fill ++ text.

(** What the engine emits for a specifier whose width and precision are
    resolved: the normaliser, then the emitter of the type. *)
Definition render_directive (fs : format_specifier) (using_positions : bool)
  (pia : positional_info_array) : M bool :=
  emit_directive (format_string_check_unused_values fs).2 using_positions pia.

(** The code [m] run on two states, a reference state [s2] and a state [s1]
    related to it by [R]: when the reference run returns, the other run
    returns the same value in a related state, unless the reference state
    has left the range of interest, [B]; and once it has left it, it stays
    out. *)
Definition follows (R : state → state → Prop) (B : state → Prop) {A}
  (m : M A) : Prop :=
  ∀ s1 s2,
    (R s1 s2 → ∀ a s2', m s2 = Ok a s2' →
     B s2' ∨ ∃ s1', m s1 = Ok a s1' ∧ R s1' s2')
    ∧ (B s2 → ∀ a s2', m s2 = Ok a s2' → B s2').

(** [str + k] *)
Definition shift (str : option (N * Z)) (k : Z) : option (N * Z) :=
  '(b, off) ← str; Some (b, off + k).

(** The caller's arrays after the characters [stored] have been written
    at [str]. *)
Definition stored_at (str : option (N * Z)) (stored : list ascii)
  (buffers : gmap N (list ascii)) : gmap N (list ascii) :=
  match str with
  | Some (b, off) =>
      match buffers !! b with
      | Some data =>
          <[b := take (Z.to_nat off) data ++ stored
                 ++ drop (Z.to_nat off + length stored) data]> buffers
      | None => buffers
      end
  | None => buffers
  end.

(** [str] points to at least [size] bytes of one of the caller's arrays. *)
Definition array_at (str : option (N * Z)) (size : Z)
  (buffers : gmap N (list ascii)) : Prop :=
  ∃ b off data,
    str = Some (b, off) ∧ buffers !! b = Some data
    ∧ 0 ≤ off ∧ off + size ≤ Z.of_nat (length data).

(** The fixed-buffer sink of size [size] at [str] next to the sink of a
    stream [h] that takes every character: both have been sent the
    characters [full]; the stream holds them all, the array the first
    [size - 1] of them. *)
Definition snprintf_related (str : option (N * Z)) (size : Z)
  (buffers : gmap N (list ascii)) (h : N) (s1 s2 : state) : Prop :=
  ∃ full : list ascii,
    let stored := take (Z.to_nat (size - 1)) full in
    Z.of_nat (length full) ≤ SIZE_MAX
    ∧ st_mem s1 = st_mem s2
    ∧ st_output s1
      = mk_output OUTPUT_string None 0 (shift str (Z.of_nat (length stored))) 0
          size (Z.of_nat (length full))
    ∧ st_buffers s1 = stored_at str stored buffers
    ∧ st_output s2
      = mk_output OUTPUT_stream (Some h) 0 None 0 SIZE_MAX
          (Z.of_nat (length full))
    ∧ st_streams s2 !! h = Some (mk_device full None).

(** The stream [h] has been sent more characters than a [size_t] counts. *)
Definition overlong (h : N) (s : state) : Prop :=
  ∃ d, st_streams s !! h = Some d ∧ SIZE_MAX < Z.of_nat (length (dev_data d)).

(** The machine with one more stream, [h], which is empty and accepts any
    number of characters: what the engine sends there is the whole output the
    template and the arguments produce. *)
Definition with_fresh_stream (h : N) (s : state) : state :=
  set_streams (<[h := mk_device [] None]> (st_streams s)) s.

(** [m] never runs out of the iterations its loops were given and never
    stops at an assertion, and every value it returns satisfies [P]. *)
Definition safe {S A} (P : A → Prop) (m : comp S A) : Prop :=
  ∀ s, match m s with
       | Ok a _ => P a
       | Undefined => True
       | Exhausted => False
       | Aborted => False
       end.

(** The sizes a [positional_info_array] can have once it is initialised. *)
Definition pia_sized (pia : positional_info_array) : Prop :=
  0 < pia_size pia ≤ INT_MAX.

(** The descriptor sink on [fd], which held [pre] before the call, next to
    the stream sink on [h]: both have received the characters [full]. *)
Definition dprintf_related (fd : Z) (pre : list ascii) (h : N)
  (s1 s2 : state) : Prop :=
  ∃ full : list ascii,
    Z.of_nat (length full) ≤ SIZE_MAX
    ∧ st_mem s1 = st_mem s2
    ∧ st_output s1
      = mk_output OUTPUT_file_descriptor None fd None 0 SIZE_MAX
          (Z.of_nat (length full))
    ∧ st_fds s1 !! fd = Some (mk_device (pre ++ full) None)
    ∧ st_output s2
      = mk_output OUTPUT_stream (Some h) 0 None 0 SIZE_MAX
          (Z.of_nat (length full))
    ∧ st_streams s2 !! h = Some (mk_device full None).

(** A stage of the parser that started at [format] with the specifier [fs]
    and returned [fs'] and [e]: it has moved on by [fs_input_length], within
    the characters of [format], and by one character at least when it
    reports no error. *)
Definition consumes (format : string) (fs fs' : format_specifier)
  (e : format_error) : Prop :=
  fs_input_length fs ≤ fs_input_length fs'
  ≤ fs_input_length fs + Z.of_nat (String.length format)
  ∧ (format_error_is_error e = false →
     fs_input_length fs < fs_input_length fs').

(** The blocks of [format_string_check_unused_values] as a table: the
    condition, the warning and the assignment of each. *)
Definition unused_values_table
  : list ((format_specifier → bool) * format_error
          * (format_specifier → format_specifier)) :=
  let W := FORMAT_WARNING_flag_does_nothing in
  let P := FORMAT_WARNING_does_not_print in
  [ (λ fs, fs_always_sign fs && fs_empty_sign fs, W, set_empty_sign false);
    (λ fs, has_type [TYPE_d; TYPE_i; TYPE_u] fs && fs_alternate_form fs, W,
     set_alternate_form false);
    (λ fs, has_type [TYPE_x; TYPE_X] fs && fs_always_sign fs, W,
     set_always_sign false);
    (λ fs, has_type [TYPE_x; TYPE_X] fs && fs_empty_sign fs, W,
     set_empty_sign false);
    (λ fs, has_type [TYPE_c; TYPE_s; TYPE_p] fs && fs_always_sign fs, W,
     set_always_sign false);
    (λ fs, has_type [TYPE_c; TYPE_s; TYPE_p] fs && fs_empty_sign fs, W,
     set_empty_sign false);
    (λ fs, has_type [TYPE_c; TYPE_s; TYPE_p] fs && fs_alternate_form fs, W,
     set_alternate_form false);
    (λ fs, has_type [TYPE_c; TYPE_s; TYPE_p] fs && fs_zero_padded fs, W,
     set_zero_padded false);
    (λ fs, has_type [TYPE_n] fs && fs_always_sign fs, P,
     set_always_sign false);
    (λ fs, has_type [TYPE_n] fs && fs_empty_sign fs, P, set_empty_sign false);
    (λ fs, has_type [TYPE_n] fs && fs_alternate_form fs, P,
     set_alternate_form false);
    (λ fs, has_type [TYPE_n] fs && fs_zero_padded fs, P,
     set_zero_padded false);
    (λ fs, has_type [TYPE_n] fs && fs_left_justify fs, P,
     set_left_justify false);
    (λ fs, has_type [TYPE_n] fs && bool_decide (fs_width fs ≠ 0), P,
     set_width 0);
    (λ fs, has_type [TYPE_n] fs && bool_decide (fs_precision fs ≠ -1), P,
     set_precision (-1));
    (λ fs, has_type [TYPE_c; TYPE_p] fs && bool_decide (fs_precision fs ≠ -1),
     FORMAT_WARNING_precision_does_nothing, set_precision (-1));
    (λ fs, fs_zero_padded fs && fs_left_justify fs, W, set_zero_padded false);
    (λ fs, bool_decide (fs_precision fs ≠ -1) && fs_zero_padded fs, W,
     set_zero_padded false) ].

(** The block of a row of the table, and the run of a list of rows. *)
Definition row_block
  (t : (format_specifier → bool) * format_error
       * (format_specifier → format_specifier)) :=
  cancel t.1.1 t.1.2 t.2.

Definition run_rows
  (T : list ((format_specifier → bool) * format_error
             * (format_specifier → format_specifier)))
  (st : format_error * format_specifier) : format_error * format_specifier :=
  foldl (λ st block, block st) st (row_block <$> T).

(** The unbounded-string sink at [str] next to the sink of a stream [h]:
    both have been sent the characters [full], no more than [room] of them,
    and the array holds them all. *)
Definition sprintf_related (str : option (N * Z)) (room : Z)
  (buffers : gmap N (list ascii)) (h : N) (s1 s2 : state) : Prop :=
  ∃ full : list ascii,
    Z.of_nat (length full) ≤ room
    ∧ st_mem s1 = st_mem s2
    ∧ st_output s1
      = mk_output OUTPUT_string None 0 (shift str (Z.of_nat (length full))) 0
          SIZE_MAX (Z.of_nat (length full))
    ∧ st_buffers s1 = stored_at str full buffers
    ∧ st_output s2
      = mk_output OUTPUT_stream (Some h) 0 None 0 SIZE_MAX
          (Z.of_nat (length full))
    ∧ st_streams s2 !! h = Some (mk_device full None).

(** The stream [h] has been sent more than [room] characters. *)
Definition exceeds (h : N) (room : Z) (s : state) : Prop :=
  ∃ d, st_streams s !! h = Some d ∧ room < Z.of_nat (length (dev_data d)).

(** The text of a template that holds no directive: the characters before
    the terminator, with "%%" read as one "%".  A "%" that starts a
    directive gives [None]. *)
Fixpoint literal (format : string) : option (list ascii) :=
  match format with
  | EmptyString => Some []
  | String c rest =>
      if decide (c = NUL) then Some []
      else if decide (c = "%"%char) then
        match rest with
        | String c' rest' =>
            if decide (c' = "%"%char) then cons "%"%char <$> literal rest'
            else None
        | EmptyString => None
        end
      else cons c <$> literal rest
  end.

(** The stream sink of [h] after it has been sent the characters [cs]
    behind [pre], in one and the same state on both sides. *)
Definition stream_appended (h : N) (pre : list ascii) (s1 s2 : state)
  : Prop :=
  s1 = s2
  ∧ ∃ (cs : list ascii) (room : option nat),
      Z.of_nat (length cs) ≤ SIZE_MAX
      ∧ st_output s2
        = mk_output OUTPUT_stream (Some h) 0 None 0 SIZE_MAX
            (Z.of_nat (length cs))
      ∧ st_streams s2 !! h = Some (mk_device (pre ++ cs) room).

(** The object the conversion n writes for the length modifier [l] when the
    counter is [n]: its size in bytes and its value, the counter converted to
    [int], [signed char], [short], [long], [long long], [intmax_t], [size_t]
    or [ptrdiff_t].  The length L selects no type. *)
Definition n_object (l : format_string_lengths) (n : Z) : option (Z * Z) :=
  match l with
  | LENGTH_none => Some (4, wrap_signed 32 n)
  | LENGTH_hh => Some (1, wrap_signed 8 n)
  | LENGTH_h => Some (2, wrap_signed 16 n)
  | LENGTH_l | LENGTH_ll | LENGTH_j | LENGTH_t => Some (8, wrap_signed 64 n)
  | LENGTH_z => Some (8, wrap_unsigned 64 n)
  | LENGTH_L => None
  end.

(** * Properties *)

(** ** The parser and the scenarios of the specification, evaluated *)

Example read_format_string_5d :
  read_format_string "5d" =
  Some (FORMAT_okay,
        mk_fs 2 false false false false false 0 5 0 (-1) LENGTH_none TYPE_d 0).
Proof. reflexivity. Qed.

Example read_format_string_positional :
  read_format_string "1$-*2$.*3$lld" =
  Some (FORMAT_okay,
        mk_fs 13 true false false false false 2 0 3 (-1) LENGTH_ll TYPE_d 1).
Proof. reflexivity. Qed.

Example scenario_1 : Scenario.sprintf "%5d" [AInt 42] = Some ("   42", 5).
Proof. vm_compute. reflexivity. Qed.
Example scenario_2 : Scenario.sprintf "%-5d|" [AInt 42] = Some ("42   |", 6).
Proof. vm_compute. reflexivity. Qed.
Example scenario_3 : Scenario.sprintf "%05.3d" [AInt 7] = Some ("  007", 5).
Proof. vm_compute. reflexivity. Qed.
Example scenario_4 : Scenario.sprintf "%#x" [AInt 255] = Some ("0xff", 4).
Proof. vm_compute. reflexivity. Qed.
Example scenario_5 :
  Scenario.sprintf "%2$s %1$d" [AInt 7; AString (Some "hi")] = Some ("hi 7", 4).
Proof. vm_compute. reflexivity. Qed.
Example scenario_6 :
  Scenario.sprintf "%.*d:%n" [AInt 4; AInt 7; ATarget (Some 9%N)]
  = Some ("0007:", 5).
Proof. vm_compute. reflexivity. Qed.
Example scenario_7 :
  Scenario.printed
    (new_snprintf (Some (7%N, 0)) 4 (Some "hello") [] Scenario.machine)
  = Some ("hel", 5).
Proof. vm_compute. reflexivity. Qed.


(** ** Integer conversions *)

Lemma to_int_id z : INT_MIN ≤ z ≤ INT_MAX → to_int z = z.
Proof.
  unfold to_int, wrap_signed, INT_MIN, INT_MAX. intros H.
  change (2 ^ (32 - 1)) with 2147483648. change (2 ^ 32) with 4294967296.
  rewrite Z.mod_small by lia. lia.
Qed.

Lemma to_uint_id z : 0 ≤ z ≤ UINT_MAX → to_uint z = z.
Proof.
  unfold to_uint, wrap_unsigned, UINT_MAX. intros H.
  change (2 ^ 32) with 4294967296. rewrite Z.mod_small by lia. lia.
Qed.

Lemma to_size_t_id z : 0 ≤ z ≤ SIZE_MAX → to_size_t z = z.
Proof.
  unfold to_size_t, wrap_unsigned, SIZE_MAX. intros H.
  change (2 ^ 64) with 18446744073709551616. rewrite Z.mod_small by lia. lia.
Qed.

Lemma to_uintmax_id z : 0 ≤ z ≤ UINTMAX_MAX → to_uintmax z = z.
Proof. apply to_size_t_id. Qed.

Lemma to_intmax_to_uintmax z :
  - 2 ^ 63 ≤ z < 2 ^ 63 → to_intmax (to_uintmax z) = z.
Proof.
  unfold to_intmax, to_uintmax, wrap_signed, wrap_unsigned. intros H.
  change (2 ^ (64 - 1)) with (2 ^ 63) in *.
  rewrite Zplus_mod_idemp_l.
  change (2 ^ 64) with (2 * 2 ^ 63). rewrite Z.mod_small; lia.
Qed.

(** ** The monad *)

Lemma bind_run {S A B} (m : comp S A) (f : A → comp S B) (s : S) :
  (m ≫= f) s =
  match m s with
  | Ok a s' => f a s'
  | Undefined => Undefined
  | Exhausted => Exhausted
  | Aborted => Aborted
  end.
Proof. reflexivity. Qed.

Lemma and_then_run {S} (a b : comp S bool) (s : S) :
  (a >>> b) s =
  match a s with
  | Ok true s' => b s'
  | Ok false s' => Ok false s'
  | Undefined => Undefined
  | Exhausted => Exhausted
  | Aborted => Aborted
  end.
Proof.
  unfold and_then. rewrite bind_run. destruct (a s) as [[] ?| | |]; reflexivity.
Qed.

(** One step of a computation at a state. *)
Ltac run :=
  repeat first
    [ rewrite bind_run
    | progress cbn [get mret comp_ret defined modify undefined exhausted] ].

(** Running a computation on a state whose fields are known. *)
Ltac exec :=
  repeat first
    [ progress run
    | progress cbn [st_output st_streams st_fds st_buffers st_mem set_output
                    set_streams set_fds set_buffers set_mem out_type
                    out_stream out_fd out_string out_allocated_size
                    out_character_limit out_characters_written set_string
                    set_allocated_size set_characters_written dev_data
                    dev_room fmap option_fmap option_map] ].

(** Running a computation on a memory whose fields are known. *)
Ltac exec_mem :=
  repeat first
    [ progress exec
    | progress cbn [liftE m_heap m_fresh m_oracle m_valist set_heap
                    set_valist resize_chars] ].

(** *** Inversion of a run that has returned *)

Lemma bind_ok {S A B} (m : comp S A) (f : A → comp S B) (s s' : S) (b : B) :
  (m ≫= f) s = Ok b s' → ∃ a s1, m s = Ok a s1 ∧ f a s1 = Ok b s'.
Proof. rewrite bind_run. destruct (m s) as [a s1| | |]; [eauto|done..]. Qed.

Lemma ret_ok {S A} (a b : A) (s s' : S) :
  (mret a : comp S A) s = Ok b s' → a = b ∧ s = s'.
Proof. intros [= -> ->]. done. Qed.

Lemma get_ok {S} (a s s' : S) : get s = Ok a s' → a = s ∧ s' = s.
Proof. intros [= -> ->]. done. Qed.

Lemma modify_ok {S} (f : S → S) (u : unit) (s s' : S) :
  modify f s = Ok u s' → s' = f s.
Proof. intros [= <-]. done. Qed.

Lemma liftE_ok {A} (e : E A) (a : A) (s s' : state) :
  liftE e s = Ok a s' → ∃ m, e (st_mem s) = Ok a m ∧ s' = set_mem m s.
Proof.
  unfold liftE. destruct (e (st_mem s)) as [a' m| | |]; [|done..].
  intros [= -> <-]. eauto.
Qed.

Ltac run_inv :=
  repeat match goal with
    | H : (_ ≫= _) _ = Ok _ _ |- _ =>
        apply bind_ok in H; destruct H as (? & ? & ? & H)
    | H : mret _ _ = Ok _ _ |- _ => apply ret_ok in H; destruct H as [? ?]
    | H : get _ = Ok _ _ |- _ => apply get_ok in H; destruct H as [? ?]
    | H : modify _ _ = Ok _ _ |- _ => apply modify_ok in H
    | H : undefined _ = Ok _ _ |- _ => discriminate H
    | H : defined ?o _ = Ok _ _ |- _ =>
        destruct o eqn:?; [|discriminate H]; cbn [defined] in H
    | H : liftE _ _ = Ok _ _ |- _ =>
        apply liftE_ok in H; destruct H as (? & ? & ?)
    | H : (if ?c then _ else _) _ = Ok _ _ |- _ => destruct c eqn:?
    | H : (match ?x with _ => _ end) _ = Ok _ _ |- _ => destruct x eqn:?
    end.

Lemma and_then_ext {S} (a a' b b' : comp S bool) :
  (∀ s, a s = a' s) → (∀ s, b s = b' s) → ∀ s, (a >>> b) s = (a' >>> b') s.
Proof.
  intros Ha Hb s. rewrite !and_then_run, Ha.
  destruct (a' s) as [[] ?| | |]; auto.
Qed.

Lemma and_then_assoc {S} (a b c : comp S bool) (s : S) :
  ((a >>> b) >>> c) s = (a >>> (b >>> c)) s.
Proof.
  rewrite !and_then_run. destruct (a s) as [[] ?| | |]; try reflexivity.
  rewrite and_then_run. reflexivity.
Qed.

(** ** Emission: what an emitter submits to the sink *)

Lemma emit_app (a b : list ascii) (s : state) :
  emit (a ++ b) s = (emit a >>> emit b) s.
Proof.
  revert s. induction a as [|c a IH]; intros s; simpl.
  - rewrite and_then_run. reflexivity.
  - rewrite and_then_assoc. apply and_then_ext; auto.
Qed.

Lemma emit_nil_l (m : M bool) (s : state) : (emit [] >>> m) s = m s.
Proof. rewrite and_then_run. reflexivity. Qed.

Lemma and_then_emit (a b : M bool) (ca cb : list ascii) :
  (∀ s, a s = emit ca s) → (∀ s, b s = emit cb s) →
  ∀ s, (a >>> b) s = emit (ca ++ cb) s.
Proof.
  intros Ha Hb s. rewrite emit_app. apply and_then_ext; auto.
Qed.

Lemma pad_output_emit (n : Z) (c : ascii) (s : state) :
  pad_output n c s = emit (replicate (Z.to_nat n) c) s.
Proof.
  unfold pad_output. revert s.
  induction (Z.to_nat n) as [|k IH]; intros s; simpl; [reflexivity|].
  apply and_then_ext; auto.
Qed.

Lemma write_prefix_emit (p : ascii) (s : state) :
  write_prefix p s = emit (if decide (p ≠ NUL) then [p] else []) s.
Proof.
  unfold write_prefix. destruct (decide _); simpl; [|reflexivity].
  rewrite and_then_run. destruct (printf_output p s) as [[] ?| | |]; reflexivity.
Qed.

Lemma write_backwards_buffer_loop_emit (buffer : list ascii) (n : nat) (i : Z)
  (s : state) :
  0 ≤ i → i + Z.of_nat n = Z.of_nat (length buffer) →
  write_backwards_buffer_loop n buffer (Z.of_nat (length buffer)) i s
  = emit (rev (take n buffer)) s.
Proof.
  revert i s. induction n as [|n IH]; intros i s Hi Hn; simpl.
  - reflexivity.
  - assert (Hlt : (n < length buffer)%nat) by lia.
    destruct (lookup_lt_is_Some_2 buffer n Hlt) as [c Hc].
    rewrite (take_S_r _ _ _ Hc), rev_app_distr. simpl.
    replace (Z.to_nat (Z.of_nat (length buffer) - 1 - i)) with n by lia.
    rewrite Hc. apply and_then_ext; [reflexivity|].
    intros s'. apply IH; lia.
Qed.

Lemma write_backwards_buffer_emit (buffer : list ascii) (s : state) :
  write_backwards_buffer buffer (Z.of_nat (length buffer)) s
  = emit (rev buffer) s.
Proof.
  unfold write_backwards_buffer. rewrite Nat2Z.id.
  rewrite write_backwards_buffer_loop_emit by lia.
  rewrite firstn_all. reflexivity.
Qed.

(** ** The scratch digit buffer *)

Lemma string_get_is_Some (s : string) (n : nat) :
  (n < String.length s)%nat → is_Some (String.get n s).
Proof.
  revert n. induction s as [|c s IH]; intros n Hn; simpl in *; [lia|].
  destruct n; simpl; [eauto|]. apply IH. lia.
Qed.

(** [write_integer_backwards] on a buffer with enough room: the digits are
    those of [value], there is at least one, and no leading zero. *)
Lemma write_integer_backwards_loop_spec (char_values : string) (base : Z)
  (room : nat) (value : Z) :
  2 ≤ base ≤ Z.of_nat (String.length char_values) →
  (1 ≤ room)%nat → 0 ≤ value < base ^ Z.of_nat room →
  ∃ ds : list Z,
    write_integer_backwards_loop room char_values value base
      = Some (digit_char char_values <$> ds)
    ∧ lsb_value base ds = value
    ∧ Forall (λ d, 0 ≤ d < base) ds
    ∧ (1 ≤ length ds ≤ room)%nat
    ∧ (value = 0 → ds = [0])
    ∧ (0 < value → base ^ (Z.of_nat (length ds) - 1) ≤ value).
Proof.
  intros Hb. revert value.
  induction room as [|room IH]; intros value Hroom Hv; [lia|].
  assert (Hm : 0 ≤ value `mod` base < base) by (apply Z.mod_pos_bound; lia).
  destruct (string_get_is_Some char_values (Z.to_nat (value `mod` base)))
    as [c Hc]; [lia|].
  assert (Hdc : digit_char char_values (value `mod` base) = c).
  { unfold digit_char. rewrite Hc. reflexivity. }
  simpl. rewrite Hc. simpl.
  destruct (decide (value `div` base ≠ 0)) as [Hq|Hq].
  - assert (Hq' : 0 < value `div` base).
    { assert (0 ≤ value `div` base) by (apply Z.div_pos; lia). lia. }
    assert (Hup : value `div` base < base ^ Z.of_nat room).
    { apply Z.div_lt_upper_bound; [lia|].
      rewrite Nat2Z.inj_succ, Z.pow_succ_r in Hv; lia. }
    destruct (IH (value `div` base)) as (ds & Hds & Hval & Hall & Hlen & _ & Hlow).
    { destruct room; [simpl in Hup|]; lia. }
    { lia. }
    exists (value `mod` base :: ds). rewrite Hds. simpl. rewrite Hdc.
    split; [reflexivity|]. split.
    { rewrite Hval. rewrite (Z.div_mod value base) at 3 by lia. lia. }
    split; [constructor; auto|]. split; [lia|]. split.
    { intros ->. rewrite Z.div_0_l in Hq; lia. }
    intros _. specialize (Hlow Hq').
    replace (Z.of_nat (S (length ds)) - 1) with (Z.succ (Z.of_nat (length ds) - 1))
      by lia.
    rewrite Z.pow_succ_r by lia.
    pose proof (Z.mul_div_le value base). nia.
  - assert (Hq' : value `div` base = 0) by lia.
    exists [value `mod` base]. simpl. rewrite Hdc.
    split; [reflexivity|]. split.
    { rewrite (Z.div_mod value base) at 2 by lia. lia. }
    split; [constructor; auto|]. split; [lia|]. split.
    { intros ->. rewrite Z.mod_0_l; [reflexivity|lia]. }
    intros Hpos. simpl. lia.
Qed.

Lemma conversion_table_length (fs : format_specifier) :
  String.length (if decide (fs_type fs = TYPE_X) then base_conversion_capital
                 else base_conversion_small) = 16%nat.
Proof. destruct (decide _); reflexivity. Qed.

(** The 128 bytes of scratch are enough for any [uintmax_t] in a base of 8
    and more. *)
Lemma write_integer_backwards_spec (value : Z) (fs : format_specifier)
  (base : Z) :
  8 ≤ base ≤ 16 → 0 ≤ value ≤ UINTMAX_MAX →
  ∃ ds : list Z,
    write_integer_backwards value fs base
      = Some (digit_char (if decide (fs_type fs = TYPE_X)
                          then base_conversion_capital
                          else base_conversion_small) <$> ds)
    ∧ lsb_value base ds = value
    ∧ Forall (λ d, 0 ≤ d < base) ds
    ∧ (1 ≤ length ds ≤ 64)%nat
    ∧ (value = 0 → ds = [0])
    ∧ (0 < value → base ^ (Z.of_nat (length ds) - 1) ≤ value).
Proof.
  intros Hb Hv. unfold write_integer_backwards.
  destruct (write_integer_backwards_loop_spec
              (if decide (fs_type fs = TYPE_X) then base_conversion_capital
               else base_conversion_small) base (Z.to_nat BUFFER_SIZE) value)
    as (ds & Hds & Hval & Hall & Hlen & Hz & Hlow).
  { rewrite conversion_table_length. lia. }
  { unfold BUFFER_SIZE. lia. }
  { split; [lia|]. unfold UINTMAX_MAX in Hv.
    assert (8 ^ 128 ≤ base ^ Z.of_nat (Z.to_nat BUFFER_SIZE)).
    { change (Z.of_nat (Z.to_nat BUFFER_SIZE)) with 128.
      apply Z.pow_le_mono_l. lia. }
    assert (18446744073709551615 < 8 ^ 128) by (vm_compute; reflexivity).
    lia. }
  exists ds. repeat split; auto; try lia.
  destruct (decide (value = 0)) as [->|Hnz].
  - rewrite (Hz eq_refl). simpl. lia.
  - assert (Hlow' := Hlow ltac:(lia)).
    destruct (decide (length ds ≤ 64)%nat) as [|Hbig]; [assumption|].
    exfalso.
    assert (8 ^ 64 ≤ base ^ (Z.of_nat (length ds) - 1)).
    { transitivity (8 ^ (Z.of_nat (length ds) - 1)).
      - apply Z.pow_le_mono_r; lia.
      - apply Z.pow_le_mono_l; lia. }
    assert (18446744073709551615 < 8 ^ 64) by (vm_compute; reflexivity).
    unfold UINTMAX_MAX in Hv. lia.
Qed.

(** The negative conversion writes the digits of the absolute value, without
    ever negating [value]. *)
Lemma write_decimal_negative_backwards_loop_abs (room : nat) (value : Z) :
  value ≤ 0 →
  write_decimal_negative_backwards_loop room value
  = write_integer_backwards_loop room base_conversion_small (- value) 10.
Proof.
  revert value. induction room as [|room IH]; intros value Hv; [reflexivity|].
  cbn [write_decimal_negative_backwards_loop write_integer_backwards_loop].
  assert (Hrem : Z.rem value 10 = - ((- value) `mod` 10)).
  { rewrite <- (Z.opp_involutive value) at 1.
    rewrite Z.rem_opp_l by lia. rewrite Z.rem_mod_nonneg by lia. reflexivity. }
  assert (Hquot : Z.quot value 10 = - ((- value) `div` 10)).
  { rewrite <- (Z.opp_involutive value) at 1.
    rewrite Z.quot_opp_l by lia. rewrite Z.quot_div_nonneg by lia. reflexivity. }
  assert (Hm : 0 ≤ (- value) `mod` 10 < 10) by (apply Z.mod_pos_bound; lia).
  rewrite Hrem, Hquot.
  assert (Hc : String.get (Z.to_nat ((- value) `mod` 10)) base_conversion_small
               = Some (char_of_code (char_code "0" - - ((- value) `mod` 10)))).
  { revert Hm. generalize ((- value) `mod` 10). intros d Hd.
    assert (d = 0 ∨ d = 1 ∨ d = 2 ∨ d = 3 ∨ d = 4 ∨ d = 5 ∨ d = 6 ∨ d = 7
            ∨ d = 8 ∨ d = 9) as Hcases by lia.
    repeat (destruct Hcases as [->|Hcases]; [reflexivity|]).
    subst d. reflexivity. }
  rewrite Hc. cbn [mbind option_bind].
  assert (0 ≤ (- value) `div` 10) by (apply Z.div_pos; lia).
  destruct (decide (- ((- value) `div` 10) ≠ 0)),
           (decide ((- value) `div` 10 ≠ 0)); try lia; [|reflexivity].
  rewrite IH by lia. rewrite Z.opp_involutive. reflexivity.
Qed.

(** ** The composition of a field *)

Lemma emits_eq (a : M bool) (cs cs' : list ascii) (s : state) :
  (∀ s, a s = emit cs s) → cs = cs' → a s = emit cs' s.
Proof. intros H <-. apply H. Qed.

Ltac emit_chain :=
  intros;
  first [ apply pad_output_emit
        | apply write_prefix_emit
        | apply write_backwards_buffer_emit
        | eapply and_then_emit; [ emit_chain | emit_chain ] ].

Lemma digit_run_length (fs : format_specifier) (buffer : list ascii) :
  Z.of_nat (length (digit_run fs buffer))
  = Z.max (fs_precision fs) (Z.of_nat (length buffer)).
Proof.
  unfold digit_run. rewrite length_app, length_replicate, length_rev. lia.
Qed.

Lemma write_backwards_buffer_with_padding_emit (buffer : list ascii)
  (fs : format_specifier) (prefix prefix2 : ascii)
  (padding precision_padding : Z) (s : state) :
  0 ≤ padding ≤ INT_MAX → 0 ≤ precision_padding ≤ INT_MAX →
  Z.of_nat (length buffer) ≤ INT_MAX →
  write_backwards_buffer_with_padding buffer (Z.of_nat (length buffer)) fs
    prefix prefix2 padding precision_padding s
  = emit (field fs (prefix_chars prefix ++ prefix_chars prefix2)
            (replicate (Z.to_nat precision_padding) "0"%char ++ rev buffer)
            padding) s.
Proof.
  intros Hp Hpp Hlen. unfold write_backwards_buffer_with_padding, field.
  assert (HI : INT_MIN ≤ 0) by (unfold INT_MIN; lia).
  rewrite !to_int_id by lia. unfold prefix_chars.
  destruct (fs_zero_padded fs), (fs_left_justify fs); simpl;
    (eapply emits_eq; [emit_chain|]);
    rewrite <- ?app_assoc; reflexivity.
Qed.

Lemma pad_to_precision_spec (fs : format_specifier) (length : Z) :
  -1 ≤ fs_precision fs ≤ INT_MAX → 0 ≤ length ≤ INT_MAX →
  pad_to_precision fs length
  = (Z.max (fs_precision fs) length, Z.max 0 (fs_precision fs - length)).
Proof.
  intros Hp Hl. unfold pad_to_precision, INT_MAX in *.
  destruct (decide (fs_precision fs = -1)) as [->|Hne].
  { f_equal; lia. }
  rewrite !to_uint_id by (unfold UINT_MAX; lia).
  destruct (decide (length < fs_precision fs)).
  - rewrite to_uint_id by (unfold UINT_MAX; lia). f_equal; lia.
  - f_equal; lia.
Qed.

Lemma pad_to_width_spec (fs : format_specifier) (precision_length extra : Z) :
  0 ≤ fs_width fs ≤ INT_MAX → 0 ≤ precision_length ≤ INT_MAX →
  0 ≤ extra ≤ 2 →
  pad_to_width fs precision_length extra
  = Z.max 0 (fs_width fs - precision_length - extra).
Proof.
  intros Hw Hl He. unfold pad_to_width, INT_MAX in *.
  rewrite to_uint_id by (unfold UINT_MAX; lia).
  destruct (decide _); [|lia].
  rewrite to_uint_id by (unfold UINT_MAX; lia). lia.
Qed.

(** The shape shared by the four integer emitters once the digits are in the
    scratch buffer. *)
Lemma integer_field_emit (buffer : list ascii) (fs fs' : format_specifier)
  (prefix prefix2 : ascii) (extra : Z) (s : state) :
  -1 ≤ fs_precision fs ≤ INT_MAX → 0 ≤ fs_width fs ≤ INT_MAX →
  (length buffer ≤ 64)%nat →
  extra = Z.of_nat (length (prefix_chars prefix ++ prefix_chars prefix2)) →
  fs_zero_padded fs' = fs_zero_padded fs →
  fs_left_justify fs' = fs_left_justify fs →
  (let '(precision_length, precision_padding) :=
     pad_to_precision fs (Z.of_nat (length buffer)) in
   write_backwards_buffer_with_padding buffer (Z.of_nat (length buffer)) fs'
     prefix prefix2 (pad_to_width fs precision_length extra)
     precision_padding) s
  = emit (padded_field fs (prefix_chars prefix ++ prefix_chars prefix2)
            (digit_run fs buffer)) s.
Proof.
  intros Hp Hw Hlen Hextra Hz Hl.
  assert (He : 0 ≤ extra ≤ 2).
  { subst extra. unfold prefix_chars. rewrite length_app.
    destruct (decide (prefix ≠ NUL)), (decide (prefix2 ≠ NUL)); simpl; lia. }
  unfold INT_MAX in *.
  rewrite pad_to_precision_spec by (unfold INT_MAX; lia).
  rewrite pad_to_width_spec by (unfold INT_MAX; lia).
  rewrite write_backwards_buffer_with_padding_emit by (unfold INT_MAX; lia).
  f_equal. unfold padded_field, field. rewrite Hz, Hl.
  rewrite digit_run_length, <- Hextra. unfold digit_run.
  replace (Z.to_nat (Z.max 0 (fs_precision fs - Z.of_nat (length buffer))))
    with (Z.to_nat (fs_precision fs - Z.of_nat (length buffer))) by lia.
  replace (Z.to_nat (Z.max 0 (fs_width fs
             - Z.max (fs_precision fs) (Z.of_nat (length buffer)) - extra)))
    with (Z.to_nat (fs_width fs - extra
             - Z.max (fs_precision fs) (Z.of_nat (length buffer)))) by lia.
  reflexivity.
Qed.

(** ** The integer emitters *)

Lemma numeral_length (char_values : string) (base value : Z)
  (buffer : list ascii) :
  numeral char_values base value buffer → (1 ≤ length buffer ≤ 64)%nat.
Proof. intros (ds & -> & _ & _ & H & _). rewrite length_fmap. exact H. Qed.

Lemma integer_digits_spec (value : Z) (fs : format_specifier) (base : Z)
  (s : state) :
  8 ≤ base ≤ 16 → 0 ≤ value ≤ UINTMAX_MAX →
  ∃ buffer : list ascii,
    integer_digits value fs base s = Ok buffer s
    ∧ (length buffer ≤ 64)%nat
    ∧ if decide (fs_precision fs = 0 ∧ value = 0) then buffer = []
      else numeral (conversion_table fs) base value buffer.
Proof.
  intros Hb Hv. unfold integer_digits.
  destruct (decide (fs_precision fs = 0 ∧ value = 0)) as [Hz|Hz].
  - exists []. repeat split. simpl. lia.
  - destruct (write_integer_backwards_spec value fs base Hb Hv)
      as (ds & Hds & Hrest).
    exists (digit_char (conversion_table fs) <$> ds).
    unfold conversion_table. rewrite Hds. split; [reflexivity|].
    split; [rewrite length_fmap; lia|].
    exists ds. split; [reflexivity|]. exact Hrest.
Qed.

Section IntegerEmitters.

Variable fs : format_specifier.
Hypothesis precision_range : -1 ≤ fs_precision fs ≤ INT_MAX.
Hypothesis width_range : 0 ≤ fs_width fs ≤ INT_MAX.

Lemma write_decimal_positive_emit (value : Z) (s : state) :
  0 ≤ value ≤ UINTMAX_MAX →
  ∃ buffer : list ascii,
    write_decimal_positive value fs s
    = emit (padded_field fs
              (if fs_always_sign fs then ["+"%char]
               else if fs_empty_sign fs then [" "%char] else [])
              (digit_run fs buffer)) s
    ∧ integer_digits value fs 10 s = Ok buffer s
    ∧ if decide (fs_precision fs = 0 ∧ value = 0) then buffer = []
      else numeral (conversion_table fs) 10 value buffer.
Proof.
  intros Hv.
  destruct (integer_digits_spec value fs 10 s ltac:(lia) Hv)
    as (buffer & Hrun & Hlen & Hnum).
  exists buffer. split; [|split; [exact Hrun|exact Hnum]].
  unfold write_decimal_positive. rewrite bind_run, Hrun.
  rewrite (integer_field_emit buffer fs fs) by
    (auto; destruct (fs_always_sign fs), (fs_empty_sign fs); reflexivity).
  f_equal. destruct (fs_always_sign fs), (fs_empty_sign fs); reflexivity.
Qed.

Lemma write_hexadecimal_emit (value : Z) (s : state) :
  0 ≤ value ≤ UINTMAX_MAX →
  ∃ buffer : list ascii,
    write_hexadecimal value fs s
    = emit (padded_field fs
              (if fs_alternate_form fs
               then ["0"%char; if decide (fs_type fs = TYPE_X)
                               then "X"%char else "x"%char]
               else [])
              (digit_run fs buffer)) s
    ∧ integer_digits value fs 16 s = Ok buffer s
    ∧ if decide (fs_precision fs = 0 ∧ value = 0) then buffer = []
      else numeral (conversion_table fs) 16 value buffer.
Proof.
  intros Hv.
  destruct (integer_digits_spec value fs 16 s ltac:(lia) Hv)
    as (buffer & Hrun & Hlen & Hnum).
  exists buffer. split; [|split; [exact Hrun|exact Hnum]].
  unfold write_hexadecimal. rewrite bind_run, Hrun.
  rewrite (integer_field_emit buffer fs fs) by
    (auto; destruct (fs_alternate_form fs), (decide (fs_type fs = TYPE_X));
     reflexivity).
  f_equal.
  destruct (fs_alternate_form fs), (decide (fs_type fs = TYPE_X)); reflexivity.
Qed.

Lemma write_octal_emit (value : Z) (s : state) :
  0 ≤ value ≤ UINTMAX_MAX →
  ∃ buffer : list ascii,
    write_octal value fs s
    = emit (padded_field fs
              (if fs_alternate_form fs
                  && negb (bool_decide
                             (Z.of_nat (length buffer) < fs_precision fs))
               then ["0"%char] else [])
              (digit_run fs buffer)) s
    ∧ integer_digits value fs 8 s = Ok buffer s
    ∧ if decide (fs_precision fs = 0 ∧ value = 0) then buffer = []
      else numeral (conversion_table fs) 8 value buffer.
Proof.
  intros Hv.
  destruct (integer_digits_spec value fs 8 s ltac:(lia) Hv)
    as (buffer & Hrun & Hlen & Hnum).
  exists buffer. split; [|split; [exact Hrun|exact Hnum]].
  unfold write_octal. rewrite bind_run, Hrun.
  pose proof (pad_to_precision_spec fs (Z.of_nat (length buffer))
                precision_range ltac:(unfold INT_MAX; lia)) as Hpp.
  destruct (pad_to_precision fs (Z.of_nat (length buffer)))
    as [precision_length precision_padding] eqn:Hpad.
  injection Hpp as -> ->.
  set (fs' := if decide (Z.of_nat (length buffer)
                         < Z.max (fs_precision fs) (Z.of_nat (length buffer)))
              then set_alternate_form false fs else fs).
  assert (Halt : fs_alternate_form fs'
                 = fs_alternate_form fs
                   && negb (bool_decide
                              (Z.of_nat (length buffer) < fs_precision fs))).
  { subst fs'.
    destruct (decide (Z.of_nat (length buffer)
                      < Z.max (fs_precision fs) (Z.of_nat (length buffer))))
      as [Hlt|Hlt]; simpl.
    - rewrite bool_decide_true by lia. rewrite andb_false_r. reflexivity.
    - rewrite bool_decide_false by lia. rewrite andb_true_r. reflexivity. }
  assert (Hw' : fs_width fs' = fs_width fs)
    by (subst fs'; case_decide; reflexivity).
  assert (Hz' : fs_zero_padded fs' = fs_zero_padded fs)
    by (subst fs'; case_decide; reflexivity).
  assert (Hl' : fs_left_justify fs' = fs_left_justify fs)
    by (subst fs'; case_decide; reflexivity).
  rewrite Halt.
  pose proof (integer_field_emit buffer fs fs'
                (if fs_alternate_form fs
                    && negb (bool_decide
                               (Z.of_nat (length buffer) < fs_precision fs))
                 then "0"%char else NUL) NUL
                (if fs_alternate_form fs
                    && negb (bool_decide
                               (Z.of_nat (length buffer) < fs_precision fs))
                 then 1 else 0) s precision_range width_range Hlen) as Hemit.
  rewrite Hpad in Hemit. unfold pad_to_width in Hemit |- *.
  rewrite Hw'. rewrite Hemit; auto.
  - f_equal. destruct (fs_alternate_form fs && _); reflexivity.
  - destruct (fs_alternate_form fs && _); reflexivity.
Qed.

Lemma write_integer_positive_emit (value : Z) (s : state) :
  is_integer_type (fs_type fs) = true → 0 ≤ value ≤ UINTMAX_MAX →
  ∃ buffer : list ascii,
    write_integer_positive value fs s
    = emit (padded_field fs (integer_prefix fs buffer) (digit_run fs buffer)) s
    ∧ integer_digits value fs (base_of (fs_type fs)) s = Ok buffer s
    ∧ if decide (fs_precision fs = 0 ∧ value = 0) then buffer = []
      else numeral (conversion_table fs) (base_of (fs_type fs)) value buffer.
Proof.
  intros Ht Hv. unfold write_integer_positive, integer_prefix.
  destruct (fs_type fs) eqn:Hty; try discriminate Ht; simpl.
  1-3: apply write_decimal_positive_emit; assumption.
  - apply write_octal_emit; assumption.
  - destruct (write_hexadecimal_emit value s Hv) as (buffer & He & Hn).
    exists buffer. rewrite He, Hty. split; [|exact Hn].
    destruct (decide (TYPE_x = TYPE_X)); [discriminate|reflexivity].
  - destruct (write_hexadecimal_emit value s Hv) as (buffer & He & Hn).
    exists buffer. rewrite He, Hty. split; [|exact Hn].
    destruct (decide (TYPE_X = TYPE_X)); [reflexivity|congruence].
Qed.

Lemma write_decimal_negative_emit (value : Z) (s : state) :
  - 2 ^ 63 ≤ value < 0 →
  ∃ buffer : list ascii,
    write_decimal_negative (to_uintmax value) fs s
    = emit (padded_field fs ["-"%char] (digit_run fs buffer)) s
    ∧ numeral base_conversion_small 10 (- value) buffer.
Proof.
  intros Hv. unfold write_decimal_negative.
  rewrite to_intmax_to_uintmax by lia.
  unfold write_decimal_negative_backwards.
  rewrite write_decimal_negative_backwards_loop_abs by lia.
  destruct (write_integer_backwards_spec (- value)
              (set_type TYPE_d fs) 10 ltac:(lia))
    as (ds & Hds & Hrest).
  { unfold UINTMAX_MAX. change (2 ^ 63) with 9223372036854775808 in Hv. lia. }
  unfold write_integer_backwards in Hds.
  cbn [fs_type set_type] in Hds.
  destruct (decide (TYPE_d = TYPE_X)) as [Hdx|_]; [discriminate Hdx|].
  exists (digit_char base_conversion_small <$> ds).
  split; [|exists ds; split; [reflexivity|exact Hrest]].
  rewrite bind_run, Hds. cbn [defined mret comp_ret].
  destruct Hrest as (_ & _ & Hlen & _).
  rewrite (integer_field_emit _ fs fs "-" NUL 1); auto.
  rewrite length_fmap. lia.
Qed.

End IntegerEmitters.

(** ** The normaliser *)

Lemma cancel_preserves (P : format_specifier → Prop)
  (condition : format_specifier → bool) (warning : format_error)
  (assign : format_specifier → format_specifier) :
  (∀ fs, P fs → P (assign fs)) →
  ∀ st, P st.2 → P (cancel condition warning assign st).2.
Proof.
  intros Ha st Hst. unfold cancel. destruct (condition st.2); simpl; auto.
Qed.

Lemma blocks_preserve (P : format_specifier → Prop)
  (blocks : list (format_error * format_specifier
                  → format_error * format_specifier))
  (st : format_error * format_specifier) :
  Forall (λ block, ∀ st, P st.2 → P (block st).2) blocks →
  P st.2 → P (foldl (λ st block, block st) st blocks).2.
Proof.
  intros Hall. revert st.
  induction Hall as [|block blocks Hb _ IH]; intros st Hst; simpl; auto.
Qed.

(** Every assignment of the normaliser clears a flag, the width or the
    precision; a property those assignments keep is kept by the whole. *)
Lemma check_unused_values_preserves (P : format_specifier → Prop)
  (fs : format_specifier) :
  (∀ fs b, P fs → P (set_empty_sign b fs)) →
  (∀ fs b, P fs → P (set_always_sign b fs)) →
  (∀ fs b, P fs → P (set_alternate_form b fs)) →
  (∀ fs, P fs → P (set_zero_padded false fs)) →
  (∀ fs, P fs → P (set_left_justify false fs)) →
  (∀ fs, P fs → P (set_width 0 fs)) →
  (∀ fs, P fs → P (set_precision (-1) fs)) →
  P fs → P (format_string_check_unused_values fs).2.
Proof.
  intros H1 H2 H3 H4 H5 H6 H7 Hfs.
  unfold format_string_check_unused_values. apply blocks_preserve; [|exact Hfs].
  unfold unused_values_blocks.
  repeat (apply Forall_cons; split; [apply cancel_preserves; auto|]).
  apply Forall_nil. exact I.
Qed.

Lemma check_unused_values_ranges (fs : format_specifier) :
  -1 ≤ fs_precision fs ≤ INT_MAX ∧ 0 ≤ fs_width fs ≤ INT_MAX →
  -1 ≤ fs_precision (format_string_check_unused_values fs).2 ≤ INT_MAX
  ∧ 0 ≤ fs_width (format_string_check_unused_values fs).2 ≤ INT_MAX.
Proof.
  apply (check_unused_values_preserves
           (λ fs, -1 ≤ fs_precision fs ≤ INT_MAX ∧ 0 ≤ fs_width fs ≤ INT_MAX));
    intros [] *; simpl; unfold INT_MAX; lia.
Qed.

Lemma check_unused_values_type (fs : format_specifier) :
  fs_type (format_string_check_unused_values fs).2 = fs_type fs.
Proof.
  apply (check_unused_values_preserves (λ fs', fs_type fs' = fs_type fs));
    try (intros [] *; simpl; auto). reflexivity.
Qed.

(** After the normaliser an explicit precision excludes zero padding. *)
Lemma check_unused_values_zero_padded (fs : format_specifier) :
  fs_precision (format_string_check_unused_values fs).2 ≠ -1 →
  fs_zero_padded (format_string_check_unused_values fs).2 = false.
Proof.
  unfold format_string_check_unused_values.
  assert (Hlast : unused_values_blocks
                  = removelast unused_values_blocks
                    ++ [cancel (λ fs, bool_decide (fs_precision fs ≠ -1)
                                      && fs_zero_padded fs)
                          FORMAT_WARNING_flag_does_nothing
                          (set_zero_padded false)]) by reflexivity.
  rewrite Hlast, foldl_app. cbn [foldl].
  generalize (foldl (λ st block, block st) (FORMAT_okay, fs)
                (removelast unused_values_blocks)).
  intros [w fs']. unfold cancel. simpl.
  destruct (bool_decide (fs_precision fs' ≠ -1)) eqn:Hp; simpl.
  - destruct (fs_zero_padded fs') eqn:Hz; simpl; auto.
  - apply bool_decide_eq_false in Hp. intros Hne. contradiction.
Qed.

(** ** C5 *)

(** C5.  For every integer conversion the precision is the minimum digit
    count: what is emitted is the sign or prefix and the digits of the value,
    zero-extended on the left to [max precision digits] characters, padded
    to the width.  For a zero value with precision 0 the digits are none at
    all, and the field is the padding for a number of no digits.  The default
    precision -1 gives what precision 1 gives.  The same holds for the
    negative values of d and i, whose digits are those of the absolute
    value. *)
Theorem integer_precision_is_minimum_digit_count (fs : format_specifier)
  (value : Z) (s : state) :
  -1 ≤ fs_precision fs ≤ INT_MAX →
  0 ≤ fs_width fs ≤ INT_MAX →
  (fs_precision fs ≠ -1 → fs_zero_padded fs = false) →
  is_integer_type (fs_type fs) = true →
  0 ≤ value ≤ UINTMAX_MAX →
  (∃ buffer : list ascii,
     write_integer_positive value fs s
     = emit (padded_field fs (integer_prefix fs buffer) (digit_run fs buffer)) s
     ∧ digit_run fs buffer
       = replicate (Z.to_nat (fs_precision fs - Z.of_nat (length buffer)))
           "0"%char ++ rev buffer
     ∧ Z.of_nat (length (digit_run fs buffer))
       = Z.max (fs_precision fs) (Z.of_nat (length buffer))
     ∧ (if decide (fs_precision fs = 0 ∧ value = 0)
        then buffer = [] ∧ digit_run fs buffer = []
             ∧ write_integer_positive value fs s
               = emit (let prefix := integer_prefix fs [] in
                       let fill :=
                         replicate
                           (Z.to_nat (fs_width fs - Z.of_nat (length prefix)))
                           " "%char in
                       if fs_left_justify fs then prefix ++ fill
                       else fill ++ prefix) s
        else numeral (conversion_table fs) (base_of (fs_type fs)) value buffer)
     ∧ (fs_precision fs = -1 →
        Z.of_nat (length (digit_run fs buffer))
        = Z.max 1 (Z.of_nat (length buffer))))
  ∧ write_integer_positive value (set_precision (-1) fs) s
    = write_integer_positive value (set_precision 1 fs) s
  ∧ (∀ negative : Z,
       - 2 ^ 63 ≤ negative < 0 →
       ∃ buffer : list ascii,
         write_decimal_negative (to_uintmax negative) fs s
         = emit (padded_field fs ["-"%char] (digit_run fs buffer)) s
         ∧ numeral base_conversion_small 10 (- negative) buffer
         ∧ Z.of_nat (length (digit_run fs buffer))
           = Z.max (fs_precision fs) (Z.of_nat (length buffer))).
Proof.
  intros Hp Hw Hzp Ht Hv. split; [|split].
  - destruct (write_integer_positive_emit fs Hp Hw value s Ht Hv)
      as (buffer & Hemit & _ & Hnum).
    exists buffer. split; [exact Hemit|]. split; [reflexivity|].
    split; [apply digit_run_length|]. split.
    + destruct (decide (fs_precision fs = 0 ∧ value = 0)) as [[Hp0 Hv0]|_];
        [|exact Hnum].
      subst buffer. split; [reflexivity|].
      assert (Hrun : digit_run fs [] = []).
      { unfold digit_run. rewrite Hp0. reflexivity. }
      split; [exact Hrun|]. rewrite Hemit, Hrun. f_equal.
      unfold padded_field, field. rewrite Hzp by lia. simpl.
      rewrite Z.sub_0_r, !app_nil_r. reflexivity.
    + intros Hdef. rewrite digit_run_length, Hdef.
      destruct (decide (fs_precision fs = 0 ∧ value = 0)) as [[Hp0 _]|_];
        [lia|].
      apply numeral_length in Hnum. lia.
  - assert (Hp1 : -1 ≤ fs_precision (set_precision (-1) fs) ≤ INT_MAX)
      by (simpl; unfold INT_MAX; lia).
    assert (Hp2 : -1 ≤ fs_precision (set_precision 1 fs) ≤ INT_MAX)
      by (simpl; unfold INT_MAX; lia).
    destruct (write_integer_positive_emit (set_precision (-1) fs) Hp1 Hw
                value s Ht Hv) as (b1 & He1 & Hr1 & Hn1).
    destruct (write_integer_positive_emit (set_precision 1 fs) Hp2 Hw
                value s Ht Hv) as (b2 & He2 & Hr2 & Hn2).
    assert (Hsame : b1 = b2).
    { unfold integer_digits in Hr1, Hr2. simpl in Hr1, Hr2.
      destruct (decide (-1 = 0 ∧ value = 0)) as [[? _]|_]; [lia|].
      destruct (decide (1 = 0 ∧ value = 0)) as [[? _]|_]; [lia|].
      unfold write_integer_backwards in Hr1, Hr2.
      cbn [fs_type set_precision] in Hr1, Hr2.
      rewrite Hr1 in Hr2. congruence. }
    subst b2. rewrite He1, He2. f_equal.
    destruct (decide (fs_precision (set_precision 1 fs) = 0 ∧ value = 0))
      as [[Hbad _]|_]; [simpl in Hbad; lia|].
    apply numeral_length in Hn2.
    unfold padded_field, field, digit_run, integer_prefix. simpl.
    rewrite !length_app, !length_replicate, !length_rev.
    replace (Z.to_nat (-1 - Z.of_nat (length b1))) with 0%nat by lia.
    replace (Z.to_nat (1 - Z.of_nat (length b1))) with 0%nat by lia.
    rewrite !bool_decide_false by lia. reflexivity.
  - intros negative Hn.
    destruct (write_decimal_negative_emit fs Hp Hw negative s Hn)
      as (buffer & Hemit & Hnum).
    exists buffer. split; [exact Hemit|]. split; [exact Hnum|].
    apply digit_run_length.
Qed.

(** The directive "%5.0d" with the value 0: five spaces, no digit. *)
Lemma integer_precision_is_minimum_digit_count_witness :
  let fs := mk_fs 4 false false false false false 0 5 0 0 LENGTH_none TYPE_d 0 in
  (-1 ≤ fs_precision fs ≤ INT_MAX)
  ∧ (0 ≤ fs_width fs ≤ INT_MAX)
  ∧ (fs_precision fs ≠ -1 → fs_zero_padded fs = false)
  ∧ is_integer_type (fs_type fs) = true
  ∧ (0 ≤ 0 ≤ UINTMAX_MAX)
  ∧ write_integer_positive 0 fs Scenario.machine
    = emit (replicate 5 " "%char) Scenario.machine.
Proof.
  intros fs.
  assert (H1 : -1 ≤ fs_precision fs ≤ INT_MAX) by (vm_compute; split; discriminate).
  assert (H2 : 0 ≤ fs_width fs ≤ INT_MAX) by (vm_compute; split; discriminate).
  assert (H3 : fs_precision fs ≠ -1 → fs_zero_padded fs = false)
    by (intros _; reflexivity).
  assert (H4 : is_integer_type (fs_type fs) = true) by reflexivity.
  assert (H5 : 0 ≤ 0 ≤ UINTMAX_MAX) by (vm_compute; split; discriminate).
  split; [exact H1|]. split; [exact H2|]. split; [exact H3|].
  split; [exact H4|]. split; [exact H5|].
  destruct (integer_precision_is_minimum_digit_count fs 0 Scenario.machine
              H1 H2 H3 H4 H5) as [(buffer & _ & _ & _ & Hcase & _) _].
  destruct (decide (fs_precision fs = 0 ∧ 0 = 0)) as [_|Hno].
  - destruct Hcase as (_ & _ & Hfield). rewrite Hfield. reflexivity.
  - exfalso. apply Hno. split; reflexivity.
Defined.

(** ** Strings *)

Lemma string_get_lookup (str : string) (i : nat) :
  String.get i str = chars_of str !! i.
Proof.
  revert i. induction str as [|c str IH]; intros [|i]; simpl; auto.
Qed.

Lemma chars_of_length (str : string) :
  length (chars_of str) = String.length str.
Proof. induction str; simpl; auto. Qed.

Lemma strlen_bound (str : string) :
  0 ≤ strlen str ≤ Z.of_nat (String.length str).
Proof.
  induction str as [|c str IH]; simpl; [lia|].
  destruct (bool_decide (c = NUL)); lia.
Qed.

Lemma strnlen_safe_loop_spec (str : string) (max count : Z) :
  count ≤ max →
  strnlen_safe_loop str max count = Z.min max (count + strlen str).
Proof.
  revert count. induction str as [|c str IH]; intros count Hc; simpl.
  - destruct (decide (count < max)); lia.
  - destruct (decide (count < max)) as [Hlt|Hge].
    + destruct (decide (c ≠ NUL)) as [Hn|Hn].
      * rewrite bool_decide_false by assumption. rewrite IH by lia. lia.
      * rewrite bool_decide_true by (destruct (decide (c = NUL)); tauto).
        pose proof (strlen_bound str). lia.
    + pose proof (strlen_bound str). destruct (bool_decide (c = NUL)); lia.
Qed.

Lemma write_forwards_buffer_loop_emit (str : string) (n : nat) (i : Z)
  (s : state) :
  0 ≤ i → i + Z.of_nat n ≤ Z.of_nat (String.length str) →
  write_forwards_buffer_loop n (Some str) i s
  = emit (take n (drop (Z.to_nat i) (chars_of str))) s.
Proof.
  revert i s. induction n as [|n IH]; intros i s Hi Hn.
  - reflexivity.
  - assert (Hlt : (Z.to_nat i < length (chars_of str))%nat)
      by (rewrite chars_of_length; lia).
    destruct (lookup_lt_is_Some_2 _ _ Hlt) as [c Hc].
    rewrite (drop_S _ _ _ Hc).
    cbn [write_forwards_buffer_loop take firstn emit defined mbind].
    apply and_then_ext.
    { intros s'. rewrite bind_run. cbn [mret comp_ret].
      rewrite string_get_lookup, Hc. reflexivity. }
    intros s'. rewrite IH by lia.
    replace (Z.to_nat (i + 1)) with (S (Z.to_nat i)) by lia. reflexivity.
Qed.

Lemma write_forwards_buffer_emit (str : string) (length : Z) (s : state) :
  length ≤ Z.of_nat (String.length str) →
  write_forwards_buffer (Some str) length s
  = emit (take (Z.to_nat length) (chars_of str)) s.
Proof.
  intros Hl. unfold write_forwards_buffer.
  rewrite write_forwards_buffer_loop_emit by lia. reflexivity.
Qed.

(** [write_string] on a string: the characters before the NUL, cut at the
    precision, in a field of the width. *)
Lemma write_string_emit (str : string) (fs : format_specifier) (s : state) :
  -1 ≤ fs_precision fs ≤ INT_MAX → 0 ≤ fs_width fs ≤ INT_MAX →
  strlen str ≤ INT_MAX →
  write_string (Some str) fs s
  = emit (string_field fs
            (take (Z.to_nat (if decide (fs_precision fs = -1) then strlen str
                             else Z.min (fs_precision fs) (strlen str)))
               (chars_of str))) s.
Proof.
  intros Hp Hw Hs. unfold write_string, INT_MAX in *.
  pose proof (strlen_bound str) as Hb.
  assert (Hinput : (if decide (fs_precision fs ≠ 0)
                    then match Some str with
                         | Some _ => Some str
                         | None => Some null_string_string
                         end
                    else Some str) = Some str) by (destruct (decide _); auto).
  rewrite Hinput. clear Hinput.
  set (n := if decide (fs_precision fs = -1) then strlen str
            else Z.min (fs_precision fs) (strlen str)).
  assert (Hn : 0 ≤ n ≤ strlen str) by (subst n; destruct (decide _); lia).
  assert (Hlen : (if decide (fs_precision fs ≠ -1)
                  then n0 ← strnlen_safe (Some str) (to_size_t (fs_precision fs));
                       mret (to_uint n0)
                  else s0 ← defined (Some str); mret (to_uint (strlen s0))) s
                 = Ok n s).
  { subst n. destruct (decide (fs_precision fs ≠ -1)) as [Hne|He].
    - destruct (decide (fs_precision fs = -1)); [contradiction|].
      unfold strnlen_safe. rewrite to_size_t_id by (unfold SIZE_MAX; lia).
      rewrite strnlen_safe_loop_spec by lia.
      rewrite Z.add_0_l, bind_run. cbn [mret comp_ret].
      rewrite to_int_id by (unfold INT_MIN, INT_MAX; lia).
      rewrite to_uint_id by (unfold UINT_MAX; lia). reflexivity.
    - destruct (decide (fs_precision fs = -1)); [|lia].
      rewrite bind_run. cbn [defined mret comp_ret].
      rewrite to_uint_id by (unfold UINT_MAX; lia). reflexivity. }
  rewrite bind_run, Hlen.
  assert (Hpad : (if decide (n < fs_width fs)
                  then to_int (to_uint (fs_width fs - n)) else 0)
                 = Z.max 0 (fs_width fs - n)).
  { destruct (decide (n < fs_width fs)); [|lia].
    rewrite to_uint_id by (unfold UINT_MAX; lia).
    rewrite to_int_id by (unfold INT_MIN, INT_MAX; lia). lia. }
  rewrite Hpad. rewrite to_int_id by (unfold INT_MIN, INT_MAX; lia).
  assert (Htext : Z.of_nat (length (take (Z.to_nat n) (chars_of str))) = n).
  { rewrite length_take, chars_of_length. lia. }
  unfold string_field. rewrite Htext.
  destruct (fs_left_justify fs); simpl;
    (eapply emits_eq;
     [eapply and_then_emit; intros;
      first [apply pad_output_emit | apply write_forwards_buffer_emit; lia]|]);
    replace (Z.to_nat (Z.max 0 (fs_width fs - n)))
      with (Z.to_nat (fs_width fs - n)) by lia; reflexivity.
Qed.

(** ** C7 *)

Lemma write_string_null (fs : format_specifier) (s : state) :
  0 ≤ fs_width fs ≤ INT_MAX →
  write_string None fs s
  = if decide (fs_precision fs = 0) then emit (string_field fs []) s
    else write_string (Some null_string_string) fs s.
Proof.
  intros Hw. unfold write_string.
  destruct (decide (fs_precision fs = 0)) as [H0|Hn0].
  - destruct (decide (fs_precision fs ≠ 0)) as [?|_]; [contradiction|].
    destruct (decide (fs_precision fs ≠ -1)) as [_|?]; [|lia].
    rewrite H0. rewrite bind_run.
    change ((n ← strnlen_safe None (to_size_t 0); mret (to_uint n)) s)
      with (Ok 0 s : outcome state Z).
    unfold string_field, INT_MAX in *.
    cbn [length Z.of_nat]. rewrite !Z.sub_0_r.
    assert (Hpad : (if decide (0 < fs_width fs)
                    then to_int (to_uint (fs_width fs)) else 0)
                   = fs_width fs).
    { destruct (decide (0 < fs_width fs)); [|lia].
      rewrite to_uint_id by (unfold UINT_MAX; lia).
      apply to_int_id. unfold INT_MIN, INT_MAX. lia. }
    rewrite Hpad. change (to_int 0) with 0.
    change (write_forwards_buffer None 0) with (emit []).
    destruct (fs_left_justify fs); cbn [negb app].
    + rewrite emit_nil_l. apply pad_output_emit.
    + rewrite app_nil_r, and_then_run, pad_output_emit.
      destruct (emit _ s) as [[] ?| | |]; reflexivity.
  - destruct (decide (fs_precision fs ≠ 0)) as [_|?]; [|contradiction].
    reflexivity.
Qed.

(** C7, as the code has it.  A null string argument is replaced by the
    literal "(null)" unless the precision is 0, and the literal is then cut
    at the precision like any other string: it is rendered in full for the
    default precision and for a precision of six and more, nothing of it is
    rendered at precision 0, and its first [precision] bytes are rendered
    for a precision from 1 to 5. *)
Theorem write_string_null_argument (fs : format_specifier) (s : state) :
  -1 ≤ fs_precision fs ≤ INT_MAX → 0 ≤ fs_width fs ≤ INT_MAX →
  let text :=
    take (Z.to_nat (if decide (fs_precision fs = -1) then 6
                    else fs_precision fs)) (chars_of null_string_string) in
  write_string None fs s = emit (string_field fs text) s
  ∧ (fs_precision fs = -1 ∨ 6 ≤ fs_precision fs →
     text = chars_of null_string_string)
  ∧ (fs_precision fs = 0 → text = [])
  ∧ (0 < fs_precision fs < 6 →
     Z.of_nat (length text) = fs_precision fs
     ∧ text ≠ chars_of null_string_string).
Proof.
  intros Hp Hw text. split; [|split; [|split]].
  - rewrite write_string_null by assumption.
    destruct (decide (fs_precision fs = 0)) as [H0|Hn0].
    + subst text. rewrite H0. reflexivity.
    + rewrite write_string_emit by
        (try assumption; vm_compute; discriminate).
      subst text. change (strlen null_string_string) with 6.
      destruct (decide (fs_precision fs = -1)); [reflexivity|].
      destruct (decide (fs_precision fs ≤ 6)).
      * rewrite Z.min_l by lia. reflexivity.
      * rewrite Z.min_r by lia.
        rewrite !take_ge by (simpl; lia). reflexivity.
  - intros Hfull. subst text. apply take_ge.
    destruct (decide (fs_precision fs = -1)); simpl; lia.
  - intros H0. subst text. rewrite H0. reflexivity.
  - intros Hcut. subst text.
    destruct (decide (fs_precision fs = -1)); [lia|].
    assert (Hlen : Z.of_nat (length (take (Z.to_nat (fs_precision fs))
                                       (chars_of null_string_string)))
                   = fs_precision fs).
    { rewrite length_take. simpl. lia. }
    split; [exact Hlen|].
    intros Heq. rewrite Heq in Hlen. simpl in Hlen. lia.
Qed.

(** With precision 0 and no width, nothing at all is emitted. *)
Lemma write_string_null_argument_witness :
  let fs := mk_fs 3 false false false false false 0 0 0 0 LENGTH_none TYPE_s 0 in
  (-1 ≤ fs_precision fs ≤ INT_MAX) ∧ (0 ≤ fs_width fs ≤ INT_MAX)
  ∧ write_string None fs Scenario.machine = Ok true Scenario.machine.
Proof.
  intros fs.
  assert (H1 : -1 ≤ fs_precision fs ≤ INT_MAX) by (vm_compute; split; discriminate).
  assert (H2 : 0 ≤ fs_width fs ≤ INT_MAX) by (vm_compute; split; discriminate).
  split; [exact H1|]. split; [exact H2|].
  destruct (write_string_null_argument fs Scenario.machine H1 H2) as [Hemit _].
  rewrite Hemit. reflexivity.
Defined.

(** At precision 5 the code renders five bytes of the literal, not the
    literal. *)
Lemma null_string_at_precision_five :
  Scenario.sprintf "%.5s" [AString None] = Some ("(null", 5)
  ∧ Scenario.sprintf "%.5s" [AString None] ≠ Some ("(null)", 6).
Proof. split; [vm_compute; reflexivity|vm_compute; discriminate]. Qed.

(** ** Invariants of the parser *)

Lemma int_checked_Some (z r : Z) :
  int_checked z = Some r → r = z ∧ INT_MIN ≤ z ≤ INT_MAX.
Proof. unfold int_checked. destruct (decide _); intros [= <-]; auto. Qed.

Lemma format_string_atoi_loop_range (format : string)
  (current characters_read n v : Z) :
  0 ≤ current ≤ INT_MAX → 0 ≤ characters_read ≤ INT_MAX →
  format_string_atoi_loop format current characters_read = Some (n, v) →
  (0 ≤ v ≤ INT_MAX) ∧ (characters_read ≤ n ≤ INT_MAX).
Proof.
  revert current characters_read.
  induction format as [|c rest IH]; intros current characters_read Hc Hn; simpl.
  - intros [= <- <-]. lia.
  - destruct (is_digit c) eqn:Hd; [|intros [= <- <-]; lia].
    unfold is_digit in Hd. apply bool_decide_eq_true in Hd.
    destruct (int_checked (current * 10)) as [c10|] eqn:H10; [|discriminate].
    apply int_checked_Some in H10 as [-> H10]. simpl.
    destruct (int_checked (current * 10 + digit_value c)) as [c'|] eqn:Hc';
      [|discriminate].
    apply int_checked_Some in Hc' as [-> Hc']. simpl.
    destruct (int_checked (characters_read + 1)) as [n'|] eqn:Hn';
      [|discriminate].
    apply int_checked_Some in Hn' as [-> Hn']. simpl.
    intros Hloop. apply IH in Hloop; [lia| |lia].
    unfold digit_value in *. lia.
Qed.

Lemma format_string_atoi_range (format : string) (n v : Z) :
  format_string_atoi format = Some (n, v) →
  (0 ≤ v ≤ INT_MAX) ∧ (0 ≤ n ≤ INT_MAX).
Proof.
  intros H. apply format_string_atoi_loop_range in H; unfold INT_MAX in *; lia.
Qed.

(** A property [Q] of the specifier that holds before the precision field is
    read and a property [P] that holds from then on, both indifferent to the
    other fields, hold of every specifier the parser returns. *)
Section ParserInvariant.

Variables Q P : format_specifier → Prop.

Hypothesis Q_input_length : ∀ fs v, Q fs → Q (set_input_length v fs).
Hypothesis Q_left_justify : ∀ fs v, Q fs → Q (set_left_justify v fs).
Hypothesis Q_always_sign : ∀ fs v, Q fs → Q (set_always_sign v fs).
Hypothesis Q_empty_sign : ∀ fs v, Q fs → Q (set_empty_sign v fs).
Hypothesis Q_alternate_form : ∀ fs v, Q fs → Q (set_alternate_form v fs).
Hypothesis Q_zero_padded : ∀ fs v, Q fs → Q (set_zero_padded v fs).
Hypothesis Q_position : ∀ fs v, Q fs → Q (set_position v fs).
Hypothesis Q_preceding_width : ∀ fs v, Q fs → Q (set_preceding_width v fs).
Hypothesis Q_width : ∀ fs v, 0 ≤ v ≤ INT_MAX → Q fs → Q (set_width v fs).

Hypothesis Q_P : ∀ fs, Q fs → P fs.
Hypothesis Q_precision :
  ∀ fs v, 0 ≤ v ≤ INT_MAX → Q fs → P (set_precision v fs).
Hypothesis Q_preceding_precision :
  ∀ fs v, Q fs → P (set_preceding_precision v fs).

Hypothesis P_input_length : ∀ fs v, P fs → P (set_input_length v fs).
Hypothesis P_length : ∀ fs v, P fs → P (set_length v fs).
Hypothesis P_type : ∀ fs v, P fs → P (set_type v fs).

Lemma read_format_string_type_inv format fs e fs' :
  read_format_string_type format fs = Some (e, fs') → P fs → P fs'.
Proof.
  unfold read_format_string_type, add_input_length. intros H HP.
  repeat (first [case_match | progress simplify_option_eq]); auto 12.
Qed.

Lemma read_format_string_length_inv format fs e fs' :
  read_format_string_length format fs = Some (e, fs') → P fs → P fs'.
Proof.
  unfold read_format_string_length, add_input_length. intros H HP.
  repeat (first [case_match | progress simplify_option_eq]);
    eapply read_format_string_type_inv; eauto.
Qed.

Lemma read_format_string_precision_inv format fs e fs' :
  read_format_string_precision format fs = Some (e, fs') → Q fs → P fs'.
Proof.
  unfold read_format_string_precision, add_input_length. intros H HQ.
  repeat (first [case_match | progress simplify_option_eq]);
    try (eapply read_format_string_length_inv; [eassumption|]); auto 12;
    repeat match goal with
    | Ha : format_string_atoi _ = Some _ |- _ =>
        apply format_string_atoi_range in Ha as [? ?]
    end; auto 12.
Qed.

Lemma read_format_string_width_inv format fs e fs' :
  read_format_string_width format fs = Some (e, fs') → Q fs → P fs'.
Proof.
  unfold read_format_string_width, add_input_length. intros H HQ.
  repeat (first [case_match | progress simplify_option_eq]);
    try (eapply read_format_string_precision_inv; [eassumption|]); auto 12;
    repeat match goal with
    | Ha : format_string_atoi _ = Some _ |- _ =>
        apply format_string_atoi_range in Ha as [? ?]
    end; auto 12.
Qed.

Lemma read_format_string_flags_loop_inv format fs error format' fs' error' :
  read_format_string_flags_loop format fs error = Some (format', fs', error') →
  Q fs → Q fs'.
Proof.
  revert fs error. induction format as [|c rest IH]; intros fs error; simpl.
  - intros [= <- <- <-]. auto.
  - unfold add_input_length. intros H HQ.
    repeat (first [case_match | progress simplify_option_eq]); try (eapply IH; [eassumption|]);
      auto 12.
Qed.

Lemma read_format_string_flags_inv format fs e fs' :
  read_format_string_flags format fs = Some (e, fs') → Q fs → P fs'.
Proof.
  unfold read_format_string_flags. intros H HQ.
  destruct (read_format_string_flags_loop format fs FORMAT_okay)
    as [[[format' fs1] error]|] eqn:Hloop; [|discriminate].
  apply read_format_string_flags_loop_inv in Hloop; [|assumption].
  simpl in H.
  destruct (read_format_string_width format' fs1) as [[rest fs2]|] eqn:Hw;
    [|discriminate].
  apply read_format_string_width_inv in Hw; [|assumption].
  simpl in H. destruct (bool_decide _); injection H as <- <-; assumption.
Qed.

Lemma read_format_string_position_inv format fs e fs' :
  read_format_string_position format fs = Some (e, fs') → Q fs → P fs'.
Proof.
  unfold read_format_string_position, add_input_length. intros H HQ.
  repeat (first [case_match | progress simplify_option_eq]);
    try (eapply read_format_string_flags_inv; [eassumption|]);
    try (eapply read_format_string_precision_inv; [eassumption|]); auto 12;
    repeat match goal with
    | Ha : format_string_atoi _ = Some _ |- _ =>
        apply format_string_atoi_range in Ha as [? ?]
    end; auto 12.
Qed.

Lemma read_format_string_inv format e fs :
  read_format_string format = Some (e, fs) →
  Q initial_format_specifier → P fs.
Proof.
  unfold read_format_string. intros H HQ.
  destruct (read_format_string_position format initial_format_specifier)
    as [[error fs1]|] eqn:Hpos; [|discriminate].
  apply read_format_string_position_inv in Hpos; [|assumption].
  simpl in H. repeat case_match; injection H as <- <-; assumption.
Qed.

End ParserInvariant.

(** The width and the precision the parser returns fit an [int]. *)
Lemma read_format_string_ranges (format : string) (e : format_error)
  (fs : format_specifier) :
  read_format_string format = Some (e, fs) →
  -1 ≤ fs_precision fs ≤ INT_MAX ∧ 0 ≤ fs_width fs ≤ INT_MAX.
Proof.
  intros H.
  apply (read_format_string_inv
           (λ fs, -1 ≤ fs_precision fs ≤ INT_MAX ∧ 0 ≤ fs_width fs ≤ INT_MAX)
           (λ fs, -1 ≤ fs_precision fs ≤ INT_MAX ∧ 0 ≤ fs_width fs ≤ INT_MAX))
    in H; try assumption; try (intros [] *; simpl; unfold INT_MAX; lia).
  simpl. unfold INT_MAX. lia.
Qed.


(** ** Fields the emitters do not read *)

Lemma cancel_commutes (g : format_specifier → format_specifier)
  (condition : format_specifier → bool) (warning : format_error)
  (assign : format_specifier → format_specifier) :
  (∀ fs, condition (g fs) = condition fs) →
  (∀ fs, assign (g fs) = g (assign fs)) →
  ∀ st, cancel condition warning assign (st.1, g st.2)
        = ((cancel condition warning assign st).1,
           g (cancel condition warning assign st).2).
Proof.
  intros Hc Ha [w fs]. unfold cancel. simpl. rewrite Hc, Ha.
  destruct (condition fs); reflexivity.
Qed.

Lemma blocks_commute (g : format_specifier → format_specifier)
  (blocks : list (format_error * format_specifier
                  → format_error * format_specifier))
  (st : format_error * format_specifier) :
  Forall (λ block, ∀ st, block (st.1, g st.2)
                         = ((block st).1, g (block st).2)) blocks →
  foldl (λ st block, block st) (st.1, g st.2) blocks
  = ((foldl (λ st block, block st) st blocks).1,
     g (foldl (λ st block, block st) st blocks).2).
Proof.
  intros Hall. revert st.
  induction Hall as [|block blocks Hb _ IH]; intros st; simpl.
  - reflexivity.
  - rewrite Hb. apply IH.
Qed.

Ltac passive_field :=
  unfold format_string_check_unused_values;
  match goal with
  | |- context [foldl _ (FORMAT_okay, ?g ?fs) _] =>
      change (FORMAT_okay, g fs) with ((FORMAT_okay, fs).1, g (FORMAT_okay, fs).2);
      rewrite (blocks_commute g); [reflexivity|]
  end;
  unfold unused_values_blocks;
  repeat (apply Forall_cons; split;
          [apply cancel_commutes; intros []; reflexivity|]);
  apply Forall_nil; exact I.

Lemma check_unused_values_input_length (n : Z) (fs : format_specifier) :
  (format_string_check_unused_values (set_input_length n fs)).2
  = set_input_length n (format_string_check_unused_values fs).2.
Proof. passive_field. Qed.


Lemma check_unused_values_length (l : format_string_lengths)
  (fs : format_specifier) :
  (format_string_check_unused_values (set_length l fs)).2
  = set_length l (format_string_check_unused_values fs).2.
Proof. passive_field. Qed.

Ltac fs_fields :=
  cbn [fs_input_length fs_left_justify fs_always_sign fs_empty_sign
       fs_alternate_form fs_zero_padded fs_preceding_width fs_width
       fs_preceding_precision fs_precision fs_length fs_type fs_position
       set_input_length set_preceding_width set_preceding_precision
       set_alternate_form].

Ltac octal_passive :=
  unfold write_octal, integer_digits, write_integer_backwards,
    pad_to_precision, pad_to_width;
  fs_fields; rewrite !bind_run;
  match goal with
  | |- match ?a with _ => _ end = match ?b with _ => _ end =>
      change a with b; destruct b as [? ?| | |]; [|reflexivity..]
  end;
  repeat (fs_fields; case_decide); reflexivity.

Lemma write_octal_input_length (n value : Z) (fs : format_specifier)
  (s : state) :
  write_octal value (set_input_length n fs) s = write_octal value fs s.
Proof. destruct fs. octal_passive. Qed.


Ltac directive_passive ty octal_lemma :=
  unfold emit_directive; fs_fields;
  destruct ty; try reflexivity;
  rewrite !bind_run;
  match goal with
  | |- match ?a with _ => _ end = match ?b with _ => _ end =>
      change a with b; destruct b as [? ?| | |]; [|reflexivity..]
  end;
  apply octal_lemma.

Lemma emit_directive_input_length (n : Z) (fs : format_specifier)
  (using_positions : bool) (pia : positional_info_array) (s : state) :
  emit_directive (set_input_length n fs) using_positions pia s
  = emit_directive fs using_positions pia s.
Proof.
  destruct fs as [? ? ? ? ? ? ? ? ? ? ? ty ?].
  directive_passive ty write_octal_input_length.
Qed.


Lemma emit_directive_narrow (l l' : format_string_lengths)
  (fs : format_specifier) (using_positions : bool)
  (pia : positional_info_array) (s : state) :
  fs_type fs = TYPE_c ∨ fs_type fs = TYPE_s →
  emit_directive (set_length l fs) using_positions pia s
  = emit_directive (set_length l' fs) using_positions pia s.
Proof. destruct fs. simpl. intros [-> | ->]; reflexivity. Qed.

Lemma render_directive_input_length (n : Z) (fs : format_specifier)
  (using_positions : bool) (pia : positional_info_array) (s : state) :
  render_directive (set_input_length n fs) using_positions pia s
  = render_directive fs using_positions pia s.
Proof.
  unfold render_directive.
  rewrite check_unused_values_input_length. apply emit_directive_input_length.
Qed.

(** ** C10 *)

(** The directive ".*d" next to the directive "d", which has no precision. *)
Example read_format_string_star_precision :
  ∃ fs : format_specifier,
    read_format_string ".*d" = Some (FORMAT_okay, fs)
    ∧ read_format_string "d"
      = Some (FORMAT_okay, set_input_length 1 (set_preceding_precision 0 fs))
    ∧ fs_preceding_precision fs = 1 ∧ fs_precision fs = -1.
Proof.
  exists (mk_fs 3 false false false false false 0 0 1 (-1) LENGTH_none TYPE_d 0).
  repeat split; vm_compute; reflexivity.
Qed.



Example negative_precision_scenario :
  Scenario.sprintf "%.*d|%.*d|%d" [AInt (-1); AInt 0; AInt 0; AInt 0; AInt 0]
  = Some ("0||0", 4).
Proof. vm_compute. reflexivity. Qed.

(** ** C9 *)

Example read_format_string_wide :
  (∃ fs, read_format_string "lc" = Some (FORMAT_okay, fs)
         ∧ fs_length fs = LENGTH_l ∧ fs_type fs = TYPE_c)
  ∧ (∃ fs, read_format_string "ls" = Some (FORMAT_okay, fs)
           ∧ fs_length fs = LENGTH_l ∧ fs_type fs = TYPE_s)
  ∧ (∃ fs, read_format_string "hc"
           = Some (FORMAT_ERROR_incompatible_length_type, fs)).
Proof.
  split; [|split].
  - exists (mk_fs 2 false false false false false 0 0 0 (-1) LENGTH_l TYPE_c 0).
    repeat split; vm_compute; reflexivity.
  - exists (mk_fs 2 false false false false false 0 0 0 (-1) LENGTH_l TYPE_s 0).
    repeat split; vm_compute; reflexivity.
  - exists (mk_fs 2 false false false false false 0 0 0 (-1) LENGTH_h TYPE_c 0).
    vm_compute. reflexivity.
Qed.

(** C9, as the code has it.  With c and s the validator rejects the lengths
    hh, h, ll, j, z, t and L and accepts none and l; a directive "%lc" or
    "%ls" is then rendered as "%c" or "%s": the argument is emitted as a
    narrow character or string. *)
Theorem wide_length_is_accepted (fs : format_specifier) :
  fs_type fs = TYPE_c ∨ fs_type fs = TYPE_s →
  format_string_check_length_type fs
  = (if bool_decide (fs_length fs = LENGTH_none ∨ fs_length fs = LENGTH_l)
     then FORMAT_okay else FORMAT_ERROR_incompatible_length_type)
  ∧ format_string_check_length_type (set_length LENGTH_l fs) = FORMAT_okay
  ∧ ∀ (using_positions : bool) (pia : positional_info_array) (s : state),
      render_directive (set_length LENGTH_l fs) using_positions pia s
      = render_directive (set_length LENGTH_none fs) using_positions pia s.
Proof.
  intros Hty. split; [|split].
  - unfold format_string_check_length_type.
    destruct Hty as [-> | ->]; destruct (fs_length fs); reflexivity.
  - unfold format_string_check_length_type.
    destruct fs. simpl in *. destruct Hty as [-> | ->]; reflexivity.
  - intros using_positions pia s. unfold render_directive.
    rewrite !check_unused_values_length.
    apply emit_directive_narrow. rewrite check_unused_values_type. exact Hty.
Qed.

Lemma wide_length_is_accepted_witness :
  let fs := mk_fs 2 false false false false false 0 0 0 (-1) LENGTH_l TYPE_c 0 in
  (fs_type fs = TYPE_c ∨ fs_type fs = TYPE_s)
  ∧ format_string_check_length_type fs = FORMAT_okay.
Proof.
  intros fs.
  assert (H : fs_type fs = TYPE_c ∨ fs_type fs = TYPE_s) by (left; reflexivity).
  split; [exact H|].
  destruct (wide_length_is_accepted fs H) as [Hcheck _].
  rewrite Hcheck. reflexivity.
Defined.

(** The entry point does not reject "%lc" and "%ls": it returns the count,
    and the argument has been emitted as a narrow character or string. *)
Lemma wide_directives_are_emitted :
  Scenario.sprintf "%lc" [AInt 65] = Some ("A", 1)
  ∧ Scenario.sprintf "%ls" [AString (Some "wide")] = Some ("wide", 4).
Proof. split; vm_compute; reflexivity. Qed.

(** ** C3 *)

(** C3, where the code departs from it.  For the precision [*M$] the
    pre-scan makes room for M slots but then checks and sets the slot of the
    width index.  On "%1$*2$.*3$d" slot 2 is recorded twice and slot 3 never:
    the closing loop finds slot 3 missing and the entry point returns -1
    with nothing printed.  Without a [*M$] width the slot address is
    [array - 1]. *)
Theorem prescan_records_precision_at_width_index :
  (∃ (m : memory) (pia : positional_info_array) (a : N)
     (items : list positional_info),
     parse_position_directive "1$*2$.*3$d" (mk_pia 8 (Some 1%N)) 0
       (mk_memory [] {[1%N := BItems (replicate 8 blank_item)]} 2%N [])
     = Ok (true, pia, 3) m
     ∧ pia_array pia = Some a
     ∧ m_heap m !! a = Some (BItems items)
     ∧ items !! 1%nat = Some (mk_pi LENGTH_none TYPE_i None)
     ∧ items !! 2%nat = Some blank_item)
  ∧ (∃ s' : state,
       new_printf (Some "%1$*2$.*3$d") [AInt 7; AInt 5; AInt 3]
         Scenario.machine = Ok (-1) s'
       ∧ dev_data <$> st_streams s' !! 1%N = Some [])
  ∧ new_printf (Some "%1$.*2$d") [AInt 7; AInt 5] Scenario.machine
    = Undefined.
Proof.
  split; [|split].
  - do 4 eexists. split; [vm_compute; reflexivity|].
    repeat split; reflexivity.
  - eexists. split; [vm_compute; reflexivity|reflexivity].
  - vm_compute. reflexivity.
Qed.

(** ** C4 *)

(** The cleanup loop frees the items below [count - 1] only: an item none of
    them aliases is still allocated afterwards. *)
Lemma pop_and_store_cleanup_loop_keeps (a p : N) (n : nat) (i : Z)
  (m m' : memory) :
  0 ≤ i →
  (∀ items j it,
     m_heap m !! a = Some (BItems items) → i ≤ j < i + Z.of_nat n →
     items !! Z.to_nat j = Some it → pi_item it ≠ Some p) →
  pop_and_store_cleanup_loop n (Some a) i m = Ok () m' →
  m_heap m' !! p = m_heap m !! p.
Proof.
  revert i m. induction n as [|n IH]; intros i m Hi Hsafe; simpl.
  - intros [= <-]. reflexivity.
  - unfold load_item. run.
    destruct (m_heap m !! a) as [b|] eqn:Ha; run; [|discriminate].
    destruct b as [|? ?|items]; try discriminate.
    destruct (decide (0 ≤ i)); [|lia].
    destruct (items !! Z.to_nat i) as [it|] eqn:Hit; run; [|discriminate].
    assert (Hne : pi_item it ≠ Some p)
      by (eapply (Hsafe items i); [congruence|lia|eassumption]).
    unfold free. destruct (pi_item it) as [q|] eqn:Hq.
    + run.
      destruct (m_heap m !! q) as [bq|] eqn:Hbq; run; [|discriminate].
      intros Hloop. apply IH in Hloop; [| lia |].
      * rewrite Hloop. simpl. apply lookup_delete_ne. congruence.
      * simpl. intros items' j it' Hitems' Hj Hit'.
        destruct (decide (q = a)) as [->|Hqa].
        { rewrite lookup_delete_eq in Hitems'. discriminate. }
        rewrite lookup_delete_ne in Hitems' by assumption.
        eapply (Hsafe items' j); [congruence|lia|eassumption].
    + run. intros Hloop. apply IH in Hloop; [assumption|lia|].
      intros items' j it' Hitems' Hj Hit'.
      eapply (Hsafe items' j); [congruence|lia|eassumption].
Qed.

(** C4, where the code departs from it.  [pop_and_store_cleanup] with item
    count [count] runs its loop [count - 1] times: the item at index
    [count - 1] is not released, whatever the exit path.  After "%1$d" has
    been printed the int that was stored for slot 1 is still allocated, and
    after "%2$d %1$d" the one for slot 2.  On a floating type the engine
    returns without any cleanup: the table and its items all stay
    allocated. *)
Theorem cleanup_keeps_the_last_item :
  (∀ (pia : positional_info_array) (count : Z) (a p : N) (m m' : memory)
     (items : list positional_info) (last : positional_info),
     pia_array pia = Some a →
     m_heap m !! a = Some (BItems items) →
     1 ≤ count →
     items !! Z.to_nat (count - 1) = Some last →
     pi_item last = Some p →
     (∀ j it, 0 ≤ j < count - 1 → items !! Z.to_nat j = Some it →
              pi_item it ≠ Some p) →
     pop_and_store_cleanup pia count m = Ok () m' →
     m_heap m' !! p = m_heap m !! p)
  ∧ (∃ s' : state,
       new_printf (Some "%1$d") [AInt 7] Scenario.machine = Ok 1 s'
       ∧ m_heap (st_mem s')
         = {[9%N := BObject 4 None; 11%N := BObject 4 (Some (AInt 7))]})
  ∧ (∃ s' : state,
       new_printf (Some "%2$d %1$d") [AInt 1; AInt 2] Scenario.machine
       = Ok 3 s'
       ∧ m_heap (st_mem s')
         = {[9%N := BObject 4 None; 12%N := BObject 4 (Some (AInt 2))]})
  ∧ (∃ s' : state,
       new_printf (Some "%1$f") [ADouble] Scenario.machine = Ok (-1) s'
       ∧ m_heap (st_mem s') !! 11%N = Some (BObject 8 (Some ADouble))
       ∧ is_Some (m_heap (st_mem s') !! 10%N)).
Proof.
  split; [|split; [|split]].
  - intros pia count a p m m' items last Ha Hitems Hcount Hlast Hp Halias.
    unfold pop_and_store_cleanup. rewrite Ha.
    apply pop_and_store_cleanup_loop_keeps; [lia|].
    intros items' j it Hitems' Hj Hit.
    rewrite Hitems in Hitems'. injection Hitems' as <-.
    eapply Halias; eauto. lia.
  - eexists. split; [vm_compute; reflexivity|].
    apply map_eq. intros k. vm_compute. reflexivity.
  - eexists. split; [vm_compute; reflexivity|].
    apply map_eq. intros k. vm_compute. reflexivity.
  - eexists. split; [vm_compute; reflexivity|].
    split; [reflexivity|]. eexists. reflexivity.
Qed.

(** A table of two items with count 2: the first item is freed, the second
    is still allocated. *)
Lemma cleanup_keeps_the_last_item_witness :
  let items := [mk_pi LENGTH_none TYPE_d (Some 2%N);
                mk_pi LENGTH_none TYPE_d (Some 3%N)] in
  let m := mk_memory []
             {[1%N := BItems items; 2%N := BObject 4 (Some (AInt 1));
               3%N := BObject 4 (Some (AInt 2))]} 4%N [] in
  ∃ m' : memory,
    pop_and_store_cleanup (mk_pia 8 (Some 1%N)) 2 m = Ok () m'
    ∧ m_heap m' !! 2%N = None
    ∧ m_heap m' !! 3%N = Some (BObject 4 (Some (AInt 2))).
Proof.
  intros items m.
  destruct cleanup_keeps_the_last_item as [Hkeep _].
  eexists. split; [vm_compute; reflexivity|].
  split; [vm_compute; reflexivity|].
  etransitivity.
  - eapply (Hkeep (mk_pia 8 (Some 1%N)) 2 1%N 3%N m _ items
              (mk_pi LENGTH_none TYPE_d (Some 3%N))).
    + reflexivity.
    + reflexivity.
    + lia.
    + reflexivity.
    + reflexivity.
    + intros j it Hj. replace j with 0 by lia. intros [= <-]. discriminate.
    + vm_compute. reflexivity.
  - reflexivity.
Defined.

(** ** C8 *)

Lemma resize_list_grow {A} (d : A) (l : list A) :
  resize_list (Z.of_nat (length l) + 1) d l = l ++ [d].
Proof.
  unfold resize_list.
  replace (Z.to_nat (Z.of_nat (length l) + 1)) with (S (length l)) by lia.
  rewrite take_ge by lia.
  replace (S (length l) - length l)%nat with 1%nat by lia. reflexivity.
Qed.

Lemma realloc_chars_granted (a : N) (data : list ascii) (n : Z) (m : memory) :
  m_heap m !! a = Some (BChars data) →
  head (m_oracle m) ≠ Some false →
  realloc_chars (Some (a, 0)) n m
  = Ok (Some (m_fresh m, 0))
      (mk_memory (m_valist m)
         (delete a (<[m_fresh m := BChars (resize_list n NUL data)]> (m_heap m)))
         (m_fresh m + 1)%N (tail (m_oracle m))).
Proof.
  intros Hdata Hgranted. unfold realloc_chars, realloc.
  destruct (decide (0 = 0)); [|contradiction].
  run. rewrite Hdata. run. cbn [resize_chars]. run.
  unfold malloc at 1.
  destruct (m_oracle m) as [|[] oracle] eqn:Horacle;
    [reflexivity|reflexivity|].
  exfalso. apply Hgranted. reflexivity.
Qed.

Lemma store_char_in_range (a : N) (data : list ascii) (i : Z) (c : ascii)
  (m : memory) :
  m_heap m !! a = Some (BChars data) →
  0 ≤ i < Z.of_nat (length data) →
  store_char (Some (a, 0)) i c m
  = Ok () (set_heap (<[a := BChars (<[Z.to_nat i := c]> data)]> (m_heap m)) m).
Proof.
  intros Hdata Hi. unfold store_char. run. rewrite Hdata. run.
  destruct (decide (0 ≤ 0 + i < Z.of_nat (length data))); [|lia].
  reflexivity.
Qed.

(** C8, where the code departs from it.  When the output fills the buffer
    exactly, the terminator path reallocates to the old capacity plus one
    and then doubles the capacity field: whenever the reallocation is
    granted, the buffer returned has [allocated_size + 1] bytes, the old
    contents and the terminator, and the field holds [allocated_size * 2]. *)
Theorem asprintf_capacity_field_is_doubled (s : state) (a : N)
  (data : list ascii) :
  let o := st_output s in
  out_string o = Some (a, 0) →
  m_heap (st_mem s) !! a = Some (BChars data) →
  Z.of_nat (length data) = out_allocated_size o →
  out_characters_written o = out_allocated_size o →
  out_allocated_size o + 1 ≤ SIZE_MAX →
  head (m_oracle (st_mem s)) ≠ Some false →
  m_fresh (st_mem s) ≠ a →
  ∃ (s' : state) (a' : N),
    asprintf_finish true s
    = Ok (to_int (out_characters_written o), Assigned (Some (a', 0))) s'
    ∧ m_heap (st_mem s') !! a' = Some (BChars (data ++ [NUL]))
    ∧ Z.of_nat (length (data ++ [NUL])) = out_allocated_size o + 1
    ∧ out_allocated_size (st_output s') = to_size_t (out_allocated_size o * 2).
Proof.
  intros o Hstring Hdata Hlength Hfull Hmax Hgranted Hfresh.
  assert (Hsize : to_size_t (out_allocated_size o + 1)
                  = Z.of_nat (length data) + 1)
    by (rewrite to_size_t_id by lia; lia).
  pose proof (realloc_chars_granted a data (Z.of_nat (length data) + 1)
                (st_mem s) Hdata Hgranted) as Hrealloc.
  rewrite resize_list_grow in Hrealloc.
  set (m1 := mk_memory _ _ _ _) in Hrealloc.
  assert (Hdata1 : m_heap m1 !! m_fresh (st_mem s)
                   = Some (BChars (data ++ [NUL]))).
  { subst m1. cbn [m_heap]. rewrite lookup_delete_ne by congruence.
    apply lookup_insert_eq. }
  pose proof (store_char_in_range (m_fresh (st_mem s)) (data ++ [NUL])
                (out_characters_written o) NUL m1 Hdata1) as Hstore.
  rewrite length_app in Hstore. simpl length in Hstore.
  specialize (Hstore ltac:(lia)).
  replace (<[Z.to_nat (out_characters_written o) := NUL]> (data ++ [NUL]))
    with (data ++ [NUL]) in Hstore.
  2: { rewrite insert_app_r_alt by lia.
       replace (Z.to_nat (out_characters_written o) - length data)%nat
         with 0%nat by lia. reflexivity. }
  eexists _, (m_fresh (st_mem s)). split; [|split; [|split]].
  - unfold asprintf_finish, get_output, put_output. exec. fold o.
    destruct (decide (out_allocated_size o ≤ out_characters_written o));
      [|lia].
    rewrite Hstring, Hsize, bind_run. unfold liftE at 1.
    rewrite Hrealloc. exec.
    unfold liftE. exec. rewrite Hstore. reflexivity.
  - cbn [st_mem set_mem m_heap set_heap]. apply lookup_insert_eq.
  - rewrite length_app. simpl. lia.
  - reflexivity.
Qed.

(** The buffer of 16 characters, full, as the engine leaves it after a
    16-character output. *)
Lemma asprintf_capacity_field_is_doubled_witness :
  ∃ (s' : state) (a' : N),
    asprintf_finish true
      (mk_state
         (mk_output OUTPUT_allocated_string None 0 (Some (10%N, 0)) 16
            SIZE_MAX 16)
         ∅ ∅ ∅
         (mk_memory [] {[10%N := BChars (replicate 16 "x"%char)]} 11%N []))
    = Ok (16, Assigned (Some (a', 0))) s'
    ∧ m_heap (st_mem s') !! a'
      = Some (BChars (replicate 16 "x"%char ++ [NUL]))
    ∧ out_allocated_size (st_output s') = 32.
Proof.
  edestruct (asprintf_capacity_field_is_doubled
               (mk_state
                  (mk_output OUTPUT_allocated_string None 0 (Some (10%N, 0))
                     16 SIZE_MAX 16)
                  ∅ ∅ ∅
                  (mk_memory [] {[10%N := BChars (replicate 16 "x"%char)]}
                     11%N []))
               10%N (replicate 16 "x"%char))
    as (s' & a' & Hrun & Hheap & _ & Hfield).
  - reflexivity.
  - reflexivity.
  - reflexivity.
  - reflexivity.
  - vm_compute. discriminate.
  - discriminate.
  - discriminate.
  - exists s', a'. split; [exact Hrun|]. split; [exact Hheap|exact Hfield].
Defined.

(** The entry point on a template of 16 characters: the buffer has 17 bytes
    and [allocated_size] is 32. *)
Example asprintf_sixteen_characters :
  ∃ (s' : state) (a : N) (data : list ascii),
    new_asprintf true (Some "0123456789abcdef") [] Scenario.machine
    = Ok (16, Assigned (Some (a, 0))) s'
    ∧ m_heap (st_mem s') !! a = Some (BChars data)
    ∧ length data = 17%nat
    ∧ Scenario.c_string data = "0123456789abcdef"
    ∧ out_allocated_size (st_output s') = 32.
Proof.
  do 3 eexists. split; [vm_compute; reflexivity|].
  repeat split; reflexivity.
Qed.

(** ** The engine reaches the sink through [printf_output] only *)

(** Two sinks whose [printf_output] steps correspond, character by
    character, see the engine do the same thing: it reads the sink state
    nowhere but for the count of characters written. *)
Section Simulation.

Variable R : state → state → Prop.
Variable B : state → Prop.

Hypothesis R_mem : ∀ s1 s2, R s1 s2 → st_mem s1 = st_mem s2.
Hypothesis R_set_mem :
  ∀ s1 s2 m, R s1 s2 → R (set_mem m s1) (set_mem m s2).
Hypothesis R_count :
  ∀ s1 s2, R s1 s2 →
    out_characters_written (st_output s1)
    = out_characters_written (st_output s2).
Hypothesis R_output : ∀ s1 s2 c b s2',
  R s1 s2 → printf_output c s2 = Ok b s2' →
  B s2' ∨ ∃ s1', printf_output c s1 = Ok b s1' ∧ R s1' s2'.
Hypothesis B_set_mem : ∀ s m, B s → B (set_mem m s).
Hypothesis B_output : ∀ s c b s', B s → printf_output c s = Ok b s' → B s'.

Local Abbreviation follows := (follows R B).

Lemma follows_ret {A} (a : A) : follows (mret a).
Proof.
  intros s1 s2. split.
  - intros HR a' s2' [= <- <-]. right. eauto.
  - intros HB a' s2' [= <- <-]. exact HB.
Qed.

Lemma follows_undefined {A} : follows (undefined : M A).
Proof. intros s1 s2. split; intros; discriminate. Qed.

Lemma follows_exhausted {A} : follows (exhausted : M A).
Proof. intros s1 s2. split; intros; discriminate. Qed.

Lemma follows_defined {A} (o : option A) : follows (defined o).
Proof. destruct o; [apply follows_ret|apply follows_undefined]. Qed.

Lemma follows_bind {A C} (m : M A) (f : A → M C) :
  follows m → (∀ a, follows (f a)) → follows (m ≫= f).
Proof.
  intros Hm Hf s1 s2. split.
  - intros HR c s2'. rewrite !bind_run.
    destruct (m s2) as [a t2| | |] eqn:Hm2; try discriminate.
    intros Hf2.
    destruct (proj1 (Hm s1 s2) HR a t2 Hm2) as [HB|(t1 & Hm1 & HR')].
    + left. exact (proj2 (Hf a s1 t2) HB c s2' Hf2).
    + rewrite Hm1. exact (proj1 (Hf a t1 t2) HR' c s2' Hf2).
  - intros HB c s2'. rewrite bind_run.
    destruct (m s2) as [a t2| | |] eqn:Hm2; try discriminate.
    intros Hf2.
    exact (proj2 (Hf a s1 t2) (proj2 (Hm s1 s2) HB a t2 Hm2) c s2' Hf2).
Qed.

Lemma follows_and_then (a b : M bool) :
  follows a → follows b → follows (a >>> b).
Proof.
  intros Ha Hb. unfold and_then. apply follows_bind; [exact Ha|].
  intros []; [exact Hb|apply follows_ret].
Qed.

Lemma follows_liftE {A} (e : E A) : follows (liftE e).
Proof.
  intros s1 s2. split.
  - intros HR a s2'. unfold liftE. rewrite (R_mem s1 s2 HR).
    destruct (e (st_mem s2)) as [a' m| | |]; try discriminate.
    intros [= <- <-]. right. eauto.
  - intros HB a s2'. unfold liftE.
    destruct (e (st_mem s2)) as [a' m| | |]; try discriminate.
    intros [= <- <-]. auto.
Qed.

Lemma follows_printf_output (c : ascii) : follows (printf_output c).
Proof. intros s1 s2. split; intros; eauto. Qed.

Lemma follows_characters_written : follows characters_written.
Proof.
  intros s1 s2. unfold characters_written, get_output. split.
  - intros HR a s2'. run. intros [= <- <-]. right.
    rewrite (R_count s1 s2 HR). eauto.
  - intros HB a s2'. run. intros [= <- <-]. exact HB.
Qed.

Ltac follows_step :=
  first
    [ assumption
    | apply follows_ret
    | apply follows_undefined
    | apply follows_exhausted
    | apply follows_defined
    | apply follows_liftE
    | apply follows_printf_output
    | apply follows_characters_written
    | apply follows_and_then
    | apply follows_bind; [|intro]
    | match goal with
      | |- ?P (if ?b then _ else _) => destruct b
      | |- ?P (match ?x with _ => _ end) => destruct x
      end ].

Ltac follows_all := repeat follows_step.

Lemma follows_pad_output (length : Z) (c : ascii) : follows (pad_output length c).
Proof.
  unfold pad_output. induction (Z.to_nat length); simpl; follows_all.
Qed.

Lemma follows_write_backwards_buffer (buffer : list ascii) (length : Z) :
  follows (write_backwards_buffer buffer length).
Proof.
  unfold write_backwards_buffer. generalize 0.
  induction (Z.to_nat length); intros i; simpl; follows_all. apply IHn.
Qed.

Lemma follows_write_forwards_buffer (buffer : option string) (length : Z) :
  follows (write_forwards_buffer buffer length).
Proof.
  unfold write_forwards_buffer. generalize 0.
  induction (Z.to_nat length); intros i; simpl; follows_all. apply IHn.
Qed.

Lemma follows_write_prefix (p : ascii) : follows (write_prefix p).
Proof. unfold write_prefix. follows_all. Qed.

Lemma follows_write_backwards_buffer_with_padding buffer length fs prefix
  prefix2 padding precision_padding :
  follows (write_backwards_buffer_with_padding buffer length fs prefix prefix2
             padding precision_padding).
Proof.
  unfold write_backwards_buffer_with_padding.
  destruct (fs_zero_padded fs), (fs_left_justify fs); simpl;
    repeat first [ apply follows_pad_output
                 | apply follows_write_backwards_buffer
                 | apply follows_write_prefix
                 | follows_step ].
Qed.

Lemma follows_write_string input fs : follows (write_string input fs).
Proof.
  unfold write_string, strnlen_safe.
  repeat first [ apply follows_pad_output
               | apply follows_write_forwards_buffer
               | follows_step ].
Qed.

Lemma follows_write_character value fs : follows (write_character value fs).
Proof. apply follows_write_backwards_buffer_with_padding. Qed.

Lemma follows_write_characters_written pointer fs :
  follows (write_characters_written pointer fs).
Proof. unfold write_characters_written. follows_all. Qed.

Lemma follows_integer_digits value fs base :
  follows (integer_digits value fs base).
Proof. unfold integer_digits. follows_all. Qed.

Lemma follows_write_hexadecimal value fs : follows (write_hexadecimal value fs).
Proof.
  unfold write_hexadecimal.
  apply follows_bind; [apply follows_integer_digits|]. intros buffer.
  destruct (pad_to_precision _ _).
  apply follows_write_backwards_buffer_with_padding.
Qed.

Lemma follows_write_decimal_negative value fs :
  follows (write_decimal_negative value fs).
Proof.
  unfold write_decimal_negative.
  apply follows_bind; [apply follows_defined|]. intros buffer.
  destruct (pad_to_precision _ _).
  apply follows_write_backwards_buffer_with_padding.
Qed.

Lemma follows_write_decimal_positive value fs :
  follows (write_decimal_positive value fs).
Proof.
  unfold write_decimal_positive.
  apply follows_bind; [apply follows_integer_digits|]. intros buffer.
  destruct (pad_to_precision _ _).
  apply follows_write_backwards_buffer_with_padding.
Qed.

Lemma follows_write_octal value fs : follows (write_octal value fs).
Proof.
  unfold write_octal.
  apply follows_bind; [apply follows_integer_digits|]. intros buffer.
  destruct (pad_to_precision _ _).
  apply follows_write_backwards_buffer_with_padding.
Qed.

Lemma follows_write_integer_positive value fs :
  follows (write_integer_positive value fs).
Proof.
  unfold write_integer_positive.
  destruct (fs_type fs);
    first [ apply follows_write_decimal_positive | apply follows_write_octal
          | apply follows_write_hexadecimal | apply follows_ret ].
Qed.

Lemma follows_write_pointer pointer fs : follows (write_pointer pointer fs).
Proof.
  unfold write_pointer.
  destruct (decide _);
    [apply follows_write_string|apply follows_write_hexadecimal].
Qed.

Lemma follows_emit_directive fs using_positions pia :
  follows (emit_directive fs using_positions pia).
Proof.
  unfold emit_directive.
  destruct (fs_type fs);
    repeat first [ apply follows_write_integer_positive
                 | apply follows_write_decimal_negative
                 | apply follows_write_character
                 | apply follows_write_string
                 | apply follows_write_pointer
                 | apply follows_write_characters_written
                 | follows_step ].
Qed.

Lemma follows_tidy_up using_positions pia position_count :
  follows (tidy_up using_positions pia position_count).
Proof. unfold tidy_up. follows_all. Qed.

Lemma follows_decide_positions format_start fs using_positions first_element
  pia position_count :
  follows (decide_positions format_start fs using_positions first_element pia
             position_count).
Proof.
  unfold decide_positions.
  destruct (first_element && _); [|apply follows_ret].
  apply follows_bind; [apply follows_liftE|]. intros [[ok pia'] count].
  follows_all.
Qed.

Lemma follows_generic_printf_loop fuel format_start format using_positions
  first_element pia position_count :
  follows (generic_printf_loop fuel format_start format using_positions
             first_element pia position_count).
Proof.
  revert format using_positions first_element pia position_count.
  induction fuel as [|fuel IH];
    intros format using_positions first_element pia position_count;
    cbn [generic_printf_loop].
  - destruct (decide _);
      repeat first [apply follows_tidy_up | follows_step].
  - destruct (decide _);
      [repeat first [apply follows_tidy_up | follows_step]|].
    destruct (is_char "%" format && is_char "%" (skip 1 format)).
    { apply follows_bind; [apply follows_printf_output|].
      intros []; cbn [negb]; [apply IH|apply follows_ret]. }
    destruct (is_char "%" format).
    + apply follows_bind; [apply follows_defined|]. intros [error fs].
      destruct (format_error_is_error error).
      { repeat first [apply follows_tidy_up | follows_step]. }
      apply follows_bind; [apply follows_decide_positions|].
      intros [[[up pia'] count]|]; [|apply follows_ret].
      destruct (bool_decide (fs_position fs = 0) && up).
      { repeat first [apply follows_tidy_up | follows_step]. }
      destruct (bool_decide (fs_position fs ≠ 0) && negb up).
      { repeat first [apply follows_tidy_up | follows_step]. }
      apply follows_bind; [follows_all|]. intros fs1.
      apply follows_bind; [follows_all|]. intros fs2.
      cbv zeta. destruct (is_float_type _); [apply follows_ret|].
      apply follows_bind; [apply follows_emit_directive|].
      intros []; cbn [negb]; [apply IH|].
      repeat first [apply follows_tidy_up | follows_step].
    + apply follows_bind; [apply follows_printf_output|].
      intros []; cbn [negb]; [apply IH|].
      repeat first [apply follows_tidy_up | follows_step].
Qed.

Lemma follows_generic_printf format : follows (generic_printf format).
Proof. apply follows_generic_printf_loop. Qed.

End Simulation.

(** ** The loops have iterations enough

    The two loops that are given a number of iterations never use them up:
    the doubling of the size of the slot table leaves the range of [int]
    first, and the engine moves on in the format with every iteration. *)

Lemma safe_ret {S A} (P : A → Prop) (a : A) :
  P a → safe P (mret a : comp S A).
Proof. intros H s. exact H. Qed.

Lemma safe_undefined {S A} (P : A → Prop) : safe P (undefined : comp S A).
Proof. intros s. exact I. Qed.

Lemma safe_defined {S A} (P : A → Prop) (o : option A) :
  (∀ a, o = Some a → P a) → safe P (defined o : comp S A).
Proof. intros H s. destruct o; simpl; auto. Qed.

Lemma safe_get {S} : safe (λ _, True) (get : comp S S).
Proof. intros s. exact I. Qed.

Lemma safe_modify {S} (f : S → S) : safe (λ _, True) (modify f).
Proof. intros s. exact I. Qed.

Lemma safe_bind {S A B} (P : A → Prop) (Q : B → Prop) (m : comp S A)
  (f : A → comp S B) :
  safe P m → (∀ a, P a → safe Q (f a)) → safe Q (m ≫= f).
Proof.
  intros Hm Hf s. rewrite bind_run. specialize (Hm s).
  destruct (m s) as [a s'| | |]; [|exact I|exact Hm|exact Hm]. apply Hf, Hm.
Qed.

Lemma safe_then {S A B} (Q : B → Prop) (m : comp S A) (f : A → comp S B) :
  safe (λ _, True) m → (∀ a, safe Q (f a)) → safe Q (m ≫= f).
Proof. intros Hm Hf. apply (safe_bind (λ _, True)); auto. Qed.

Lemma safe_and_then {S} (a b : comp S bool) :
  safe (λ _, True) a → safe (λ _, True) b → safe (λ _, True) (a >>> b).
Proof.
  intros Ha Hb s. rewrite and_then_run. specialize (Ha s).
  destruct (a s) as [[] s'| | |]; auto. apply Hb.
Qed.

Lemma safe_liftE {A} (P : A → Prop) (e : E A) : safe P e → safe P (liftE e).
Proof.
  intros He s. unfold liftE. specialize (He (st_mem s)).
  destruct (e (st_mem s)); auto.
Qed.

Lemma safe_weaken {S A} (P Q : A → Prop) (m : comp S A) :
  safe P m → (∀ a, P a → Q a) → safe Q m.
Proof.
  intros Hm HPQ s. specialize (Hm s). destruct (m s); auto.
Qed.

Lemma safe_malloc (b : block) : safe (λ _, True) (malloc b).
Proof. intros m. unfold malloc. destruct (m_oracle m) as [|[] ?]; exact I. Qed.

Create HintDb safe.
#[local] Hint Resolve safe_undefined safe_get safe_modify safe_malloc : safe.

Ltac safe_step :=
  first
    [ assumption
    | apply safe_ret; first [exact I | assumption]
    | apply safe_defined; intros; exact I
    | solve [auto 1 with safe]
    | match goal with
      | |- safe _ (liftE _) => apply safe_liftE
      | |- safe _ (_ >>> _) => apply safe_and_then
      | |- safe _ (_ ≫= _) => apply safe_then; [|intro]
      | |- safe _ (if ?b then _ else _) => destruct b
      | |- safe _ (match ?x with _ => _ end) => destruct x
      end
    | progress cbv zeta ].

Ltac safe_all := repeat safe_step.

(** *** The memory *)

Lemma safe_free p : safe (λ _, True) (free p).
Proof. unfold free. safe_all. Qed.

Lemma safe_realloc p resize : safe (λ _, True) (realloc p resize).
Proof. unfold realloc. safe_all. Qed.

Lemma safe_va_arg : safe (λ _, True) va_arg.
Proof. unfold va_arg. safe_all. Qed.

#[local] Hint Resolve safe_free safe_realloc safe_va_arg : safe.

Lemma safe_va_arg_integer conv : safe (λ _, True) (va_arg_integer conv).
Proof. unfold va_arg_integer. safe_all. Qed.

Lemma safe_va_arg_double : safe (λ _, True) va_arg_double.
Proof. unfold va_arg_double. safe_all. Qed.

Lemma safe_va_arg_string : safe (λ _, True) va_arg_string.
Proof. unfold va_arg_string. safe_all. Qed.

Lemma safe_va_arg_pointer : safe (λ _, True) va_arg_pointer.
Proof. unfold va_arg_pointer. safe_all. Qed.

Lemma safe_va_arg_target : safe (λ _, True) va_arg_target.
Proof. unfold va_arg_target. safe_all. Qed.

Lemma safe_load_object size p : safe (λ _, True) (load_object size p).
Proof. unfold load_object. safe_all. Qed.

Lemma safe_store_object size p v : safe (λ _, True) (store_object size p v).
Proof. unfold store_object. safe_all. Qed.

#[local] Hint Resolve safe_va_arg_integer safe_va_arg_double
  safe_va_arg_string safe_va_arg_pointer safe_va_arg_target safe_load_object
  safe_store_object : safe.

Lemma safe_load_integer size conv p :
  safe (λ _, True) (load_integer size conv p).
Proof. unfold load_integer. safe_all. Qed.

Lemma safe_load_string p : safe (λ _, True) (load_string p).
Proof. unfold load_string. safe_all. Qed.

Lemma safe_load_pointer p : safe (λ _, True) (load_pointer p).
Proof. unfold load_pointer. safe_all. Qed.

Lemma safe_load_target p : safe (λ _, True) (load_target p).
Proof. unfold load_target. safe_all. Qed.

Lemma safe_load_item array i : safe (λ _, True) (load_item array i).
Proof. unfold load_item. safe_all. Qed.

Lemma safe_store_item array i it : safe (λ _, True) (store_item array i it).
Proof. unfold store_item. safe_all. Qed.

Lemma safe_store_char p i c : safe (λ _, True) (store_char p i c).
Proof. unfold store_char. safe_all. Qed.

#[local] Hint Resolve safe_load_integer safe_load_string safe_load_pointer
  safe_load_target safe_load_item safe_store_item safe_store_char : safe.


(** *** The sinks and the emitters *)

Lemma safe_printf_output c : safe (λ _, True) (printf_output c).
Proof.
  unfold printf_output, printf_output_sprintf, printf_output_fprintf,
    printf_output_dprintf, printf_output_asprintf, count_character,
    get_output, put_output, putc, write, store_buffer, realloc_chars,
    free_chars, malloc_chars.
  safe_all.
Qed.

Lemma safe_characters_written : safe (λ _, True) characters_written.
Proof. unfold characters_written, get_output. safe_all. Qed.

#[local] Hint Resolve safe_printf_output safe_characters_written : safe.

Lemma safe_pad_output length c : safe (λ _, True) (pad_output length c).
Proof. unfold pad_output. induction (Z.to_nat length); simpl; safe_all. Qed.

Lemma safe_write_backwards_buffer buffer length :
  safe (λ _, True) (write_backwards_buffer buffer length).
Proof.
  unfold write_backwards_buffer. generalize 0.
  induction (Z.to_nat length); intros i; simpl; safe_all; auto.
Qed.

Lemma safe_write_forwards_buffer buffer length :
  safe (λ _, True) (write_forwards_buffer buffer length).
Proof.
  unfold write_forwards_buffer. generalize 0.
  induction (Z.to_nat length); intros i; simpl; safe_all; auto.
Qed.

Lemma safe_write_prefix p : safe (λ _, True) (write_prefix p).
Proof. unfold write_prefix. safe_all. Qed.

#[local] Hint Resolve safe_pad_output safe_write_backwards_buffer
  safe_write_forwards_buffer safe_write_prefix : safe.

Lemma safe_write_backwards_buffer_with_padding buffer length fs prefix
  prefix2 padding precision_padding :
  safe (λ _, True)
    (write_backwards_buffer_with_padding buffer length fs prefix prefix2
       padding precision_padding).
Proof. unfold write_backwards_buffer_with_padding. safe_all. Qed.

Lemma safe_write_string input fs : safe (λ _, True) (write_string input fs).
Proof. unfold write_string, strnlen_safe. safe_all. Qed.

Lemma safe_write_characters_written pointer fs :
  safe (λ _, True) (write_characters_written pointer fs).
Proof. unfold write_characters_written. safe_all. Qed.

Lemma safe_integer_digits value fs base :
  safe (λ _, True) (integer_digits value fs base).
Proof. unfold integer_digits. safe_all. Qed.

#[local] Hint Resolve safe_write_backwards_buffer_with_padding
  safe_write_string safe_write_characters_written safe_integer_digits : safe.

Lemma safe_write_character value fs :
  safe (λ _, True) (write_character value fs).
Proof. unfold write_character. safe_all. Qed.

Lemma safe_write_hexadecimal value fs :
  safe (λ _, True) (write_hexadecimal value fs).
Proof. unfold write_hexadecimal. safe_all. Qed.

Lemma safe_write_decimal_negative value fs :
  safe (λ _, True) (write_decimal_negative value fs).
Proof. unfold write_decimal_negative. safe_all. Qed.

Lemma safe_write_decimal_positive value fs :
  safe (λ _, True) (write_decimal_positive value fs).
Proof. unfold write_decimal_positive. safe_all. Qed.

Lemma safe_write_octal value fs : safe (λ _, True) (write_octal value fs).
Proof. unfold write_octal. safe_all. Qed.

#[local] Hint Resolve safe_write_character safe_write_hexadecimal
  safe_write_decimal_negative safe_write_decimal_positive safe_write_octal
  : safe.

Lemma safe_write_integer_positive value fs :
  safe (λ _, True) (write_integer_positive value fs).
Proof. unfold write_integer_positive. safe_all. Qed.

Lemma safe_write_pointer pointer fs :
  safe (λ _, True) (write_pointer pointer fs).
Proof. unfold write_pointer. safe_all. Qed.

#[local] Hint Resolve safe_write_integer_positive safe_write_pointer : safe.

(** *** The arguments *)

Lemma safe_item_of items position : safe (λ _, True) (item_of items position).
Proof. unfold item_of. safe_all. Qed.

#[local] Hint Resolve safe_item_of : safe.

Lemma safe_pop_or_load_integer fs using_positions items :
  safe (λ _, True) (pop_or_load_integer fs using_positions items).
Proof. unfold pop_or_load_integer. safe_all. Qed.

Lemma safe_pop_or_load_unsigned_integer fs using_positions items :
  safe (λ _, True) (pop_or_load_unsigned_integer fs using_positions items).
Proof. unfold pop_or_load_unsigned_integer. safe_all. Qed.

Lemma safe_pop_or_load_character fs using_positions items :
  safe (λ _, True) (pop_or_load_character fs using_positions items).
Proof. unfold pop_or_load_character. safe_all. Qed.

Lemma safe_pop_or_load_string fs using_positions items :
  safe (λ _, True) (pop_or_load_string fs using_positions items).
Proof. unfold pop_or_load_string. safe_all. Qed.

Lemma safe_pop_or_load_pointer fs using_positions items :
  safe (λ _, True) (pop_or_load_pointer fs using_positions items).
Proof. unfold pop_or_load_pointer. safe_all. Qed.

Lemma safe_pop_or_load_width_precision using_positions items position :
  safe (λ _, True)
    (pop_or_load_width_precision using_positions items position).
Proof. unfold pop_or_load_width_precision. safe_all. Qed.

Lemma safe_pop_or_load_n_pointer fs using_positions items :
  safe (λ _, True) (pop_or_load_n_pointer fs using_positions items).
Proof. unfold pop_or_load_n_pointer. safe_all. Qed.

#[local] Hint Resolve safe_pop_or_load_integer
  safe_pop_or_load_unsigned_integer safe_pop_or_load_character
  safe_pop_or_load_string safe_pop_or_load_pointer
  safe_pop_or_load_width_precision safe_pop_or_load_n_pointer : safe.

Lemma safe_pop_and_store array i size (fetch : E arg) :
  safe (λ _, True) fetch → safe (λ _, True) (pop_and_store array i size fetch).
Proof. intros Hfetch. unfold pop_and_store, set_item. safe_all. Qed.

Lemma safe_pop_and_store_integer array i :
  safe (λ _, True) (pop_and_store_integer array i).
Proof.
  unfold pop_and_store_integer.
  repeat first [apply safe_pop_and_store | safe_step].
Qed.

Lemma safe_pop_and_store_unsigned_integer array i :
  safe (λ _, True) (pop_and_store_unsigned_integer array i).
Proof.
  unfold pop_and_store_unsigned_integer.
  repeat first [apply safe_pop_and_store | safe_step].
Qed.

Lemma safe_pop_and_store_floating_point array i :
  safe (λ _, True) (pop_and_store_floating_point array i).
Proof.
  unfold pop_and_store_floating_point.
  repeat first [apply safe_pop_and_store | safe_step].
Qed.

Lemma safe_pop_and_store_character array i :
  safe (λ _, True) (pop_and_store_character array i).
Proof.
  unfold pop_and_store_character.
  repeat first [apply safe_pop_and_store | safe_step].
Qed.

Lemma safe_pop_and_store_pointer array i :
  safe (λ _, True) (pop_and_store_pointer array i).
Proof.
  unfold pop_and_store_pointer.
  repeat first [apply safe_pop_and_store | safe_step].
Qed.

Lemma safe_pop_and_store_string array i :
  safe (λ _, True) (pop_and_store_string array i).
Proof.
  unfold pop_and_store_string.
  repeat first [apply safe_pop_and_store | safe_step].
Qed.

Lemma safe_pop_and_store_n_pointer array i :
  safe (λ _, True) (pop_and_store_n_pointer array i).
Proof.
  unfold pop_and_store_n_pointer.
  repeat first [apply safe_pop_and_store | safe_step].
Qed.

Lemma safe_pop_and_store_cleanup pia count :
  safe (λ _, True) (pop_and_store_cleanup pia count).
Proof.
  unfold pop_and_store_cleanup. generalize 0.
  induction (Z.to_nat (count - 1)); intros i; simpl; safe_all; auto.
Qed.

#[local] Hint Resolve safe_pop_and_store_integer
  safe_pop_and_store_unsigned_integer safe_pop_and_store_floating_point
  safe_pop_and_store_character safe_pop_and_store_pointer
  safe_pop_and_store_string safe_pop_and_store_n_pointer
  safe_pop_and_store_cleanup : safe.

Lemma safe_pop_and_store_argument_list pia count :
  safe (λ _, True) (pop_and_store_argument_list pia count).
Proof.
  unfold pop_and_store_argument_list. generalize 0.
  induction (Z.to_nat count); intros i; simpl; safe_all; auto.
Qed.

Lemma safe_initialise_items n array i :
  safe (λ _, True) (initialise_items n array i).
Proof. revert i. induction n; intros i; simpl; safe_all; auto. Qed.

Lemma safe_all_slots_given n array i :
  safe (λ _, True) (all_slots_given n array i).
Proof. revert i. induction n; intros i; simpl; safe_all; auto. Qed.

Lemma safe_realloc_items p n : safe (λ _, True) (realloc_items p n).
Proof. unfold realloc_items, malloc_items. safe_all. Qed.

#[local] Hint Resolve safe_pop_and_store_argument_list safe_initialise_items
  safe_all_slots_given safe_realloc_items : safe.


(** *** The pre-scan *)

Lemma safe_double_until (fuel : nat) (current required : Z) :
  0 < current ≤ INT_MAX → 2 ^ 31 ≤ current * 2 ^ Z.of_nat fuel →
  safe (λ c, 0 < c ≤ INT_MAX) (double_until fuel current required).
Proof.
  revert current.
  induction fuel as [|fuel IH]; intros current Hc Hfuel; cbn [double_until].
  - destruct (decide _); [|apply safe_ret; assumption].
    exfalso. unfold INT_MAX in Hc. simpl in Hfuel. lia.
  - destruct (decide _); [|apply safe_ret; assumption].
    apply (safe_bind (λ c, c = current * 2 ∧ c ≤ INT_MAX)).
    + apply safe_defined. intros a Ha. unfold int_checked in Ha.
      case_decide; [|discriminate]. injection Ha as <-. lia.
    + intros c [-> Hle]. apply IH; [lia|].
      rewrite Nat2Z.inj_succ, Z.pow_succ_r in Hfuel by lia. lia.
Qed.

Lemma safe_pia_check_size_and_update pia required_size :
  pia_sized pia →
  safe (λ r, pia_sized r.2) (pia_check_size_and_update pia required_size).
Proof.
  intros Hpia. unfold pia_check_size_and_update.
  destruct (decide _); [|apply safe_ret; exact Hpia].
  apply (safe_bind (λ c, 0 < c ≤ INT_MAX)).
  { apply safe_double_until; [exact Hpia|].
    destruct Hpia as [Hpos _]. change (2 ^ Z.of_nat 32) with (2 ^ 31 * 2). lia. }
  intros current_size Hcurrent.
  apply safe_then; [auto with safe|]. intros [new_array|].
  - apply safe_then; [auto with safe|]. intros _.
    apply safe_ret. exact Hcurrent.
  - apply safe_ret. exact Hpia.
Qed.

Lemma safe_pia_initialise pia :
  safe (λ r, r.1 = true → pia_sized r.2) (pia_initialise pia).
Proof.
  unfold pia_initialise, malloc_items.
  apply safe_then; [auto with safe|]. intros [array|].
  - apply safe_then; [auto with safe|]. intros _. apply safe_ret.
    intros _. unfold pia_sized, DEFAULT_PIA_SIZE, INT_MAX. simpl. lia.
  - apply safe_ret. discriminate.
Qed.

Lemma safe_record_slot pia required_size index type length :
  pia_sized pia →
  safe (λ r, pia_sized r.2) (record_slot pia required_size index type length).
Proof.
  intros Hpia. unfold record_slot.
  apply (safe_bind (λ r, pia_sized r.2));
    [apply safe_pia_check_size_and_update; exact Hpia|].
  intros [ok pia'] Hpia'. simpl in Hpia'.
  destruct (negb ok).
  { apply safe_then; [auto with safe|]. intros _. apply safe_ret. exact Hpia'. }
  apply safe_then; [auto with safe|]. intros current_item.
  destruct (_ && _).
  - apply safe_then; [auto with safe|]. intros _. apply safe_ret. exact Hpia'.
  - apply safe_then; [auto with safe|]. intros _. apply safe_ret. exact Hpia'.
Qed.

Lemma safe_parse_position_directive format pia max_found :
  pia_sized pia →
  safe (λ r, pia_sized r.1.2) (parse_position_directive format pia max_found).
Proof.
  intros Hpia. unfold parse_position_directive.
  apply safe_then; [safe_all|]. intros [error fs].
  destruct (format_error_is_error error).
  { apply safe_then; [auto with safe|]. intros _. apply safe_ret. exact Hpia. }
  destruct (decide (fs_position fs = 0)).
  { apply safe_then; [auto with safe|]. intros _. apply safe_ret. exact Hpia. }
  apply (safe_bind (λ r, pia_sized r.1.2)).
  { destruct (decide _); [|apply safe_ret; exact Hpia].
    apply (safe_bind (λ r, pia_sized r.2));
      [apply safe_record_slot; exact Hpia|].
    intros [ok pia'] Hpia'. apply safe_ret. exact Hpia'. }
  intros [[ok pia1] max1] Hpia1. simpl in Hpia1.
  destruct (negb ok); [apply safe_ret; exact Hpia1|].
  apply (safe_bind (λ r, pia_sized r.1.2)).
  { destruct (decide _); [|apply safe_ret; exact Hpia1].
    apply (safe_bind (λ r, pia_sized r.2));
      [apply safe_record_slot; exact Hpia1|].
    intros [ok' pia'] Hpia'. apply safe_ret. exact Hpia'. }
  intros [[ok2 pia2] max2] Hpia2. simpl in Hpia2.
  destruct (negb ok2); [apply safe_ret; exact Hpia2|].
  apply (safe_bind (λ r, pia_sized r.2));
    [apply safe_record_slot; exact Hpia2|].
  intros [ok' pia'] Hpia'. apply safe_ret. exact Hpia'.
Qed.

Lemma safe_parse_positions_loop format pia max_found :
  pia_sized pia →
  safe (λ _, True) (parse_positions_loop format pia max_found).
Proof.
  remember (String.length format) as n eqn:Hn.
  assert (Hle : (String.length format ≤ n)%nat) by lia. clear Hn.
  revert format pia max_found Hle.
  induction n as [|n IH]; intros format pia max_found Hle Hpia;
    (destruct format as [|c rest]; [apply safe_ret; exact I|]);
    simpl in Hle; [lia|].
  cbn [parse_positions_loop].
  destruct (decide (c = NUL)); [apply safe_ret; exact I|].
  destruct (decide (c = "%"%char)); [|apply IH; [lia|exact Hpia]].
  assert (Hdirective :
    safe (λ _, True)
      ('(ok, pia, max_found) ← parse_position_directive rest pia max_found;
       if ok : bool then parse_positions_loop rest pia max_found
       else mret (false, pia, max_found))).
  { apply (safe_bind (λ r, pia_sized r.1.2));
      [apply safe_parse_position_directive; exact Hpia|].
    intros [[ok pia'] max'] Hpia'. simpl in Hpia'.
    destruct ok; [apply IH; [lia|exact Hpia']|apply safe_ret; exact I]. }
  destruct rest as [|[[] [] [] [] [] [] [] []] rest'];
    first [exact Hdirective | apply IH; [simpl in Hle; lia|exact Hpia]].
Qed.

Lemma safe_parse_format_string_for_positions format pia max :
  safe (λ _, True) (parse_format_string_for_positions format pia max).
Proof.
  unfold parse_format_string_for_positions.
  apply (safe_bind (λ r, r.1 = true → pia_sized r.2));
    [apply safe_pia_initialise|].
  intros [[] pia'] Hpia'; cbn [negb]; [|apply safe_ret; exact I].
  apply safe_then; [apply safe_parse_positions_loop; auto|].
  intros [[ok pia2] max_found]. safe_all.
Qed.

#[local] Hint Resolve safe_parse_format_string_for_positions : safe.

(** *** The engine *)

Lemma safe_emit_directive fs using_positions pia :
  safe (λ _, True) (emit_directive fs using_positions pia).
Proof. unfold emit_directive. safe_all. Qed.

Lemma safe_tidy_up using_positions pia position_count :
  safe (λ _, True) (tidy_up using_positions pia position_count).
Proof. unfold tidy_up. safe_all. Qed.

Lemma safe_decide_positions format_start fs using_positions first_element
  pia position_count :
  safe (λ _, True)
    (decide_positions format_start fs using_positions first_element pia
       position_count).
Proof. unfold decide_positions. safe_all. Qed.

#[local] Hint Resolve safe_emit_directive safe_tidy_up safe_decide_positions
  : safe.

Lemma skip_length (n : nat) (format : string) :
  String.length (skip n format) = (String.length format - n)%nat.
Proof.
  revert format. induction n as [|n IH]; intros [|c rest]; simpl; auto.
Qed.

Lemma peek_not_NUL (format : string) :
  peek format ≠ NUL → (1 ≤ String.length format)%nat.
Proof. destruct format; simpl; [congruence|lia]. Qed.

Lemma safe_generic_printf_loop fuel format_start format using_positions
  first_element pia position_count :
  (String.length format ≤ fuel)%nat →
  safe (λ _, True)
    (generic_printf_loop fuel format_start format using_positions
       first_element pia position_count).
Proof.
  revert format using_positions first_element pia position_count.
  induction fuel as [|fuel IH];
    intros format using_positions first_element pia position_count Hfuel;
    cbn [generic_printf_loop].
  - destruct (decide (peek format = NUL)) as [|Hpeek]; [safe_all|].
    apply peek_not_NUL in Hpeek. lia.
  - destruct (decide (peek format = NUL)) as [|Hpeek]; [safe_all|].
    apply peek_not_NUL in Hpeek.
    assert (Hnext : ∀ n m, (String.length
                              (skip n (skip (S m) format)) ≤ fuel)%nat)
      by (intros n m; rewrite !skip_length; lia).
    destruct (is_char "%" format && is_char "%" (skip 1 format)).
    { apply safe_then; [auto with safe|].
      intros []; cbn [negb]; [apply (IH _ _ _ _ _ (Hnext 0%nat 1%nat))|safe_all]. }
    destruct (is_char "%" format).
    + apply safe_then; [safe_all|]. intros [error fs].
      destruct (format_error_is_error error); [safe_all|].
      apply safe_then; [auto with safe|].
      intros [[[up pia'] count]|]; [|safe_all].
      destruct (bool_decide (fs_position fs = 0) && up); [safe_all|].
      destruct (bool_decide (fs_position fs ≠ 0) && negb up); [safe_all|].
      apply safe_then; [safe_all|]. intros fs1.
      apply safe_then; [safe_all|]. intros fs2.
      cbv zeta. destruct (is_float_type _); [safe_all|].
      apply safe_then; [auto with safe|].
      intros []; cbn [negb]; [|safe_all].
      apply IH. apply (Hnext _ 0%nat).
    + apply safe_then; [auto with safe|].
      intros []; cbn [negb]; [|safe_all].
      apply (IH _ _ _ _ _ (Hnext 0%nat 0%nat)).
Qed.

(** The engine returns or meets undefined behaviour, for every format. *)
Lemma generic_printf_never_exhausted (format : string) (s : state) :
  generic_printf format s ≠ Exhausted.
Proof.
  pose proof (safe_generic_printf_loop (String.length format) format format
                false true (mk_pia 0 None) 0 (le_n _) s) as H.
  unfold generic_printf. intros Heq. rewrite Heq in H. exact H.
Qed.



(** *** The iterations left over do not matter *)

(** Two computations that start with the same step. *)
Tactic Notation "same_head" ident(x) :=
  match goal with
  | |- (?m ≫= _) ?s = (?m ≫= _) ?s =>
      rewrite !(bind_run m); destruct (m s) as [x ?| | |]; [|reflexivity..]
  end.

(** Past the first directive the engine reads neither the start of the
    format nor the number of iterations it has left. *)
Lemma generic_printf_loop_fuel (fuel fuel' : nat)
  (format_start format_start' format : string) (using_positions : bool)
  (pia : positional_info_array) (position_count : Z) (s : state) :
  (String.length format ≤ fuel)%nat → (String.length format ≤ fuel')%nat →
  generic_printf_loop fuel format_start format using_positions false pia
    position_count s
  = generic_printf_loop fuel' format_start' format using_positions false pia
      position_count s.
Proof.
  revert fuel' format using_positions pia position_count s.
  induction fuel as [|fuel IH];
    intros fuel' format using_positions pia position_count s Hfuel Hfuel'.
  - destruct format; [|simpl in Hfuel; lia].
    destruct fuel'; reflexivity.
  - destruct fuel' as [|fuel'].
    { destruct format; [reflexivity|simpl in Hfuel'; lia]. }
    cbn [generic_printf_loop].
    destruct (decide (peek format = NUL)) as [|Hpeek]; [reflexivity|].
    apply peek_not_NUL in Hpeek.
    assert (Hnext : ∀ n m, (String.length
                              (skip n (skip (S m) format)) ≤ fuel)%nat)
      by (intros n m; rewrite !skip_length; lia).
    assert (Hnext' : ∀ n m, (String.length
                               (skip n (skip (S m) format)) ≤ fuel')%nat)
      by (intros n m; rewrite !skip_length; lia).
    destruct (is_char "%" format && is_char "%" (skip 1 format)).
    { same_head result. destruct result; cbn [negb]; [|reflexivity].
      apply (IH _ _ _ _ _ _ (Hnext 0%nat 1%nat) (Hnext' 0%nat 1%nat)). }
    destruct (is_char "%" format).
    + same_head parsed. destruct parsed as [error fs].
      destruct (format_error_is_error error); [reflexivity|].
      unfold decide_positions. cbn [andb]. run.
      destruct (bool_decide (fs_position fs = 0) && using_positions);
        [reflexivity|].
      destruct (bool_decide (fs_position fs ≠ 0) && negb using_positions);
        [reflexivity|].
      same_head fs1. same_head fs2. cbv zeta.
      destruct (is_float_type _); [reflexivity|].
      same_head result. destruct result; cbn [negb]; [|reflexivity].
      apply IH; [apply (Hnext _ 0%nat)|apply (Hnext' _ 0%nat)].
    + same_head result. destruct result; cbn [negb]; [|reflexivity].
      apply (IH _ _ _ _ _ _ (Hnext 0%nat 0%nat) (Hnext' 0%nat 0%nat)).
Qed.

(** ** C6 *)

(** The directives "%*d" and "%-*d" as the parser returns them: they differ
    in the left-justify flag and in the number of characters read. *)
Example read_format_string_star_width :
  ∃ fs : format_specifier,
    read_format_string "*d" = Some (FORMAT_okay, fs)
    ∧ read_format_string "-*d"
      = Some (FORMAT_okay, set_input_length 3 (set_left_justify true fs))
    ∧ fs_preceding_width fs = 1.
Proof.
  exists (mk_fs 2 false false false false false 1 0 0 (-1) LENGTH_none TYPE_d 0).
  repeat split; vm_compute; reflexivity.
Qed.

Lemma check_unused_values_preceding_width (n : Z) (fs : format_specifier) :
  (format_string_check_unused_values (set_preceding_width n fs)).2
  = set_preceding_width n (format_string_check_unused_values fs).2.
Proof. passive_field. Qed.

Lemma check_unused_values_keeps_input_length (fs : format_specifier) :
  fs_input_length (format_string_check_unused_values fs).2
  = fs_input_length fs.
Proof.
  apply (check_unused_values_preserves
           (λ fs', fs_input_length fs' = fs_input_length fs));
    try (intros [] *; simpl; auto); reflexivity.
Qed.

Lemma check_unused_values_keeps_type (fs : format_specifier) :
  fs_type (format_string_check_unused_values fs).2 = fs_type fs.
Proof.
  apply (check_unused_values_preserves (λ fs', fs_type fs' = fs_type fs));
    try (intros [] *; simpl; auto); reflexivity.
Qed.

Lemma write_octal_preceding_width (n value : Z) (fs : format_specifier)
  (s : state) :
  write_octal value (set_preceding_width n fs) s = write_octal value fs s.
Proof. destruct fs. octal_passive. Qed.

Lemma emit_directive_preceding_width (n : Z) (fs : format_specifier)
  (using_positions : bool) (pia : positional_info_array) (s : state) :
  emit_directive (set_preceding_width n fs) using_positions pia s
  = emit_directive fs using_positions pia s.
Proof.
  destruct fs as [? ? ? ? ? ? ? ? ? ? ? ty ?].
  directive_passive ty write_octal_preceding_width.
Qed.

(** What is left of an iteration of the engine once the width has been
    fetched reads neither [input_length], but to move on in the format, nor
    [preceding_width]. *)
Lemma render_directive_preceding_width (n : Z) (fs : format_specifier)
  (using_positions : bool) (pia : positional_info_array) (s : state) :
  render_directive (set_preceding_width n fs) using_positions pia s
  = render_directive fs using_positions pia s.
Proof.
  unfold render_directive.
  rewrite check_unused_values_preceding_width.
  apply emit_directive_preceding_width.
Qed.

Lemma apply_width_negative (fs : format_specifier) (width : Z) :
  INT_MIN ≤ width < 0 →
  apply_width width fs
  = set_width (if decide (width = INT_MIN) then INT_MAX else Z.abs width)
      (set_left_justify true fs).
Proof.
  intros Hw. unfold apply_width. destruct (decide (0 ≤ width)); [lia|].
  destruct (decide (width = INT_MIN)); [reflexivity|].
  rewrite Z.abs_neq by lia. reflexivity.
Qed.

Lemma bind_map_cong {A B C} (m : M A) (h h' : A → B) (k k' : B → M C)
  (s : state) :
  (∀ a s0, k (h a) s0 = k' (h' a) s0) →
  ((m ≫= λ a, mret (h a)) ≫= k) s = ((m ≫= λ a, mret (h' a)) ≫= k') s.
Proof.
  intros H. rewrite !bind_run. destruct (m s); try reflexivity.
  cbn [mret comp_ret]. apply H.
Qed.

(** The iteration of the engine from the step that fetches the precision
    on, for two specifiers that differ in [input_length] and in
    [preceding_width] only and that leave the same text to read. *)
Lemma generic_printf_loop_after_width (n k0 : Z) (fs : format_specifier)
  (fuel fuel' : nat) (format_start format_start' format format' : string)
  (using_positions : bool) (pia : positional_info_array)
  (position_count : Z) (s : state) :
  let fs' := set_preceding_width k0 (set_input_length n fs) in
  skip (Z.to_nat (fs_input_length fs)) format = skip (Z.to_nat n) format' →
  (String.length format ≤ fuel)%nat → (String.length format' ≤ fuel')%nat →
  (fs ← (if decide (fs_preceding_precision fs ≠ 0) then
           precision ← liftE (pop_or_load_width_precision using_positions
                                (pia_array pia) (fs_preceding_precision fs));
           mret (apply_precision precision fs)
         else mret fs);
   let fs := (format_string_check_unused_values fs).2 in
   if is_float_type (fs_type fs) then mret false
   else
     result ← emit_directive fs using_positions pia;
     if negb result then
       _ ← tidy_up using_positions pia position_count; mret false
     else
       generic_printf_loop fuel format_start
         (skip (Z.to_nat (fs_input_length fs)) format) using_positions false
         pia position_count) s
  = (fs ← (if decide (fs_preceding_precision fs' ≠ 0) then
             precision ← liftE (pop_or_load_width_precision using_positions
                                  (pia_array pia)
                                  (fs_preceding_precision fs'));
             mret (apply_precision precision fs')
           else mret fs');
     let fs := (format_string_check_unused_values fs).2 in
     if is_float_type (fs_type fs) then mret false
     else
       result ← emit_directive fs using_positions pia;
       if negb result then
         _ ← tidy_up using_positions pia position_count; mret false
       else
         generic_printf_loop fuel' format_start'
           (skip (Z.to_nat (fs_input_length fs)) format') using_positions
           false pia position_count) s.
Proof.
  intros fs' Hrest Hfuel Hfuel'.
  match goal with
  | |- (_ ≫= ?K) _ = (_ ≫= ?K') _ => set (k := K); set (k' := K')
  end.
  assert (Hfinish : ∀ (fsp : format_specifier) (s0 : state),
    fs_input_length fsp = fs_input_length fs →
    k fsp s0 = k' (set_preceding_width k0 (set_input_length n fsp)) s0).
  { intros fsp s0 Hlength. subst k k'. cbv beta zeta.
    rewrite check_unused_values_preceding_width,
      check_unused_values_input_length.
    set (fsn := (format_string_check_unused_values fsp).2).
    assert (Hn : fs_input_length fsn = fs_input_length fs)
      by (subst fsn; rewrite check_unused_values_keeps_input_length;
          exact Hlength).
    replace (fs_type (set_preceding_width k0 (set_input_length n fsn)))
      with (fs_type fsn) by (destruct fsn; reflexivity).
    destruct (is_float_type (fs_type fsn)); [reflexivity|].
    rewrite !bind_run.
    rewrite emit_directive_preceding_width, emit_directive_input_length.
    destruct (emit_directive fsn using_positions pia s0)
      as [[] s1| | |]; try reflexivity.
    cbn [negb].
    replace (fs_input_length
               (set_preceding_width k0 (set_input_length n fsn)))
      with n by (destruct fsn; reflexivity).
    rewrite Hn, Hrest.
    apply generic_printf_loop_fuel;
      [rewrite <- Hrest|]; rewrite skip_length; lia. }
  replace (fs_preceding_precision fs') with (fs_preceding_precision fs)
    by (destruct fs; reflexivity).
  destruct (decide (fs_preceding_precision fs ≠ 0)).
  - apply bind_map_cong. intros precision s0.
    replace (apply_precision precision fs')
      with (set_preceding_width k0
              (set_input_length n (apply_precision precision fs)))
      by (unfold apply_precision; destruct (decide (0 ≤ precision));
          destruct fs; reflexivity).
    apply Hfinish.
    unfold apply_precision. destruct (decide (0 ≤ precision));
      destruct fs; reflexivity.
  - rewrite !bind_run. cbn [mret comp_ret]. apply Hfinish. reflexivity.
Qed.

(** C6.  A width below 0 fetched from an argument is re-expressed as the
    left-justify flag and the width |w|, the minimum int being clamped to the
    maximum int.  So a directive with a negative width argument is rendered
    as the directive with the [-] flag and the absolute value; and so does
    the engine run: when [generic_printf] comes to a directive whose width
    it fetches from an argument, by [*] from the argument list or by [*M$]
    from the slot of a position, and the value fetched is [width], it goes on
    exactly as it does from a directive that has the [-] flag besides and
    whose width argument is the absolute value (the maximum int for the
    minimum int): the two runs emit the same characters, return the same
    value and end in the same state. *)
Theorem negative_width_argument (fs : format_specifier) (width : Z) :
  INT_MIN ≤ width < 0 →
  apply_width width fs
  = set_width (if decide (width = INT_MIN) then INT_MAX else Z.abs width)
      (set_left_justify true fs)
  ∧ fs_left_justify (apply_width width fs) = true
  ∧ (fs_width (apply_width width fs)
     = if decide (width = INT_MIN) then INT_MAX else Z.abs width)
  ∧ (width ≠ INT_MIN →
     ∀ (n : Z) (using_positions : bool) (pia : positional_info_array)
       (s : state),
       render_directive (apply_width width fs) using_positions pia s
       = render_directive
           (apply_width (Z.abs width)
              (set_input_length n (set_left_justify true fs)))
           using_positions pia s)
  ∧ ∀ (directive directive' : string) (error error' : format_error)
      (fs' : format_specifier) (fuel fuel' : nat)
      (format_start format_start' : string)
      (using_positions first_element : bool) (pia : positional_info_array)
      (position_count : Z) (mode : bool) (pia1 : positional_info_array)
      (count1 : Z) (s s' s1 s1' s2 : state),
      (* the directive, and the same directive with the - flag *)
      read_format_string directive = Some (error, fs) →
      format_error_is_error error = false →
      read_format_string directive' = Some (error', fs') →
      format_error_is_error error' = false →
      peek directive ≠ "%"%char → peek directive' ≠ "%"%char →
      fs_preceding_width fs ≠ 0 → fs_preceding_width fs' ≠ 0 →
      set_preceding_width 0 (set_input_length 0 fs')
      = set_preceding_width 0 (set_input_length 0 (set_left_justify true fs)) →
      skip (Z.to_nat (fs_input_length fs)) directive
      = skip (Z.to_nat (fs_input_length fs')) directive' →
      (String.length directive < fuel)%nat →
      (String.length directive' < fuel')%nat →
      (* both runs have the same mode and table of positions *)
      decide_positions format_start fs using_positions first_element pia
        position_count s = Ok (Some (mode, pia1, count1)) s1 →
      decide_positions format_start' fs' using_positions first_element pia
        position_count s' = Ok (Some (mode, pia1, count1)) s1' →
      bool_decide (fs_position fs = 0) = negb mode →
      (* the one fetches [width], the other its absolute value *)
      liftE (pop_or_load_width_precision mode (pia_array pia1)
               (fs_preceding_width fs)) s1 = Ok width s2 →
      liftE (pop_or_load_width_precision mode (pia_array pia1)
               (fs_preceding_width fs')) s1'
      = Ok (if decide (width = INT_MIN) then INT_MAX else Z.abs width) s2 →
      generic_printf_loop fuel format_start (String "%" directive)
        using_positions first_element pia position_count s
      = generic_printf_loop fuel' format_start' (String "%" directive')
          using_positions first_element pia position_count s'.
Proof.
  intros Hw.
  pose proof (apply_width_negative fs width Hw) as Hform.
  split; [exact Hform|]. rewrite Hform.
  split; [destruct fs; reflexivity|]. split; [destruct fs; reflexivity|].
  split.
  { intros Hmin n using_positions pia s.
    destruct (decide (width = INT_MIN)); [contradiction|].
    unfold apply_width. destruct (decide (0 ≤ Z.abs width)); [|lia].
    replace (set_width (Z.abs width)
               (set_input_length n (set_left_justify true fs)))
      with (set_input_length n
              (set_width (Z.abs width) (set_left_justify true fs)))
      by (destruct fs; reflexivity).
    rewrite render_directive_input_length. reflexivity. }
  intros directive directive' error error' fs' fuel fuel' format_start
    format_start' using_positions first_element pia position_count mode pia1
    count1 s s' s1 s1' s2 Hparse Herror Hparse' Herror' Hpeek Hpeek' Hstar
    Hstar' Hsame Hrest Hfuel Hfuel' Hdecide Hdecide' Hmode Hfetch Hfetch'.
  set (width' := if decide (width = INT_MIN) then INT_MAX else Z.abs width)
    in *.
  assert (Hwidth' : 0 ≤ width').
  { subst width'. destruct (decide (width = INT_MIN)); unfold INT_MAX; lia. }
  assert (Hposition : fs_position fs' = fs_position fs).
  { apply (f_equal fs_position) in Hsame. destruct fs, fs'. exact Hsame. }
  assert (Hfs' : apply_width width' fs'
                 = set_preceding_width (fs_preceding_width fs')
                     (set_input_length (fs_input_length fs')
                        (set_width width' (set_left_justify true fs)))).
  { unfold apply_width. destruct (decide (0 ≤ width')); [|lia].
    clear -Hsame. destruct fs, fs'. simplify_eq/=. reflexivity. }
  assert (Hchecks : ∀ p : Z, p = fs_position fs →
            bool_decide (p = 0) && mode = false
            ∧ bool_decide (p ≠ 0) && negb mode = false).
  { intros p ->. rewrite bool_decide_not, Hmode.
    destruct mode; split; reflexivity. }
  destruct fuel as [|fuel]; [lia|]. destruct fuel' as [|fuel']; [lia|].
  cbn [generic_printf_loop].
  destruct (decide (peek (String "%" directive) = NUL)) as [HNUL|_];
    [discriminate HNUL|].
  destruct (decide (peek (String "%" directive') = NUL)) as [HNUL|_];
    [discriminate HNUL|].
  unfold is_char. cbn [peek skip].
  rewrite (bool_decide_true ("%"%char = "%"%char)) by reflexivity.
  rewrite (bool_decide_false (peek directive = "%"%char)) by assumption.
  rewrite (bool_decide_false (peek directive' = "%"%char)) by assumption.
  cbn [andb]. rewrite Hparse, Hparse'. run. rewrite Herror, Herror'.
  rewrite !bind_run, Hdecide, Hdecide'.
  destruct (Hchecks (fs_position fs) eq_refl) as [-> ->].
  destruct (Hchecks (fs_position fs') Hposition) as [-> ->].
  destruct (decide (fs_preceding_width fs ≠ 0)); [|contradiction].
  destruct (decide (fs_preceding_width fs' ≠ 0)); [|contradiction].
  rewrite (bind_run (liftE _ ≫= _)), (bind_run (liftE _)), Hfetch.
  symmetry.
  rewrite (bind_run (liftE _ ≫= _)), (bind_run (liftE _)), Hfetch'.
  symmetry. run. rewrite Hform, Hfs'.
  apply (generic_printf_loop_after_width (fs_input_length fs')
           (fs_preceding_width fs')
           (set_width width' (set_left_justify true fs)));
    [|simpl in *; lia..].
  replace (fs_input_length (set_width width' (set_left_justify true fs)))
    with (fs_input_length fs) by (destruct fs; reflexivity).
  exact Hrest.
Qed.

(** The template "%*d|" with the arguments -5 and 42 next to the template
    "%-*d|" with the arguments 5 and 42, both to the 16-byte array of the
    scenario machine; and the same with positions, where the width is the
    second argument, -5, in the one template and the third, 5, in the
    other. *)
Lemma negative_width_argument_witness :
  let fs := mk_fs 2 false false false false false 1 0 0 (-1) LENGTH_none
              TYPE_d 0 in
  let run args :=
    set_mem (set_valist args (st_mem Scenario.machine))
      (set_output (mk_output OUTPUT_string None 0 (Some (7%N, 0)) 0 SIZE_MAX 0)
         Scenario.machine) in
  (INT_MIN ≤ -5 < 0)
  ∧ apply_width (-5) fs
    = mk_fs 2 true false false false false 1 5 0 (-1) LENGTH_none TYPE_d 0
  ∧ generic_printf "%*d|" (run [AInt (-5); AInt 42])
    = generic_printf "%-*d|" (run [AInt 5; AInt 42])
  ∧ generic_printf "%1$*2$d|%3$i%2$i" (run [AInt 42; AInt (-5); AInt 5])
    = generic_printf "%1$-*3$d|%3$i%2$i" (run [AInt 42; AInt (-5); AInt 5]).
Proof.
  intros fs run.
  assert (H : INT_MIN ≤ -5 < 0) by (vm_compute; split; [discriminate|reflexivity]).
  split; [exact H|].
  destruct (negative_width_argument fs (-5) H) as (Hform & _ & _ & _ & Hengine).
  split; [rewrite Hform; reflexivity|]. split.
  - apply (Hengine "*d|"%string "-*d|"%string FORMAT_okay FORMAT_okay
             (mk_fs 3 true false false false false 1 0 0 (-1) LENGTH_none
                TYPE_d 0)
             4%nat 5%nat "%*d|"%string "%-*d|"%string false true
             (mk_pia 0 None) 0 false (mk_pia 0 None) 0
             (run [AInt (-5); AInt 42]) (run [AInt 5; AInt 42])
             (run [AInt (-5); AInt 42]) (run [AInt 5; AInt 42])
             (run [AInt 42]));
      try reflexivity; try discriminate; simpl; lia.
  - set (positional := mk_fs 6 false false false false false 2 0 0 (-1)
                         LENGTH_none TYPE_d 1).
    destruct (negative_width_argument positional (-5) H)
      as (_ & _ & _ & _ & Hpositional).
    set (s := run [AInt 42; AInt (-5); AInt 5]).
    eassert (Hscan : decide_positions "%1$*2$d|%3$i%2$i" positional false
                       true (mk_pia 0 None) 0 s = Ok (Some (true, _, _)) _)
      by (vm_compute; reflexivity).
    eapply (Hpositional "1$*2$d|%3$i%2$i"%string "1$-*3$d|%3$i%2$i"%string
              FORMAT_okay FORMAT_okay
              (mk_fs 7 true false false false false 3 0 0 (-1) LENGTH_none
                 TYPE_d 1)
              16%nat 17%nat "%1$*2$d|%3$i%2$i"%string
              "%1$-*3$d|%3$i%2$i"%string false true (mk_pia 0 None) 0 true _
              _ s s _ _ _);
      [reflexivity|reflexivity|reflexivity|reflexivity|discriminate
      |discriminate|discriminate|discriminate|reflexivity|reflexivity
      |simpl; lia|simpl; lia|exact Hscan|vm_compute; reflexivity
      |reflexivity|vm_compute; reflexivity|vm_compute; reflexivity].
Defined.

Example negative_width_scenario :
  Scenario.sprintf "%*d|" [AInt (-5); AInt 42] = Some ("42   |", 6)
  ∧ Scenario.sprintf "%-*d|" [AInt 5; AInt 42] = Some ("42   |", 6)
  ∧ Scenario.sprintf "%3$i%2$i %1$*2$d|" [AInt 42; AInt (-5); AInt 5]
    = Some ("5-5 42   |", 10)
  ∧ Scenario.sprintf "%3$i%2$i %1$-*3$d|" [AInt 42; AInt (-5); AInt 5]
    = Some ("5-5 42   |", 10).
Proof. repeat split; vm_compute; reflexivity. Qed.

(** ** C1 *)

Lemma stored_at_nil (str : option (N * Z)) (buffers : gmap N (list ascii)) :
  stored_at str [] buffers = buffers.
Proof.
  unfold stored_at. destruct str as [[b off]|]; [|reflexivity].
  destruct (buffers !! b) as [data|] eqn:Hb; [|reflexivity].
  simpl. rewrite Nat.add_0_r, take_drop. apply insert_id. exact Hb.
Qed.

(** Writing one more character behind the ones stored. *)
Lemma stored_at_snoc (b : N) (off : Z) (stored : list ascii) (c : ascii)
  (buffers : gmap N (list ascii)) (data : list ascii) :
  buffers !! b = Some data → 0 ≤ off →
  off + Z.of_nat (length stored) < Z.of_nat (length data) →
  ∃ data1,
    stored_at (Some (b, off)) stored buffers !! b = Some data1
    ∧ 0 ≤ off + Z.of_nat (length stored) < Z.of_nat (length data1)
    ∧ <[b := <[Z.to_nat (off + Z.of_nat (length stored)) := c]> data1]>
        (stored_at (Some (b, off)) stored buffers)
      = stored_at (Some (b, off)) (stored ++ [c]) buffers.
Proof.
  intros Hb Hoff Hroom. unfold stored_at. rewrite Hb.
  eexists. split; [apply lookup_insert_eq|].
  assert (Hlen : length (take (Z.to_nat off) data ++ stored
                         ++ drop (Z.to_nat off + length stored) data)
                 = length data).
  { rewrite !length_app, length_take, length_drop. lia. }
  split; [rewrite Hlen; lia|].
  rewrite insert_insert_eq. f_equal.
  replace (Z.to_nat (off + Z.of_nat (length stored)))
    with (length (take (Z.to_nat off) data) + (length stored + 0))%nat
    by (rewrite length_take; lia).
  rewrite insert_app_r, insert_app_r.
  rewrite <- (app_assoc stored [c]). do 2 f_equal.
  rewrite length_app. simpl.
  destruct (drop (Z.to_nat off + length stored) data) as [|x rest] eqn:Hd.
  { apply (f_equal length) in Hd. rewrite length_drop in Hd. simpl in Hd. lia. }
  simpl. f_equal.
  rewrite Nat.add_assoc, <- drop_drop, Hd. reflexivity.
Qed.

Ltac unfold_sinks :=
  unfold printf_output, printf_output_sprintf, printf_output_fprintf,
    printf_output_dprintf, printf_output_asprintf, count_character,
    get_output, put_output, putc, write, store_buffer, liftE.

(** A sink never takes anything back from a stream. *)
Lemma printf_output_streams (c : ascii) (s s' : state) (b : bool) (h : N)
  (d : device) :
  printf_output c s = Ok b s' → st_streams s !! h = Some d →
  ∃ d', st_streams s' !! h = Some d'
        ∧ (length (dev_data d) ≤ length (dev_data d'))%nat.
Proof.
  unfold printf_output, printf_output_sprintf, printf_output_fprintf,
    printf_output_dprintf, printf_output_asprintf, count_character,
    get_output, put_output, putc, write, store_buffer.
  intros H Hd. run_inv; simplify_eq/=; eauto;
    match goal with
    | |- context [<[?k := _]> _ !! _] =>
        destruct (decide (k = h)) as [->|Hne];
        [rewrite lookup_insert_eq; eexists; split; [reflexivity|];
         simpl; rewrite length_app; simplify_eq; lia
        |rewrite lookup_insert_ne by assumption; eauto]
    end.
Qed.

Lemma overlong_set_mem (h : N) (s : state) (m : memory) :
  overlong h s → overlong h (set_mem m s).
Proof. intros H. exact H. Qed.

Lemma overlong_output (h : N) (s s' : state) (c : ascii) (b : bool) :
  overlong h s → printf_output c s = Ok b s' → overlong h s'.
Proof.
  intros (d & Hd & Hlong) Hout.
  destruct (printf_output_streams c s s' b h d Hout Hd) as (d' & Hd' & Hle).
  exists d'. split; [exact Hd'|lia].
Qed.

Section Snprintf.

Variable str : option (N * Z).
Variable size : Z.
Variable buffers : gmap N (list ascii).
Variable h : N.

Hypothesis size_range : 0 ≤ size ≤ SIZE_MAX.
Hypothesis room : size ≠ 0 → array_at str size buffers.

Lemma snprintf_related_mem s1 s2 :
  snprintf_related str size buffers h s1 s2 → st_mem s1 = st_mem s2.
Proof. intros (full & _ & Hm & _). exact Hm. Qed.

Lemma snprintf_related_set_mem s1 s2 m :
  snprintf_related str size buffers h s1 s2 →
  snprintf_related str size buffers h (set_mem m s1) (set_mem m s2).
Proof.
  intros (full & Hlen & Hm & Ho1 & Hb1 & Ho2 & Hs2).
  exists full. repeat split; assumption.
Qed.

Lemma snprintf_related_count s1 s2 :
  snprintf_related str size buffers h s1 s2 →
  out_characters_written (st_output s1)
  = out_characters_written (st_output s2).
Proof.
  intros (full & _ & _ & Ho1 & _ & Ho2 & _). rewrite Ho1, Ho2. reflexivity.
Qed.

Lemma snprintf_related_output s1 s2 c b s2' :
  snprintf_related str size buffers h s1 s2 →
  printf_output c s2 = Ok b s2' →
  overlong h s2'
  ∨ ∃ s1', printf_output c s1 = Ok b s1'
           ∧ snprintf_related str size buffers h s1' s2'.
Proof.
  intros (full & Hlen & Hm & Ho1 & Hb1 & Ho2 & Hs2).
  destruct s1 as [o1 ss1 f1 b1 m1], s2 as [o2 ss2 f2 b2 m2].
  cbn [st_mem st_output st_buffers st_streams] in *. subst o1 o2 b1 m1.
  set (n := Z.of_nat (length full)) in *.
  unfold printf_output, printf_output_fprintf, count_character, get_output,
    put_output, putc.
  exec. rewrite Hs2. exec. intros [= <- <-]. exec.
  destruct (decide (n + 1 ≤ SIZE_MAX)) as [Hfit|Hover].
  2: { left. eexists. split; [apply lookup_insert_eq|].
       simpl. rewrite length_app. simpl. lia. }
  right. rewrite (to_size_t_id (n + 1)) by lia.
  assert (Hlen' : Z.of_nat (length (full ++ [c])) = n + 1)
    by (rewrite length_app; simpl; lia).
  unfold printf_output_sprintf, count_character, get_output, put_output,
    store_buffer.
  exec.
  (* the three cases of the fixed-buffer sink *)
  destruct (decide (size = 0)) as [Hzero|Hnonzero].
  - exec. eexists. split; [reflexivity|].
    exists (full ++ [c]). cbv zeta. exec. rewrite Hlen', to_size_t_id by lia.
    subst size. simpl.
    repeat split; try lia. apply lookup_insert_eq.
  - destruct (decide (size - 1 ≤ n)) as [Hfull|Hfree].
    + exec. eexists. split; [reflexivity|].
      exists (full ++ [c]). cbv zeta. exec.
      rewrite Hlen', to_size_t_id by lia.
      rewrite (take_app_le full [c]) by lia.
      repeat split; try lia. apply lookup_insert_eq.
    + destruct (room Hnonzero) as (a & off & data & -> & Ha & Hoff & Hcap).
      assert (Htake : take (Z.to_nat (size - 1)) full = full)
        by (apply take_ge; lia).
      rewrite Htake. fold n.
      destruct (stored_at_snoc a off full c buffers data Ha Hoff)
        as (data1 & Hdata1 & Hin & Hnew); [lia|].
      cbn [shift mbind option_bind]. exec. rewrite Hdata1. exec.
      destruct (decide (0 ≤ off + n < Z.of_nat (length data1)))
        as [_|Hbad]; [|subst n; lia].
      exec. eexists. split; [reflexivity|].
      exists (full ++ [c]). cbv zeta. exec.
      rewrite Hlen', to_size_t_id by lia.
      rewrite (take_ge (full ++ [c])) by lia. rewrite Hlen'.
      cbn [next_char shift mbind option_bind].
      repeat split; try lia.
      * unfold set_characters_written, set_string; simpl. do 3 f_equal. lia.
      * subst n. exact Hnew.
      * apply lookup_insert_eq.
Qed.

End Snprintf.

(** The fixed-buffer sink accepts every character; one that the limit
    suppresses only advances the counter. *)
Lemma printf_output_sprintf_suppressed (c : ascii) (s : state) :
  let o := st_output s in
  out_character_limit o = 0
  ∨ out_character_limit o - 1 ≤ out_characters_written o →
  printf_output_sprintf c s
  = Ok true
      (set_output
         (set_characters_written (to_size_t (out_characters_written o + 1)) o)
         s).
Proof.
  intros o Hlimit. unfold printf_output_sprintf, count_character, get_output,
    put_output. exec. fold o.
  destruct (decide (out_character_limit o = 0)); [reflexivity|].
  destruct (decide (out_character_limit o - 1 ≤ out_characters_written o));
    [reflexivity|]. lia.
Qed.

Lemma printf_output_sprintf_counts (c : ascii) (s s' : state) (b : bool) :
  printf_output_sprintf c s = Ok b s' →
  b = true
  ∧ out_characters_written (st_output s')
    = to_size_t (out_characters_written (st_output s) + 1)
  ∧ out_character_limit (st_output s') = out_character_limit (st_output s).
Proof.
  unfold printf_output_sprintf, count_character, get_output, put_output,
    store_buffer.
  intros H. run_inv; simplify_eq/=; auto.
Qed.

(** C1.  The fixed-buffer entry point next to the run of the engine that
    sends the same template and arguments to an unbounded stream: whenever
    that run returns, with [full] the characters it has emitted, the
    fixed-buffer run returns too, its counter has advanced once for every
    character of [full], stored or suppressed, and on success the value
    returned is that counter as an [int]; the caller's array has received the
    first [size - 1] characters of [full] at most, followed on success by the
    terminator; with size 0 the array is untouched. *)
Theorem snprintf_counts_the_unbounded_output (str : option (N * Z))
  (size : Z) (format : string) (args : list arg) (s : state) (h : N)
  (result : bool) (s2' : state) (full : list ascii) :
  0 ≤ size ≤ SIZE_MAX →
  (size ≠ 0 → array_at str size (st_buffers s)) →
  start (mk_output OUTPUT_stream (Some h) 0 None 0 SIZE_MAX 0) format args
    (with_fresh_stream h s) = Ok result s2' →
  st_streams s2' !! h = Some (mk_device full None) →
  Z.of_nat (length full) ≤ SIZE_MAX →
  let stored := take (Z.to_nat (size - 1)) full in
  ∃ s1',
    new_snprintf str size (Some format) args s
    = Ok (if result then to_int (Z.of_nat (length full)) else -1) s1'
    ∧ out_characters_written (st_output s1') = Z.of_nat (length full)
    ∧ Z.of_nat (length stored) ≤ Z.max (size - 1) 0
    ∧ st_buffers s1'
      = stored_at str
          (if result && bool_decide (size ≠ 0) then stored ++ [NUL]
           else stored)
          (st_buffers s)
    ∧ (size = 0 → st_buffers s1' = st_buffers s)
    ∧ (Z.of_nat (length full) ≤ INT_MAX →
       to_int (Z.of_nat (length full)) = Z.of_nat (length full)).
Proof.
  intros Hsize Hroom Href Hfull Hlen stored.
  assert (Hint : Z.of_nat (length full) ≤ INT_MAX →
                 to_int (Z.of_nat (length full)) = Z.of_nat (length full))
    by (intros Hle; apply to_int_id; unfold INT_MIN, INT_MAX in *; lia).
  unfold start, with_fresh_stream, put_output in Href. revert Href. exec.
  cbn [liftE modify]. exec.
  set (s2 := set_mem _ _).
  set (s1 := set_mem (set_valist args (st_mem s))
               (set_output (mk_output OUTPUT_string None 0 str 0 size 0) s)).
  intros Href.
  assert (Hstart : snprintf_related str size (st_buffers s) h s1 s2).
  { exists []. cbv zeta. rewrite take_nil. simpl length.
    repeat split.
    - unfold SIZE_MAX. lia.
    - subst s1. simpl. destruct str as [[a off]|]; simpl;
        rewrite ?Z.add_0_r; reflexivity.
    - symmetry. apply stored_at_nil.
    - apply lookup_insert_eq. }
  assert (Hsim : follows (snprintf_related str size (st_buffers s) h)
                   (overlong h) (generic_printf format)).
  { apply follows_generic_printf.
    - apply snprintf_related_mem.
    - apply snprintf_related_set_mem.
    - apply snprintf_related_count.
    - intros. eapply snprintf_related_output; eauto.
    - apply overlong_set_mem.
    - intros. eapply overlong_output; eauto. }
  destruct (Hsim s1 s2) as [Hfollow _].
  destruct (Hfollow Hstart result s2' Href)
    as [(d & Hd & Hlong)|(s1' & Hrun & Hrel)].
  { rewrite Hfull in Hd. injection Hd as <-. simpl in Hlong. lia. }
  destruct Hrel as (full' & _ & _ & Ho1 & Hb1 & _ & Hs2).
  rewrite Hfull in Hs2. injection Hs2 as <-. fold stored in Ho1, Hb1.
  assert (Hstored : Z.of_nat (length stored) ≤ Z.max (size - 1) 0)
    by (subst stored; rewrite length_take; lia).
  assert (Hguard : bool_decide (size ≠ 0) && bool_decide (str = None) = false).
  { destruct (decide (size = 0)) as [Hzero|Hnonzero].
    - rewrite (bool_decide_false (size ≠ 0)) by congruence. reflexivity.
    - destruct (Hroom Hnonzero) as (a & off & data & -> & _).
      rewrite (bool_decide_false (Some (a, off) = None)) by discriminate.
      apply andb_false_r. }
  assert (Hassert : (if decide (size ≠ 0) then c_assert (non_null str)
                     else mret ())
                    = (mret () : M unit)).
  { destruct (decide (size ≠ 0)) as [Hnonzero|]; [|reflexivity].
    destruct (Hroom Hnonzero) as (a & off & data & -> & _). reflexivity. }
  unfold new_snprintf. rewrite Hassert.
  unfold start, put_output, c_assert. cbn [non_null]. rewrite Hguard. exec.
  cbn [liftE modify]. exec. fold s1. rewrite Hrun.
  destruct s1' as [o1 ss1 f1 b1 m1].
  cbn [st_output st_buffers] in Ho1, Hb1. subst o1 b1.
  destruct result; cbn [andb].
  2: { eexists. split; [reflexivity|]. cbn [st_output st_buffers
         out_characters_written].
       repeat split; try assumption; try reflexivity.
       intros ->. subst stored. simpl. apply stored_at_nil. }
  unfold return_count, characters_written, terminate_string, get_output,
    store_buffer.
  destruct (decide (size ≠ 0)) as [Hnonzero|Hzero].
  - destruct (Hroom Hnonzero) as (a & off & data & -> & Ha & Hoff & Hcap).
    destruct (stored_at_snoc a off stored NUL (st_buffers s) data Ha Hoff)
      as (data1 & Hdata1 & Hin & Hnew); [lia|].
    cbn [shift mbind option_bind]. exec. rewrite Hdata1. exec.
    destruct (decide (0 ≤ off + Z.of_nat (length stored)
                      < Z.of_nat (length data1))) as [_|Hbad]; [|lia].
    exec. eexists. split; [reflexivity|].
    cbn [st_output st_buffers out_characters_written].
    rewrite (bool_decide_true (size ≠ 0)) by assumption.
    repeat split; try assumption; try reflexivity. contradiction.
  - exec. eexists. split; [reflexivity|].
    cbn [st_output st_buffers out_characters_written].
    rewrite (bool_decide_false (size ≠ 0)) by assumption.
    repeat split; try assumption; try reflexivity.
    intros ->. subst stored. simpl. apply stored_at_nil.
Qed.

(** The template "hello" into the 16-byte array of the scenario machine with
    size 4: three characters are stored before the terminator, and 5 is
    returned. *)
Lemma snprintf_counts_the_unbounded_output_witness :
  ∃ s1' : state,
    new_snprintf (Some (7%N, 0)) 4 (Some "hello") [] Scenario.machine
    = Ok 5 s1'
    ∧ Scenario.c_string <$> st_buffers s1' !! 7%N = Some "hel"%string
    ∧ out_characters_written (st_output s1') = 5.
Proof.
  edestruct (snprintf_counts_the_unbounded_output (Some (7%N, 0)) 4 "hello" []
               Scenario.machine 5%N true)
    as (s1' & Hrun & Hcount & _ & Hbuf & _ & _).
  - unfold SIZE_MAX. lia.
  - intros _. exists 7%N, 0, (replicate 16 NUL).
    split; [reflexivity|]. split; [reflexivity|]. simpl. lia.
  - vm_compute. reflexivity.
  - vm_compute. reflexivity.
  - vm_compute. discriminate.
  - exists s1'. split; [exact Hrun|]. split; [|exact Hcount].
    rewrite Hbuf. vm_compute. reflexivity.
Defined.

(** A computation behind an assertion comes to an end if it does so when
    the assertion holds. *)
Lemma c_assert_never_exhausted {A} (b : bool) (m : M A) (s : state) :
  (b = true → m s ≠ Exhausted) →
  (_ ← c_assert b; m) s ≠ Exhausted.
Proof.
  intros Hm. rewrite bind_run. destruct b; [exact (Hm eq_refl)|discriminate].
Qed.

Lemma bind_never_exhausted {A B} (m : M A) (f : A → M B) (s : state) :
  safe (λ _, True) m → (∀ a s', f a s' ≠ Exhausted) →
  (m ≫= f) s ≠ Exhausted.
Proof.
  intros Hm Hf. rewrite bind_run. specialize (Hm s).
  destruct (m s); [apply Hf|discriminate|contradiction|contradiction].
Qed.

Lemma safe_never_exhausted {A} (m : M A) (s : state) :
  safe (λ _, True) m → m s ≠ Exhausted.
Proof. intros H Heq. specialize (H s). rewrite Heq in H. exact H. Qed.

Lemma safe_start (output : output_specifier) (format : string)
  (args : list arg) :
  safe (λ _, True) (start output format args).
Proof.
  unfold start, put_output.
  apply safe_then; [safe_all|]. intros _.
  apply safe_then; [safe_all|]. intros _.
  apply safe_generic_printf_loop. reflexivity.
Qed.

(** The fixed-buffer entry point returns, meets undefined behaviour or stops
    at an assertion. *)
Lemma new_snprintf_never_exhausted str size format args (s : state) :
  new_snprintf str size format args s ≠ Exhausted.
Proof.
  unfold new_snprintf. apply c_assert_never_exhausted. intros _.
  destruct format as [format|]; [|discriminate].
  destruct (decide (size ≠ 0)).
  - apply c_assert_never_exhausted. intros _. apply safe_never_exhausted.
    destruct (_ && _); [safe_all|].
    apply safe_then; [apply safe_start|].
    unfold terminate_string, return_count, characters_written, get_output,
      store_buffer.
    intros result. safe_all.
  - apply safe_never_exhausted.
    apply safe_then; [safe_all|]. intros _.
    destruct (_ && _); [safe_all|].
    apply safe_then; [apply safe_start|].
    unfold return_count, characters_written, get_output.
    intros result. safe_all.
Qed.

(** ** C2 *)

Section Dprintf.

Variable fd : Z.
Variable pre : list ascii.
Variable h : N.

Lemma dprintf_related_mem s1 s2 :
  dprintf_related fd pre h s1 s2 → st_mem s1 = st_mem s2.
Proof. intros (full & _ & Hm & _). exact Hm. Qed.

Lemma dprintf_related_set_mem s1 s2 m :
  dprintf_related fd pre h s1 s2 →
  dprintf_related fd pre h (set_mem m s1) (set_mem m s2).
Proof.
  intros (full & Hlen & Hm & Ho1 & Hd1 & Ho2 & Hs2).
  exists full. repeat split; assumption.
Qed.

Lemma dprintf_related_count s1 s2 :
  dprintf_related fd pre h s1 s2 →
  out_characters_written (st_output s1)
  = out_characters_written (st_output s2).
Proof.
  intros (full & _ & _ & Ho1 & _ & Ho2 & _). rewrite Ho1, Ho2. reflexivity.
Qed.

Lemma dprintf_related_output s1 s2 c b s2' :
  dprintf_related fd pre h s1 s2 →
  printf_output c s2 = Ok b s2' →
  overlong h s2'
  ∨ ∃ s1', printf_output c s1 = Ok b s1' ∧ dprintf_related fd pre h s1' s2'.
Proof.
  intros (full & Hlen & Hm & Ho1 & Hd1 & Ho2 & Hs2).
  destruct s1 as [o1 ss1 f1 b1 m1], s2 as [o2 ss2 f2 b2 m2].
  cbn [st_mem st_output st_fds st_streams] in *. subst o1 o2 m1.
  set (n := Z.of_nat (length full)) in *.
  unfold printf_output, printf_output_fprintf, count_character, get_output,
    put_output, putc.
  exec. rewrite Hs2. exec. intros [= <- <-]. exec.
  destruct (decide (n + 1 ≤ SIZE_MAX)) as [Hfit|Hover].
  2: { left. eexists. split; [apply lookup_insert_eq|].
       simpl. rewrite length_app. simpl. lia. }
  right. rewrite (to_size_t_id (n + 1)) by lia.
  assert (Hlen' : Z.of_nat (length (full ++ [c])) = n + 1)
    by (rewrite length_app; simpl; lia).
  unfold printf_output_dprintf, count_character, get_output, put_output,
    write.
  exec. rewrite Hd1. exec.
  destruct (decide (1 ≠ 1)) as [Hne|_]; [contradiction|].
  exec. eexists. split; [reflexivity|].
  exists (full ++ [c]). exec. rewrite Hlen', to_size_t_id by lia.
  repeat split; try lia.
  - rewrite app_assoc. apply lookup_insert_eq.
  - apply lookup_insert_eq.
Qed.

End Dprintf.

(** C2, where the code departs from it.  [new_dprintf] sets up a stream sink
    with a NULL stream instead of a descriptor sink: the first character it
    emits goes to [putc] on the NULL stream, and nothing reaches the
    descriptor.  [new_vdprintf] on the other hand appends to the descriptor
    all that the engine emits, the characters [full] an unbounded stream
    receives from the same template and arguments, and returns their count
    on success. *)
Theorem dprintf_uses_the_stream_sink :
  (∀ (fd : Z) (c : ascii) (rest : string) (args : list arg) (s : state),
     c ≠ "%"%char → c ≠ NUL →
     new_dprintf fd (Some (String c rest)) args s = Undefined)
  ∧ new_dprintf 3 (Some "a") [] Scenario.machine = Undefined
  ∧ (∃ s' : state,
       new_vdprintf 3 (Some "a") [] Scenario.machine = Ok 1 s'
       ∧ dev_data <$> st_fds s' !! 3 = Some ["a"%char])
  ∧ (∀ (fd : Z) (format : string) (args : list arg) (s : state) (h : N)
       (result : bool) (s2' : state) (pre full : list ascii),
       st_fds s !! fd = Some (mk_device pre None) →
       start (mk_output OUTPUT_stream (Some h) 0 None 0 SIZE_MAX 0) format
         args (with_fresh_stream h s) = Ok result s2' →
       st_streams s2' !! h = Some (mk_device full None) →
       Z.of_nat (length full) ≤ SIZE_MAX →
       ∃ s1' : state,
         new_vdprintf fd (Some format) args s
         = Ok (if result then to_int (Z.of_nat (length full)) else -1) s1'
         ∧ st_fds s1' !! fd = Some (mk_device (pre ++ full) None)).
Proof.
  split; [|split; [|split]].
  - intros fd c rest args s Hpercent Hnul.
    unfold new_dprintf, start, generic_printf, c_assert. cbn [non_null].
    cbn [String.length generic_printf_loop peek].
    rewrite !bind_run. cbn [put_output modify liftE mret comp_ret mbind
                            comp_bind set_output st_mem set_mem].
    destruct (decide (c = NUL)) as [?|_]; [contradiction|].
    unfold is_char at 1. cbn [peek].
    rewrite bool_decide_false by assumption. cbn [andb].
    unfold is_char. cbn [peek].
    rewrite bool_decide_false by assumption.
    reflexivity.
  - reflexivity.
  - eexists. split; [vm_compute; reflexivity|reflexivity].
  - intros fd format args s h result s2' pre full Hfd Href Hfull Hlen.
    unfold start, with_fresh_stream, put_output in Href. revert Href. exec.
    cbn [liftE modify]. exec.
    set (s2 := set_mem _ _).
    set (s1 := set_mem (set_valist args (st_mem s))
                 (set_output
                    (mk_output OUTPUT_file_descriptor None fd None 0
                       SIZE_MAX 0) s)).
    intros Href.
    assert (Hstart : dprintf_related fd pre h s1 s2).
    { exists []. rewrite app_nil_r. simpl length.
      repeat split; try assumption.
      - unfold SIZE_MAX. lia.
      - apply lookup_insert_eq. }
    assert (Hsim : follows (dprintf_related fd pre h) (overlong h)
                     (generic_printf format)).
    { apply follows_generic_printf.
      - apply dprintf_related_mem.
      - apply dprintf_related_set_mem.
      - apply dprintf_related_count.
      - intros. eapply dprintf_related_output; eauto.
      - apply overlong_set_mem.
      - intros. eapply overlong_output; eauto. }
    destruct (Hsim s1 s2) as [Hfollow _].
    destruct (Hfollow Hstart result s2' Href)
      as [(d & Hd & Hlong)|(s1' & Hrun & Hrel)].
    { rewrite Hfull in Hd. injection Hd as <-. simpl in Hlong. lia. }
    destruct Hrel as (full' & _ & _ & Ho1 & Hd1 & _ & Hs2).
    rewrite Hfull in Hs2. injection Hs2 as <-.
    unfold new_vdprintf, start, put_output, c_assert. cbn [non_null]. exec.
    cbn [liftE modify]. exec. fold s1. rewrite Hrun.
    destruct result.
    + unfold return_count, characters_written, get_output. exec.
      rewrite Ho1. exec. eexists. split; [reflexivity|exact Hd1].
    + eexists. split; [reflexivity|exact Hd1].
Qed.


(** The template "a" to descriptor 3. *)
Lemma dprintf_uses_the_stream_sink_witness :
  "a"%char ≠ "%"%char ∧ "a"%char ≠ NUL
  ∧ new_dprintf 3 (Some "a") [] Scenario.machine = Undefined.
Proof.
  assert (H1 : "a"%char ≠ "%"%char) by discriminate.
  assert (H2 : "a"%char ≠ NUL) by discriminate.
  split; [exact H1|]. split; [exact H2|].
  destruct dprintf_uses_the_stream_sink as [Hundefined _].
  exact (Hundefined 3 "a"%char EmptyString [] Scenario.machine H1 H2).
Defined.

(** * Further properties of the code *)

(** ** The parser: what it consumes *)

Lemma is_char_length (c : ascii) (format : string) :
  is_char c format = true → c ≠ NUL → (1 ≤ String.length format)%nat.
Proof.
  unfold is_char. intros H Hc. apply bool_decide_eq_true in H.
  destruct format; simpl in *; [congruence|lia].
Qed.

Lemma starts_with_length (pre format : string) :
  starts_with pre format = true →
  (String.length pre ≤ String.length format)%nat.
Proof.
  revert format. induction pre as [|a pre IH]; intros [|b rest]; simpl;
    try lia; try discriminate.
  destruct (bool_decide (a = b)); [|discriminate].
  intros H. apply IH in H. lia.
Qed.

Lemma add_input_length_Some (n : Z) (fs fs' : format_specifier) :
  add_input_length n fs = Some fs' →
  fs' = set_input_length (fs_input_length fs + n) fs.
Proof.
  unfold add_input_length. intros H.
  destruct (int_checked (fs_input_length fs + n)) as [l|] eqn:Hl;
    [|discriminate].
  apply int_checked_Some in Hl as [-> _]. injection H as <-. reflexivity.
Qed.

Lemma format_string_atoi_loop_consumes (format : string)
  (current characters_read n v : Z) :
  format_string_atoi_loop format current characters_read = Some (n, v) →
  characters_read ≤ n ≤ characters_read + Z.of_nat (String.length format).
Proof.
  revert current characters_read.
  induction format as [|c rest IH]; intros current characters_read; simpl.
  - intros [= <- <-]. lia.
  - destruct (is_digit c); [|intros [= <- <-]; lia].
    destruct (int_checked (current * 10)) as [c10|]; [|discriminate]. simpl.
    destruct (int_checked (c10 + digit_value c)) as [c'|]; [|discriminate].
    simpl.
    destruct (int_checked (characters_read + 1)) as [n'|] eqn:Hn';
      [|discriminate].
    apply int_checked_Some in Hn' as [-> _]. simpl.
    intros Hloop. apply IH in Hloop. lia.
Qed.

Lemma format_string_atoi_consumes (format : string) (n v : Z) :
  format_string_atoi format = Some (n, v) →
  0 ≤ n ≤ Z.of_nat (String.length format).
Proof. intros H. apply format_string_atoi_loop_consumes in H. lia. Qed.

Ltac consumed_facts :=
  repeat match goal with
    | H : add_input_length _ _ = Some _ |- _ =>
        apply add_input_length_Some in H; subst
    | H : format_string_atoi _ = Some _ |- _ =>
        apply format_string_atoi_consumes in H
    | H : is_char ?c _ = true |- _ =>
        apply is_char_length in H; [|discriminate]
    | H : starts_with _ _ = true |- _ =>
        apply starts_with_length in H; simpl in H
    | H : skip _ _ = _ |- _ =>
        apply (f_equal String.length) in H; rewrite skip_length in H;
        simpl in H
    end.

Lemma read_format_string_type_consumes format fs e fs' :
  read_format_string_type format fs = Some (e, fs') → consumes format fs fs' e.
Proof.
  unfold read_format_string_type, consumes. intros H.
  repeat (first [case_match | progress simplify_option_eq]);
    consumed_facts; destruct fs; simpl in *;
    first [split; [lia|intros _; lia] | split; [lia|discriminate]].
Qed.

Lemma skip_skip (a b : nat) (format : string) :
  skip a (skip b format) = skip (b + a) format.
Proof.
  revert format. induction b as [|b IH]; intros format; simpl; [reflexivity|].
  destruct format as [|c rest]; [destruct a; reflexivity|apply IH].
Qed.

Lemma consumes_rest rest format fs fs1 fs' e :
  consumes rest fs1 fs' e →
  fs_input_length fs ≤ fs_input_length fs1 →
  fs_input_length fs1 - fs_input_length fs + Z.of_nat (String.length rest)
  ≤ Z.of_nat (String.length format) →
  consumes format fs fs' e.
Proof.
  unfold consumes. intros [Hbound Hmoved] Hfs Hn.
  split; [lia|]. intros He. specialize (Hmoved He). lia.
Qed.

(** A stage that hands over to the next one. *)
Ltac consumes_next lemma :=
  match goal with
  | H : _ = Some (?e, ?fs') |- consumes ?format ?fs ?fs' ?e =>
      apply lemma in H; eapply consumes_rest;
      [ exact H
      | destruct fs; simpl in *; lia
      | destruct fs; simpl in *; rewrite ?skip_length in *; lia ]
  end.

(** A stage that stops with an error. *)
Ltac consumes_stop :=
  match goal with
  | |- consumes _ ?fs _ _ =>
      unfold consumes; destruct fs; simpl in *;
      rewrite ?skip_length in *; split; [lia|discriminate]
  end.

Lemma read_format_string_length_consumes format fs e fs' :
  read_format_string_length format fs = Some (e, fs') →
  consumes format fs fs' e.
Proof.
  unfold read_format_string_length. intros H.
  repeat (first [case_match | progress simplify_option_eq]);
    consumed_facts; consumes_next read_format_string_type_consumes.
Qed.

Lemma read_format_string_precision_consumes format fs e fs' :
  read_format_string_precision format fs = Some (e, fs') →
  consumes format fs fs' e.
Proof.
  unfold read_format_string_precision. intros H.
  repeat (first [case_match | progress simplify_option_eq]);
    consumed_facts;
    first [ consumes_next read_format_string_length_consumes
          | consumes_stop ].
Qed.

Lemma read_format_string_width_consumes format fs e fs' :
  read_format_string_width format fs = Some (e, fs') →
  consumes format fs fs' e.
Proof.
  unfold read_format_string_width. intros H.
  repeat (first [case_match | progress simplify_option_eq]);
    consumed_facts;
    first [ consumes_next read_format_string_precision_consumes
          | consumes_stop ].
Qed.

Lemma read_format_string_flags_loop_consumes format fs error format' fs'
  error' :
  read_format_string_flags_loop format fs error = Some (format', fs', error') →
  fs_input_length fs ≤ fs_input_length fs'
  ∧ fs_input_length fs' - fs_input_length fs
    + Z.of_nat (String.length format') = Z.of_nat (String.length format)
  ∧ (error' = error ∨ error' = FORMAT_WARNING_repeat_flag).
Proof.
  revert fs error. induction format as [|c rest IH]; intros fs error; simpl.
  - intros [= <- <- <-]. split; [lia|]. split; [simpl; lia|]. left. reflexivity.
  - intros H.
    repeat (first [case_match | progress simplify_option_eq]);
      consumed_facts;
      try (split; [lia|]; split; [simpl; lia|]; left; reflexivity);
      match goal with
      | H : read_format_string_flags_loop _ _ _ = Some _ |- _ =>
          apply IH in H; destruct fs; simpl in *;
          destruct H as (? & ? & [-> | ->]);
          (split; [lia|]; split; [lia|]; auto)
      end.
Qed.

Lemma read_format_string_flags_consumes format fs e fs' :
  read_format_string_flags format fs = Some (e, fs') →
  consumes format fs fs' e.
Proof.
  unfold read_format_string_flags. intros H.
  destruct (read_format_string_flags_loop format fs FORMAT_okay)
    as [[[format' fs1] error]|] eqn:Hloop; [|discriminate].
  apply read_format_string_flags_loop_consumes in Hloop
    as (Hle & Hlen & Herror).
  simpl in H.
  destruct (read_format_string_width format' fs1) as [[rest fs2]|] eqn:Hw;
    [|discriminate].
  apply read_format_string_width_consumes in Hw. simpl in H.
  assert (Hwhole : consumes format fs fs2 rest)
    by (eapply consumes_rest; [exact Hw|lia|lia]).
  destruct (bool_decide (rest = FORMAT_okay)) eqn:Hrest;
    injection H as <- <-; [|exact Hwhole].
  apply bool_decide_eq_true in Hrest. subst rest.
  destruct Hwhole as [Hbound Hmoved]. split; [exact Hbound|].
  intros _. apply Hmoved. reflexivity.
Qed.

Lemma read_format_string_position_consumes format fs e fs' :
  read_format_string_position format fs = Some (e, fs') →
  consumes format fs fs' e.
Proof.
  unfold read_format_string_position. intros H.
  repeat (first [case_match | progress simplify_option_eq]);
    consumed_facts;
    first [ consumes_next read_format_string_flags_consumes
          | consumes_next read_format_string_precision_consumes ].
Qed.

(** X1.  The parser stays within the directive: the count of characters it
    reports, [input_length], is at most the number of characters of the
    text it was given, so it never reads past the terminator; and when it
    reports no error it has consumed one character at least, the conversion
    letter, so the engine moves on. *)
Theorem read_format_string_stays_within_the_text (format : string)
  (e : format_error) (fs : format_specifier) :
  read_format_string format = Some (e, fs) →
  0 ≤ fs_input_length fs ≤ Z.of_nat (String.length format)
  ∧ (format_error_is_error e = false → 1 ≤ fs_input_length fs).
Proof.
  unfold read_format_string. intros H.
  destruct (read_format_string_position format initial_format_specifier)
    as [[error fs1]|] eqn:Hpos; [|discriminate].
  apply read_format_string_position_consumes in Hpos as [Hbound Hmoved].
  simpl in H, Hbound, Hmoved.
  destruct (format_error_is_error error) eqn:Herror.
  { injection H as <- <-. split; [lia|]. rewrite Herror. discriminate. }
  specialize (Hmoved eq_refl).
  destruct (format_error_is_error (format_string_check_length_type fs1))
    eqn:Hcheck; injection H as <- <-; (split; [lia|]); intros; lia.
Qed.

(** The directive "-08.3lld" and what follows it. *)
Lemma read_format_string_stays_within_the_text_witness :
  let format := "-08.3lld and more"%string in
  let fs := mk_fs 8 true false false false true 0 8 0 3 LENGTH_ll TYPE_d 0 in
  read_format_string format = Some (FORMAT_okay, fs)
  ∧ 0 ≤ fs_input_length fs ≤ Z.of_nat (String.length format)
  ∧ (format_error_is_error FORMAT_okay = false → 1 ≤ fs_input_length fs).
Proof.
  intros format fs.
  assert (H : read_format_string format = Some (FORMAT_okay, fs))
    by (vm_compute; reflexivity).
  split; [exact H|].
  exact (read_format_string_stays_within_the_text format FORMAT_okay fs H).
Defined.

(** ** The parser: what it accepts *)

Lemma read_format_string_type_code format fs e fs' :
  read_format_string_type format fs = Some (e, fs') →
  (e = FORMAT_okay ∧ fs_type fs' ≠ TYPE_ERROR)
  ∨ e = FORMAT_ERROR_unknown_type.
Proof.
  unfold read_format_string_type. intros H.
  repeat (first [case_match | progress simplify_option_eq]);
    consumed_facts; first [right; reflexivity | left; split; [reflexivity|]];
    destruct fs; discriminate.
Qed.

Lemma read_format_string_length_code format fs e fs' :
  read_format_string_length format fs = Some (e, fs') →
  (e = FORMAT_okay ∧ fs_type fs' ≠ TYPE_ERROR)
  ∨ format_error_is_error e = true.
Proof.
  unfold read_format_string_length. intros H.
  repeat (first [case_match | progress simplify_option_eq]);
    match goal with
    | H : read_format_string_type _ _ = Some _ |- _ =>
        apply read_format_string_type_code in H as [?| ->]; [left|right]; auto
    end.
Qed.

Lemma read_format_string_precision_code format fs e fs' :
  read_format_string_precision format fs = Some (e, fs') →
  (e = FORMAT_okay ∧ fs_type fs' ≠ TYPE_ERROR)
  ∨ format_error_is_error e = true.
Proof.
  unfold read_format_string_precision. intros H.
  repeat (first [case_match | progress simplify_option_eq]);
    first [ right; reflexivity
          | eapply read_format_string_length_code; eassumption ].
Qed.

Lemma read_format_string_width_code format fs e fs' :
  read_format_string_width format fs = Some (e, fs') →
  (e = FORMAT_okay ∧ fs_type fs' ≠ TYPE_ERROR)
  ∨ format_error_is_error e = true.
Proof.
  unfold read_format_string_width. intros H.
  repeat (first [case_match | progress simplify_option_eq]);
    first [ right; reflexivity
          | eapply read_format_string_precision_code; eassumption ].
Qed.

Lemma read_format_string_flags_code format fs e fs' :
  read_format_string_flags format fs = Some (e, fs') →
  ((e = FORMAT_okay ∨ e = FORMAT_WARNING_repeat_flag)
   ∧ fs_type fs' ≠ TYPE_ERROR)
  ∨ format_error_is_error e = true.
Proof.
  unfold read_format_string_flags. intros H.
  destruct (read_format_string_flags_loop format fs FORMAT_okay)
    as [[[format' fs1] error]|] eqn:Hloop; [|discriminate].
  apply read_format_string_flags_loop_consumes in Hloop
    as (_ & _ & Herror).
  simpl in H.
  destruct (read_format_string_width format' fs1) as [[rest fs2]|] eqn:Hw;
    [|discriminate].
  apply read_format_string_width_code in Hw. simpl in H.
  destruct (bool_decide (rest = FORMAT_okay)) eqn:Hrest;
    injection H as <- <-.
  - apply bool_decide_eq_true in Hrest. subst rest.
    destruct Hw as [[_ Htype]|Hw]; [|discriminate]. left. tauto.
  - apply bool_decide_eq_false in Hrest.
    destruct Hw as [[Hokay _]|Hw]; [contradiction|]. right. exact Hw.
Qed.

Lemma read_format_string_position_code format fs e fs' :
  read_format_string_position format fs = Some (e, fs') →
  ((e = FORMAT_okay ∨ e = FORMAT_WARNING_repeat_flag)
   ∧ fs_type fs' ≠ TYPE_ERROR)
  ∨ format_error_is_error e = true.
Proof.
  unfold read_format_string_position. intros H.
  repeat (first [case_match | progress simplify_option_eq]);
    first [ eapply read_format_string_flags_code; eassumption
          | match goal with
            | H : read_format_string_precision _ _ = Some _ |- _ =>
                apply read_format_string_precision_code in H
                  as [[-> ?]|?]; [left|right]; auto
            end ].
Qed.

(** X2.  A directive the parser does not reject has a conversion type and a
    length modifier the validator accepts for that type; and the only
    warning the parser itself gives is the one for a repeated flag. *)
Theorem read_format_string_accepts (format : string) (e : format_error)
  (fs : format_specifier) :
  read_format_string format = Some (e, fs) →
  format_error_is_error e = false →
  (e = FORMAT_okay ∨ e = FORMAT_WARNING_repeat_flag)
  ∧ fs_type fs ≠ TYPE_ERROR
  ∧ format_string_check_length_type fs = FORMAT_okay.
Proof.
  unfold read_format_string. intros H He.
  destruct (read_format_string_position format initial_format_specifier)
    as [[error fs1]|] eqn:Hpos; [|discriminate].
  apply read_format_string_position_code in Hpos. simpl in H.
  destruct (format_error_is_error error) eqn:Herror.
  { injection H as <- <-. congruence. }
  destruct Hpos as [[Hcode Htype]|Hpos]; [|congruence].
  destruct (format_error_is_error (format_string_check_length_type fs1))
    eqn:Hcheck; injection H as <- <-; [congruence|].
  split; [exact Hcode|]. split; [exact Htype|].
  revert Hcheck. unfold format_string_check_length_type.
  destruct (fs_type fs1); try contradiction;
    repeat case_match; try reflexivity; discriminate.
Qed.

(** The directive "++5hhd": the flag is repeated, the length hh goes with
    d. *)
Lemma read_format_string_accepts_witness :
  let fs := mk_fs 6 false true false false false 0 5 0 (-1) LENGTH_hh TYPE_d
              0 in
  read_format_string "++5hhd" = Some (FORMAT_WARNING_repeat_flag, fs)
  ∧ fs_type fs ≠ TYPE_ERROR
  ∧ format_string_check_length_type fs = FORMAT_okay.
Proof.
  intros fs.
  assert (H : read_format_string "++5hhd"
              = Some (FORMAT_WARNING_repeat_flag, fs))
    by (vm_compute; reflexivity).
  split; [exact H|].
  destruct (read_format_string_accepts "++5hhd" FORMAT_WARNING_repeat_flag fs
              H eq_refl) as (_ & Htype & Hcheck).
  split; [exact Htype|exact Hcheck].
Defined.

(** ** The number reader reads back what the number writer writes *)

Lemma lsb_value_app (base : Z) (l1 l2 : list Z) :
  lsb_value base (l1 ++ l2)
  = lsb_value base l1 + base ^ Z.of_nat (length l1) * lsb_value base l2.
Proof.
  induction l1 as [|d l1 IH]; simpl lsb_value; simpl length.
  - rewrite Z.pow_0_r. lia.
  - rewrite IH, Nat2Z.inj_succ, Z.pow_succ_r by lia. ring.
Qed.

Lemma lsb_value_nonneg (base : Z) (ds : list Z) :
  0 ≤ base → Forall (λ d, 0 ≤ d < base) ds → 0 ≤ lsb_value base ds.
Proof.
  intros Hbase. induction 1 as [|d ds Hd _ IH]; simpl; [lia|]. nia.
Qed.

Lemma decimal_digit_char (char_values : string) (d : Z) :
  char_values = base_conversion_small
  ∨ char_values = base_conversion_capital →
  0 ≤ d < 10 →
  is_digit (digit_char char_values d) = true
  ∧ digit_value (digit_char char_values d) = d.
Proof.
  intros Htable Hd.
  assert (Hcases : d = 0 ∨ d = 1 ∨ d = 2 ∨ d = 3 ∨ d = 4 ∨ d = 5 ∨ d = 6
                   ∨ d = 7 ∨ d = 8 ∨ d = 9) by lia.
  destruct Htable as [-> | ->];
    repeat (destruct Hcases as [-> | Hcases]; [split; reflexivity|]);
    subst d; split; reflexivity.
Qed.

Lemma fmap_rev_list {A B} (f : A → B) (l : list A) :
  f <$> rev l = rev (f <$> l).
Proof.
  induction l as [|x l IH]; [reflexivity|].
  simpl. rewrite fmap_app, IH. reflexivity.
Qed.

(** The reader on digits given most significant first, followed by
    something that is no digit. *)
Lemma format_string_atoi_loop_digits (char_values : string) (ds : list Z)
  (rest : string) (current characters_read : Z) :
  char_values = base_conversion_small
  ∨ char_values = base_conversion_capital →
  Forall (λ d, 0 ≤ d < 10) ds →
  is_digit (peek rest) = false →
  0 ≤ current → 0 ≤ characters_read →
  current * 10 ^ Z.of_nat (length ds) + lsb_value 10 (rev ds) ≤ INT_MAX →
  characters_read + Z.of_nat (length ds) ≤ INT_MAX →
  format_string_atoi_loop
    (String.append (String.string_of_list_ascii (digit_char char_values <$> ds))
       rest) current characters_read
  = Some (characters_read + Z.of_nat (length ds),
          current * 10 ^ Z.of_nat (length ds) + lsb_value 10 (rev ds)).
Proof.
  intros Htable Hds Hrest. revert current characters_read.
  induction Hds as [|d ds Hd Hds IH]; intros current characters_read Hc Hn.
  - simpl. intros _ _. destruct rest as [|c rest]; simpl in *.
    + do 2 f_equal; lia.
    + rewrite Hrest. do 2 f_equal; lia.
  - simpl length. rewrite Nat2Z.inj_succ, Z.pow_succ_r by lia.
    simpl rev. rewrite lsb_value_app, length_rev. simpl lsb_value.
    intros Hvalue Hcount.
    pose proof (lsb_value_nonneg 10 (rev ds) ltac:(lia) (Forall_rev Hds))
      as Hlow.
    assert (Hpow : 0 < 10 ^ Z.of_nat (length ds))
      by (apply Z.pow_pos_nonneg; lia).
    destruct (decimal_digit_char char_values d Htable Hd) as [Hdigit Hdv].
    simpl format_string_atoi_loop.
    rewrite Hdigit, Hdv.
    assert (Hint : ∀ z, 0 ≤ z ≤ INT_MAX → int_checked z = Some z).
    { intros z Hz. unfold int_checked.
      destruct (decide _) as [|Hbad]; [reflexivity|].
      unfold INT_MIN, INT_MAX in *. lia. }
    rewrite (Hint (current * 10)) by nia. cbn [mbind option_bind].
    rewrite (Hint (current * 10 + d)) by nia. cbn [mbind option_bind].
    rewrite (Hint (characters_read + 1)) by lia. cbn [mbind option_bind].
    rewrite IH by (try lia; nia).
    do 2 f_equal; [lia|ring].
Qed.

(** X3.  The decimal reader of the parser reads back what the decimal writer
    of the emitters writes: the digits [write_integer_backwards] produces
    for a value of the range of [int], written out most significant first
    and followed by anything that is no digit, are read by
    [format_string_atoi] as that value, with one character counted per
    digit. *)
Theorem format_string_atoi_reads_back (value : Z) (fs : format_specifier)
  (buffer : list ascii) (rest : string) :
  0 ≤ value ≤ INT_MAX →
  write_integer_backwards value fs 10 = Some buffer →
  is_digit (peek rest) = false →
  format_string_atoi
    (String.append (String.string_of_list_ascii (rev buffer)) rest)
  = Some (Z.of_nat (length buffer), value).
Proof.
  intros Hvalue Hwrite Hrest.
  destruct (write_integer_backwards_spec value fs 10)
    as (ds & Hbuffer & Hlsb & Hds & Hlen & _);
    [lia|unfold INT_MAX, UINTMAX_MAX in *; lia|].
  rewrite Hwrite in Hbuffer. injection Hbuffer as ->.
  rewrite <- fmap_rev_list, length_fmap.
  unfold format_string_atoi.
  rewrite format_string_atoi_loop_digits.
  - rewrite length_rev, rev_involutive, Hlsb. do 2 f_equal; lia.
  - destruct (decide _); [right|left]; reflexivity.
  - apply Forall_rev. eapply Forall_impl; [exact Hds|]. simpl. lia.
  - exact Hrest.
  - lia.
  - lia.
  - rewrite rev_involutive, Hlsb. lia.
  - rewrite length_rev. unfold INT_MAX. lia.
Qed.

(** The value 2017, written and read back before a dollar sign. *)
Lemma format_string_atoi_reads_back_witness :
  let fs := mk_fs 0 false false false false false 0 0 0 (-1) LENGTH_none
              TYPE_d 0 in
  write_integer_backwards 2017 fs 10 = Some ["7"; "1"; "0"; "2"]%char
  ∧ format_string_atoi "2017$d" = Some (4, 2017).
Proof.
  intros fs.
  assert (H : write_integer_backwards 2017 fs 10
              = Some ["7"; "1"; "0"; "2"]%char) by (vm_compute; reflexivity).
  split; [exact H|].
  apply (format_string_atoi_reads_back 2017 fs ["7"; "1"; "0"; "2"]%char "$d");
    [unfold INT_MAX; lia|exact H|reflexivity].
Defined.

(** ** The normaliser settles the specifier *)

Lemma unused_values_table_blocks :
  unused_values_blocks = row_block <$> unused_values_table.
Proof. reflexivity. Qed.

Lemma run_rows_snoc T t st :
  run_rows (T ++ [t]) st = row_block t (run_rows T st).
Proof. unfold run_rows. rewrite fmap_app, foldl_app. reflexivity. Qed.

(** Rows whose conditions are all false do nothing. *)
Lemma run_rows_idle T e fs :
  Forall (λ t, t.1.1 fs = false) T → run_rows T (e, fs) = (e, fs).
Proof.
  induction T as [|t T IH] using rev_ind; intros Hall; [reflexivity|].
  apply Forall_app in Hall as [HT Ht]. apply Forall_inv in Ht.
  rewrite run_rows_snoc, IH by exact HT.
  unfold row_block, cancel. simpl. rewrite Ht. reflexivity.
Qed.

(** The code stays [FORMAT_okay] only if no row has fired. *)
Lemma run_rows_okay T fs :
  Forall (λ t, t.1.2 ≠ FORMAT_okay) T →
  (run_rows T (FORMAT_okay, fs)).1 = FORMAT_okay →
  run_rows T (FORMAT_okay, fs) = (FORMAT_okay, fs).
Proof.
  induction T as [|t T IH] using rev_ind; intros Hall; [reflexivity|].
  apply Forall_app in Hall as [HT Ht]. apply Forall_inv in Ht.
  rewrite run_rows_snoc. unfold row_block, cancel.
  destruct (t.1.1 (run_rows T (FORMAT_okay, fs)).2); simpl.
  - intros Hcode. contradiction.
  - intros Hcode. rewrite IH by assumption. reflexivity.
Qed.

(** When every assignment makes its own condition false, and keeps false
    the conditions of the other rows, all the conditions are false at the
    end. *)
Lemma run_rows_settles T st :
  Forall (λ t, ∀ fs, t.1.1 (t.2 fs) = false) T →
  Forall (λ t, Forall (λ t', ∀ fs, t.1.1 fs = false → t.1.1 (t'.2 fs) = false)
                 T) T →
  Forall (λ t, t.1.1 (run_rows T st).2 = false) T.
Proof.
  induction T as [|t T IH] using rev_ind; intros Hown Hkept;
    [apply Forall_nil; exact I|].
  apply Forall_app in Hown as [HownT Hownt]. apply Forall_inv in Hownt.
  apply Forall_app in Hkept as [HkeptT Hkeptt]. apply Forall_inv in Hkeptt.
  apply Forall_app in Hkeptt as [_ Hself].
  assert (HT : Forall (λ t0, t0.1.1 (run_rows T st).2 = false) T).
  { apply IH; [exact HownT|].
    eapply Forall_impl; [exact HkeptT|]. simpl.
    intros t0 H0. apply Forall_app in H0 as [H0 _]. exact H0. }
  rewrite run_rows_snoc. unfold row_block, cancel.
  apply Forall_app. split.
  - rewrite Forall_forall in HT, HkeptT. apply Forall_forall.
    intros t0 Hin. specialize (HT t0 Hin). specialize (HkeptT t0 Hin).
    apply Forall_app in HkeptT as [_ Hlast]. apply Forall_inv in Hlast.
    destruct (t.1.1 (run_rows T st).2); simpl; auto.
  - apply Forall_cons. split; [|apply Forall_nil; exact I].
    destruct (t.1.1 (run_rows T st).2) eqn:Hfired; simpl; auto.
Qed.

Lemma unused_values_table_settles (st : format_error * format_specifier) :
  Forall (λ t, t.1.1 (run_rows unused_values_table st).2 = false)
    unused_values_table.
Proof.
  apply run_rows_settles; unfold unused_values_table.
  - repeat (apply Forall_cons; split;
            [intros []; cbn; rewrite ?andb_false_r; reflexivity|]).
    apply Forall_nil. exact I.
  - repeat (apply Forall_cons; split;
            [repeat (apply Forall_cons; split;
                     [intros [] H; cbn in *;
                      first [exact H | rewrite ?andb_false_r; reflexivity]|]);
             apply Forall_nil; exact I|]).
    apply Forall_nil. exact I.
Qed.

Lemma check_unused_values_run_rows (fs : format_specifier) :
  format_string_check_unused_values fs
  = run_rows unused_values_table (FORMAT_okay, fs).
Proof.
  unfold format_string_check_unused_values, run_rows.
  rewrite unused_values_table_blocks. reflexivity.
Qed.

(** X4.  The normaliser settles the specifier: run on its own result it
    changes nothing and gives no warning; and it gives no warning exactly
    when it has changed nothing. *)
Theorem format_string_check_unused_values_settles (fs : format_specifier) :
  format_string_check_unused_values (format_string_check_unused_values fs).2
  = (FORMAT_okay, (format_string_check_unused_values fs).2)
  ∧ ((format_string_check_unused_values fs).1 = FORMAT_okay
     ↔ (format_string_check_unused_values fs).2 = fs).
Proof.
  assert (Hagain : ∀ fs,
    format_string_check_unused_values (format_string_check_unused_values fs).2
    = (FORMAT_okay, (format_string_check_unused_values fs).2)).
  { intros fs0. rewrite !check_unused_values_run_rows.
    apply run_rows_idle, unused_values_table_settles. }
  split; [apply Hagain|]. split.
  - intros Hcode. rewrite check_unused_values_run_rows in *.
    rewrite run_rows_okay; [reflexivity| |exact Hcode].
    unfold unused_values_table.
    repeat (apply Forall_cons; split; [discriminate|]).
    apply Forall_nil. exact I.
  - intros Hsame. specialize (Hagain fs). rewrite Hsame in Hagain.
    rewrite Hagain. reflexivity.
Qed.

Lemma check_unused_values_leaves_at (fs fs' : format_specifier) :
  fs' = (format_string_check_unused_values fs).2 →
  (fs_always_sign fs' = true → fs_empty_sign fs' = false)
  ∧ (fs_type fs ∈ [TYPE_d; TYPE_i; TYPE_u] → fs_alternate_form fs' = false)
  ∧ (fs_type fs ∈ [TYPE_x; TYPE_X] →
     fs_always_sign fs' = false ∧ fs_empty_sign fs' = false)
  ∧ (fs_type fs ∈ [TYPE_c; TYPE_s; TYPE_p] →
     fs_always_sign fs' = false ∧ fs_empty_sign fs' = false
     ∧ fs_alternate_form fs' = false ∧ fs_zero_padded fs' = false)
  ∧ (fs_type fs = TYPE_n →
     fs_always_sign fs' = false ∧ fs_empty_sign fs' = false
     ∧ fs_alternate_form fs' = false ∧ fs_zero_padded fs' = false
     ∧ fs_left_justify fs' = false ∧ fs_width fs' = 0
     ∧ fs_precision fs' = -1)
  ∧ (fs_type fs ∈ [TYPE_c; TYPE_p] → fs_precision fs' = -1)
  ∧ (fs_zero_padded fs' = true →
     fs_left_justify fs' = false ∧ fs_precision fs' = -1).
Proof.
  intros Hfs'.
  pose proof (unused_values_table_settles (FORMAT_okay, fs)) as Hall.
  rewrite <- check_unused_values_run_rows, <- Hfs' in Hall.
  pose proof (check_unused_values_type fs) as Htype. rewrite <- Hfs' in Htype.
  clear Hfs'. unfold unused_values_table in Hall.
  apply Forall_cons in Hall as [H1 Hall].
  apply Forall_cons in Hall as [H2 Hall].
  apply Forall_cons in Hall as [H3 Hall].
  apply Forall_cons in Hall as [H4 Hall].
  apply Forall_cons in Hall as [H5 Hall].
  apply Forall_cons in Hall as [H6 Hall].
  apply Forall_cons in Hall as [H7 Hall].
  apply Forall_cons in Hall as [H8 Hall].
  apply Forall_cons in Hall as [H9 Hall].
  apply Forall_cons in Hall as [H10 Hall].
  apply Forall_cons in Hall as [H11 Hall].
  apply Forall_cons in Hall as [H12 Hall].
  apply Forall_cons in Hall as [H13 Hall].
  apply Forall_cons in Hall as [H14 Hall].
  apply Forall_cons in Hall as [H15 Hall].
  apply Forall_cons in Hall as [H16 Hall].
  apply Forall_cons in Hall as [H17 Hall].
  apply Forall_cons in Hall as [H18 Hall].
  clear Hall. cbn [fst snd] in *. unfold has_type in *. rewrite Htype in *.
  clear Htype.
  assert (Hw : bool_decide (fs_width fs' ≠ 0) = false → fs_width fs' = 0).
  { intros H. apply bool_decide_eq_false in H.
    destruct (decide (fs_width fs' = 0)); [assumption|contradiction]. }
  assert (Hp : bool_decide (fs_precision fs' ≠ -1) = false
               → fs_precision fs' = -1).
  { intros H. apply bool_decide_eq_false in H.
    destruct (decide (fs_precision fs' = -1)); [assumption|contradiction]. }
  repeat match goal with |- _ ∧ _ => split end; intros Hin;
    try (rewrite (bool_decide_true _ Hin) in * );
    cbn [andb] in *.
  - rewrite Hin in H1. exact H1.
  - exact H2.
  - auto.
  - auto.
  - assert (Hn : bool_decide (fs_type fs ∈ [TYPE_n]) = true)
      by (apply bool_decide_eq_true; rewrite Hin; apply list_elem_of_here).
    rewrite Hn in *. cbn [andb] in *. auto 10.
  - auto.
  - rewrite Hin, ?andb_true_r in *. cbn [andb] in *. auto.
Qed.

(** X5.  What the emitters can rely on after the normaliser: a plus sign
    excludes the space sign; the decimal conversions have no alternate form;
    the hexadecimal ones have no sign flag; c, s and p have no flag but the
    left justification; n has no flag, no width and no precision; c and p
    have no precision; and zero padding excludes both the left justification
    and a precision. *)
Theorem format_string_check_unused_values_leaves (fs : format_specifier) :
  let fs' := (format_string_check_unused_values fs).2 in
  (fs_always_sign fs' = true → fs_empty_sign fs' = false)
  ∧ (fs_type fs ∈ [TYPE_d; TYPE_i; TYPE_u] → fs_alternate_form fs' = false)
  ∧ (fs_type fs ∈ [TYPE_x; TYPE_X] →
     fs_always_sign fs' = false ∧ fs_empty_sign fs' = false)
  ∧ (fs_type fs ∈ [TYPE_c; TYPE_s; TYPE_p] →
     fs_always_sign fs' = false ∧ fs_empty_sign fs' = false
     ∧ fs_alternate_form fs' = false ∧ fs_zero_padded fs' = false)
  ∧ (fs_type fs = TYPE_n →
     fs_always_sign fs' = false ∧ fs_empty_sign fs' = false
     ∧ fs_alternate_form fs' = false ∧ fs_zero_padded fs' = false
     ∧ fs_left_justify fs' = false ∧ fs_width fs' = 0
     ∧ fs_precision fs' = -1)
  ∧ (fs_type fs ∈ [TYPE_c; TYPE_p] → fs_precision fs' = -1)
  ∧ (fs_zero_padded fs' = true →
     fs_left_justify fs' = false ∧ fs_precision fs' = -1).
Proof. exact (check_unused_values_leaves_at fs _ eq_refl). Qed.

(** ** The emitters: fields *)

Lemma field_length (fs : format_specifier) (prefix number : list ascii)
  (padding : Z) :
  Z.of_nat (length (field fs prefix number padding))
  = Z.of_nat (length prefix) + Z.of_nat (length number) + Z.max 0 padding.
Proof.
  unfold field.
  destruct (fs_zero_padded fs); [|destruct (fs_left_justify fs)];
    rewrite !length_app, length_replicate; lia.
Qed.

Lemma padded_field_length (fs : format_specifier)
  (prefix number : list ascii) :
  Z.of_nat (length (padded_field fs prefix number))
  = Z.max (fs_width fs) (Z.of_nat (length prefix) + Z.of_nat (length number)).
Proof. unfold padded_field. rewrite field_length. lia. Qed.

Lemma string_field_length (fs : format_specifier) (text : list ascii) :
  Z.of_nat (length (string_field fs text))
  = Z.max (fs_width fs) (Z.of_nat (length text)).
Proof.
  unfold string_field.
  destruct (fs_left_justify fs); rewrite length_app, length_replicate; lia.
Qed.

(** X6.  The width is a minimum: an integer conversion emits its sign or
    prefix and [max precision digits] digit characters in full, and pads
    the field up to the width; it never emits fewer characters than the
    width and never cuts the number. *)
Theorem integer_width_is_minimum_field_width (fs : format_specifier)
  (value : Z) (s : state) :
  -1 ≤ fs_precision fs ≤ INT_MAX →
  0 ≤ fs_width fs ≤ INT_MAX →
  is_integer_type (fs_type fs) = true →
  0 ≤ value ≤ UINTMAX_MAX →
  (∃ (buffer cs : list ascii),
     write_integer_positive value fs s = emit cs s
     ∧ integer_digits value fs (base_of (fs_type fs)) s = Ok buffer s
     ∧ Z.of_nat (length cs)
       = Z.max (fs_width fs)
           (Z.of_nat (length (integer_prefix fs buffer))
            + Z.max (fs_precision fs) (Z.of_nat (length buffer))))
  ∧ (∀ negative : Z,
       - 2 ^ 63 ≤ negative < 0 →
       ∃ (buffer cs : list ascii),
         write_decimal_negative (to_uintmax negative) fs s = emit cs s
         ∧ numeral base_conversion_small 10 (- negative) buffer
         ∧ Z.of_nat (length cs)
           = Z.max (fs_width fs)
               (1 + Z.max (fs_precision fs) (Z.of_nat (length buffer)))).
Proof.
  intros Hp Hw Ht Hv. split.
  - destruct (write_integer_positive_emit fs Hp Hw value s Ht Hv)
      as (buffer & Hemit & Hdigits & _).
    exists buffer. eexists. split; [exact Hemit|]. split; [exact Hdigits|].
    rewrite padded_field_length, digit_run_length. reflexivity.
  - intros negative Hn.
    destruct (write_decimal_negative_emit fs Hp Hw negative s Hn)
      as (buffer & Hemit & Hnumeral).
    exists buffer. eexists. split; [exact Hemit|]. split; [exact Hnumeral|].
    rewrite padded_field_length, digit_run_length. reflexivity.
Qed.

(** The value 42 in a field of width 5. *)
Lemma integer_width_is_minimum_field_width_witness :
  let fs := mk_fs 2 false false false false false 0 5 0 (-1) LENGTH_none
              TYPE_d 0 in
  ∃ (buffer cs : list ascii),
    write_integer_positive 42 fs Scenario.machine = emit cs Scenario.machine
    ∧ integer_digits 42 fs 10 Scenario.machine = Ok buffer Scenario.machine
    ∧ Z.of_nat (length cs)
      = Z.max 5 (Z.of_nat (length (integer_prefix fs buffer))
                 + Z.max (-1) (Z.of_nat (length buffer))).
Proof.
  intros fs.
  apply (integer_width_is_minimum_field_width fs 42 Scenario.machine);
    [simpl; unfold INT_MAX; lia|simpl; unfold INT_MAX; lia|reflexivity
    |unfold UINTMAX_MAX; lia].
Defined.

(** X7.  The string conversion emits the characters of the string before
    its NUL, the first [precision] of them at most when a precision is
    given, and pads with spaces up to the width, on the left or, with the
    left justification, on the right. *)
Theorem write_string_field (str : string) (fs : format_specifier)
  (s : state) :
  -1 ≤ fs_precision fs ≤ INT_MAX → 0 ≤ fs_width fs ≤ INT_MAX →
  strlen str ≤ INT_MAX →
  let n := if decide (fs_precision fs = -1) then strlen str
           else Z.min (fs_precision fs) (strlen str) in
  let text := take (Z.to_nat n) (chars_of str) in
  write_string (Some str) fs s = emit (string_field fs text) s
  ∧ Z.of_nat (length text) = n
  ∧ (NUL ∉ text)
  ∧ Z.of_nat (length (string_field fs text)) = Z.max (fs_width fs) n.
Proof.
  intros Hp Hw Hlen n text.
  assert (Hn : 0 ≤ n ≤ strlen str).
  { subst n. pose proof (strlen_bound str). destruct (decide _); lia. }
  assert (Htext : Z.of_nat (length text) = n).
  { subst text. rewrite length_take, chars_of_length.
    pose proof (strlen_bound str). lia. }
  split; [apply write_string_emit; assumption|].
  split; [exact Htext|]. split.
  - subst text. clear Htext. revert Hn. generalize n. clear.
    induction str as [|c str IH]; intros n Hn; simpl in *.
    + rewrite take_nil. apply not_elem_of_nil.
    + destruct (bool_decide (c = NUL)) eqn:Hc.
      * replace n with 0 by lia. simpl. apply not_elem_of_nil.
      * apply bool_decide_eq_false in Hc.
        destruct (Z.to_nat n) as [|k] eqn:Hk; [apply not_elem_of_nil|].
        simpl. apply not_elem_of_cons. split; [congruence|].
        replace k with (Z.to_nat (n - 1)) by lia. apply IH. lia.
  - rewrite string_field_length, Htext. reflexivity.
Qed.

(** The string "hello" with precision 3 in a field of width 5. *)
Lemma write_string_field_witness :
  let fs := mk_fs 4 false false false false false 0 5 0 3 LENGTH_none TYPE_s
              0 in
  write_string (Some "hello") fs Scenario.machine
  = emit [" "; " "; "h"; "e"; "l"]%char Scenario.machine.
Proof.
  intros fs.
  destruct (write_string_field "hello" fs Scenario.machine) as [Hemit _];
    [simpl; unfold INT_MAX; lia|simpl; unfold INT_MAX; lia
    |vm_compute; discriminate|].
  rewrite Hemit. reflexivity.
Defined.

(** X8.  The character conversion emits one character, the argument
    converted to [char] (its value modulo 256, NUL included), in a field of
    [width] characters at least, laid out by the flags like a number. *)
Theorem write_character_field (value : Z) (fs : format_specifier)
  (s : state) :
  0 ≤ fs_width fs ≤ INT_MAX →
  write_character value fs s
  = emit (padded_field fs [] [char_of_code value]) s
  ∧ char_code (char_of_code value) = value mod 256
  ∧ Z.of_nat (length (padded_field fs [] [char_of_code value]))
    = Z.max 1 (fs_width fs).
Proof.
  intros Hw. split; [|split].
  - unfold write_character.
    assert (Hpad : to_uint
                     (if decide (1 < fs_width fs)
                      then to_int (to_uint (fs_width fs - 1)) else 0)
                   = Z.max 0 (fs_width fs - 1)).
    { unfold INT_MAX in Hw. destruct (decide _).
      - rewrite (to_uint_id (fs_width fs - 1)) by (unfold UINT_MAX; lia).
        rewrite to_int_id by (unfold INT_MIN, INT_MAX; lia).
        rewrite to_uint_id by (unfold UINT_MAX; lia). lia.
      - rewrite to_uint_id by (unfold UINT_MAX; lia). lia. }
    rewrite Hpad.
    change 1 with (Z.of_nat (length [char_of_code value])) at 1.
    rewrite write_backwards_buffer_with_padding_emit
      by (simpl; unfold INT_MAX in *; lia).
    unfold padded_field, prefix_chars.
    destruct (decide (NUL ≠ NUL)) as [Hne|_]; [contradiction|].
    simpl app. simpl length.
    unfold field.
    replace (Z.to_nat (fs_width fs - Z.of_nat 0 - Z.of_nat 1))
      with (Z.to_nat (Z.max 0 (fs_width fs - 1))) by lia.
    reflexivity.
  - unfold char_code, char_of_code.
    rewrite N_ascii_embedding.
    + rewrite Z2N.id; [reflexivity|]. apply Z.mod_pos_bound. lia.
    + assert (H : 0 ≤ value mod 256 < 256) by (apply Z.mod_pos_bound; lia).
      lia.
  - rewrite padded_field_length. simpl. lia.
Qed.

(** The argument 321 is the character "A", right justified in a field of
    width 3. *)
Lemma write_character_field_witness :
  let fs := mk_fs 2 false false false false false 0 3 0 (-1) LENGTH_none
              TYPE_c 0 in
  write_character 321 fs Scenario.machine
  = emit [" "; " "; "A"]%char Scenario.machine.
Proof.
  intros fs.
  destruct (write_character_field 321 fs Scenario.machine) as [Hemit _];
    [simpl; unfold INT_MAX; lia|].
  rewrite Hemit. reflexivity.
Defined.

(** X9.  The pointer conversion looks at the width and the left
    justification only: a null pointer is rendered as the text "(nil)", any
    other as "0x" and the hexadecimal digits of the address in small
    letters, in a field padded with spaces like a string. *)
Theorem write_pointer_field (pointer : Z) (fs : format_specifier)
  (s : state) :
  0 ≤ fs_width fs ≤ INT_MAX → 0 ≤ pointer ≤ UINTMAX_MAX →
  ∃ text : list ascii,
    write_pointer pointer fs s = emit (string_field fs text) s
    ∧ (pointer = 0 → text = chars_of null_pointer_string)
    ∧ (pointer ≠ 0 →
       ∃ buffer : list ascii,
         text = ["0"; "x"]%char ++ rev buffer
         ∧ numeral base_conversion_small 16 pointer buffer).
Proof.
  intros Hw Hp. unfold write_pointer.
  set (pointer_fs := mk_fs 0 (fs_left_justify fs) false false false false 0
                       (fs_width fs) 0 (-1) LENGTH_none TYPE_x 0).
  destruct (decide (pointer = 0)) as [->|Hnonzero].
  - exists (chars_of null_pointer_string).
    split; [|split; [reflexivity|contradiction]].
    rewrite write_string_emit;
      [reflexivity|simpl; unfold INT_MAX; lia|exact Hw
      |vm_compute; discriminate].
  - rewrite to_uintmax_id by exact Hp.
    destruct (write_hexadecimal_emit (set_alternate_form true pointer_fs))
      with (value := pointer) (s := s) as (buffer & Hemit & _ & Hnumeral);
      [simpl; unfold INT_MAX; lia|exact Hw|exact Hp|].
    destruct (decide (_ ∧ _)) as [[Hzero _]|_]; [discriminate Hzero|].
    exists (["0"; "x"]%char ++ rev buffer).
    split; [|split; [contradiction|intros _; exists buffer; split;
                                   [reflexivity|exact Hnumeral]]].
    rewrite Hemit. f_equal.
    unfold padded_field, field, string_field, digit_run. simpl.
    replace (Z.to_nat (-1 - Z.of_nat (length buffer))) with 0%nat by lia.
    simpl. rewrite length_rev.
    replace (Z.to_nat (fs_width fs - Z.of_nat 2 - Z.of_nat (length buffer)))
      with (Z.to_nat (fs_width fs - Z.of_nat (S (S (length buffer)))))
      by lia.
    destruct (fs_left_justify fs); reflexivity.
Qed.

(** The null pointer in a field of width 6. *)
Lemma write_pointer_field_witness :
  let fs := mk_fs 2 false false false false false 0 6 0 (-1) LENGTH_none
              TYPE_p 0 in
  write_pointer 0 fs Scenario.machine
  = emit [" "; "("; "n"; "i"; "l"; ")"]%char Scenario.machine.
Proof.
  intros fs.
  destruct (write_pointer_field 0 fs Scenario.machine)
    as (text & Hemit & Htext & _);
    [simpl; unfold INT_MAX; lia|unfold UINTMAX_MAX; lia|].
  rewrite Hemit, Htext by reflexivity. reflexivity.
Defined.

Example write_pointer_255 :
  Scenario.sprintf "%6p|%-6p|" [APointer 255; APointer 0]
  = Some ("  0xff|(nil) |", 14).
Proof. vm_compute. reflexivity. Qed.

Lemma n_object_in_range (l : format_string_lengths) (n size v : Z) :
  n_object l n = Some (size, v) → 0 ≤ n < 2 ^ (8 * size - 1) → v = n.
Proof.
  unfold n_object, wrap_signed, wrap_unsigned.
  destruct l; intros [= <- <-] Hrange; simpl in Hrange;
    repeat match goal with
    | |- context [2 ^ ?k] =>
        let p := eval vm_compute in (2 ^ k) in change (2 ^ k) with p
    end;
    rewrite Z.mod_small by lia; lia.
Qed.

(** X10.  The conversion n emits nothing: whatever it returns, the sink, its
    counter, the streams, the descriptors and the caller's arrays are as
    before.  It returns false exactly for a null pointer and for the length
    L, and then it changes nothing at all; otherwise the only change is that
    the object the pointer points to holds the counter converted to the type
    the length selects ([int], [signed char], [short], [long], [long long],
    [intmax_t], [size_t], [ptrdiff_t]), which is the counter itself whenever
    the counter is in the range of that type. *)
Theorem write_characters_written_emits_nothing (pointer : option N)
  (fs : format_specifier) (s s' : state) (b : bool) :
  write_characters_written pointer fs s = Ok b s' →
  let n := out_characters_written (st_output s) in
  st_output s' = st_output s
  ∧ st_streams s' = st_streams s
  ∧ st_fds s' = st_fds s
  ∧ st_buffers s' = st_buffers s
  ∧ (b = false ↔ pointer = None ∨ fs_length fs = LENGTH_L)
  ∧ (b = false → s' = s)
  ∧ (b = true →
     ∃ (a : N) (size v : Z),
       pointer = Some a
       ∧ n_object (fs_length fs) n = Some (size, v)
       ∧ s' = set_mem
                (set_heap (<[a := BObject size (Some (AInt v))]>
                             (m_heap (st_mem s))) (st_mem s)) s
       ∧ (0 ≤ n < 2 ^ (8 * size - 1) → v = n)).
Proof.
  unfold write_characters_written, characters_written, get_output,
    store_object.
  intros H. cbv zeta. destruct s as [o ss fds bs m].
  destruct pointer as [a|], (fs_length fs) eqn:Hlength;
    run_inv; simplify_eq/=;
    (split; [reflexivity|]); (split; [reflexivity|]);
    (split; [reflexivity|]); (split; [reflexivity|]);
    (split; [split; [intros ?; first [discriminate | auto]
                    |intros [?|?]; first [discriminate | reflexivity]]|]);
    (split; [intros ?; first [discriminate | reflexivity]|]);
    try (intros ?; discriminate);
    intros _; do 3 eexists;
    (split; [reflexivity|]); (split; [reflexivity|]);
    (split; [reflexivity|]);
    first [ apply (n_object_in_range LENGTH_none _ _ _ eq_refl)
          | apply (n_object_in_range LENGTH_hh _ _ _ eq_refl)
          | apply (n_object_in_range LENGTH_h _ _ _ eq_refl)
          | apply (n_object_in_range LENGTH_l _ _ _ eq_refl)
          | apply (n_object_in_range LENGTH_z _ _ _ eq_refl) ].
Qed.

(** The directive "%hhn" when 200 characters have been written: the
    [signed char] at address 9 receives -56. *)
Lemma write_characters_written_emits_nothing_witness :
  let fs := mk_fs 3 false false false false false 0 0 0 (-1) LENGTH_hh
              TYPE_n 0 in
  let s := mk_state (mk_output OUTPUT_stream (Some 1%N) 0 None 0 SIZE_MAX 200)
             {[1%N := mk_device [] None]} ∅ ∅
             (mk_memory [] {[9%N := BObject 1 None]} 10%N []) in
  ∃ s' : state,
    write_characters_written (Some 9%N) fs s = Ok true s'
    ∧ m_heap (st_mem s') !! 9%N = Some (BObject 1 (Some (AInt (-56))))
    ∧ st_output s' = st_output s
    ∧ st_streams s' = st_streams s.
Proof.
  intros fs s.
  eassert (H : write_characters_written (Some 9%N) fs s = Ok true _)
    by (vm_compute; reflexivity).
  destruct (write_characters_written_emits_nothing _ _ _ _ _ H)
    as (Houtput & Hstreams & _ & _ & _ & _ & Hstored).
  destruct (Hstored eq_refl) as (a & size & v & [= <-] & [= <- <-] & Hs' & _).
  eexists. split; [exact H|]. split; [|split; [exact Houtput|exact Hstreams]].
  rewrite Hs'. reflexivity.
Defined.

(** ** The sinks *)

(** One character to a stream: a stream that has no room refuses it, and
    nothing changes; otherwise the stream takes it and the counter
    advances. *)
Lemma printf_output_to_stream (c : ascii) (s : state) (h : N)
  (data : list ascii) (room : option nat) :
  out_type (st_output s) = OUTPUT_stream →
  out_stream (st_output s) = Some h →
  st_streams s !! h = Some (mk_device data room) →
  printf_output c s
  = match room with
    | Some O => Ok false s
    | _ =>
        Ok true
          (set_output
             (set_characters_written
                (to_size_t (out_characters_written (st_output s) + 1))
                (st_output s))
             (set_streams
                (<[h := mk_device (data ++ [c]) (Nat.pred <$> room)]>
                   (st_streams s)) s))
    end.
Proof.
  intros Htype Hstream Hdevice.
  unfold printf_output, printf_output_fprintf, count_character, get_output,
    put_output, putc.
  exec. rewrite Htype. exec. rewrite Hstream. exec. rewrite Hdevice. exec.
  destruct room as [[|k]|]; reflexivity.
Qed.

(** X11.  A run of characters sent to a stream sink: the stream takes the
    characters for which it has room, in order, and the counter advances by
    one for each of them and for no other; the run succeeds exactly when
    the stream has taken them all, and stops at the first refusal.  The
    other streams, the descriptors, the caller's arrays and the memory are
    not touched. *)
Theorem emit_to_a_stream (cs : list ascii) (s : state) (h : N)
  (data : list ascii) (room : option nat) :
  out_type (st_output s) = OUTPUT_stream →
  out_stream (st_output s) = Some h →
  st_streams s !! h = Some (mk_device data room) →
  0 ≤ out_characters_written (st_output s) →
  out_characters_written (st_output s) + Z.of_nat (length cs) ≤ SIZE_MAX →
  let accepted := match room with None => cs | Some k => take k cs end in
  ∃ s' : state,
    emit cs s = Ok (bool_decide (accepted = cs)) s'
    ∧ st_streams s' !! h
      = Some (mk_device (data ++ accepted)
                ((λ k, (k - length accepted)%nat) <$> room))
    ∧ (∀ h', h' ≠ h → st_streams s' !! h' = st_streams s !! h')
    ∧ st_output s'
      = set_characters_written
          (out_characters_written (st_output s)
           + Z.of_nat (length accepted)) (st_output s)
    ∧ st_fds s' = st_fds s
    ∧ st_buffers s' = st_buffers s
    ∧ st_mem s' = st_mem s.
Proof.
  revert s data room.
  induction cs as [|c cs IH]; intros s data room Htype Hstream Hdevice Hlow
    Hhigh accepted.
  - exists s. assert (Haccepted : accepted = [])
      by (subst accepted; destruct room; [apply take_nil|reflexivity]).
    rewrite Haccepted, app_nil_r. simpl.
    destruct s as [[] ss fds bs m]. simpl in *.
    rewrite Z.add_0_r.
    repeat split; auto. rewrite Hdevice. do 2 f_equal.
    destruct room; simpl; [f_equal; lia|reflexivity].
  - simpl emit. rewrite and_then_run.
    rewrite (printf_output_to_stream c s h data room Htype Hstream Hdevice).
    simpl length in Hhigh.
    destruct room as [[|k]|].
    + exists s. subst accepted. simpl.
      destruct s as [[] ss fds bs m]. simpl in *. rewrite Z.add_0_r.
      rewrite app_nil_r. repeat split; auto.
    + rewrite to_size_t_id by lia.
      match goal with |- context [emit cs ?st] => set (s1 := st) end.
      destruct (IH s1 (data ++ [c]) (Some k))
        as (s' & Hrun & Hh & Hother & Houtput & Hfds & Hbs & Hm);
        [exact Htype|exact Hstream|apply lookup_insert_eq
        |simpl; lia|simpl; lia|].
      exists s'. subst accepted. simpl in *.
      rewrite Hrun, Hh, Houtput, <- app_assoc. simpl.
      repeat split; auto.
      * f_equal. destruct (decide (take k cs = cs)) as [Heq|Hne].
        -- rewrite !bool_decide_true; congruence.
        -- rewrite !bool_decide_false; congruence.
      * intros h' Hne. rewrite Hother by exact Hne. simpl.
        apply lookup_insert_ne. congruence.
      * destruct s as [[] ss fds bs m]. unfold set_characters_written.
        simpl. f_equal. lia.
    + rewrite to_size_t_id by lia.
      match goal with |- context [emit cs ?st] => set (s1 := st) end.
      destruct (IH s1 (data ++ [c]) None)
        as (s' & Hrun & Hh & Hother & Houtput & Hfds & Hbs & Hm);
        [exact Htype|exact Hstream|apply lookup_insert_eq
        |simpl; lia|simpl; lia|].
      exists s'. subst accepted. simpl in *.
      rewrite Hrun, Hh, Houtput, <- app_assoc. simpl.
      repeat split; auto.
      * rewrite !bool_decide_true by reflexivity. reflexivity.
      * intros h' Hne. rewrite Hother by exact Hne. simpl.
        apply lookup_insert_ne. congruence.
      * destruct s as [[] ss fds bs m]. unfold set_characters_written.
        simpl. f_equal. lia.
Qed.

(** Five characters to a stream with room for three. *)
Lemma emit_to_a_stream_witness :
  let s := mk_state (mk_output OUTPUT_stream (Some 1%N) 0 None 0 SIZE_MAX 0)
             {[1%N := mk_device [] (Some 3%nat)]} ∅ ∅ Scenario.no_memory in
  ∃ s' : state,
    emit ["h"; "e"; "l"; "l"; "o"]%char s = Ok false s'
    ∧ st_streams s' !! 1%N
      = Some (mk_device ["h"; "e"; "l"]%char (Some 0%nat))
    ∧ out_characters_written (st_output s') = 3.
Proof.
  intros s.
  destruct (emit_to_a_stream ["h"; "e"; "l"; "l"; "o"]%char s 1%N []
              (Some 3%nat))
    as (s' & Hrun & Hh & _ & Houtput & _);
    [reflexivity|reflexivity|reflexivity|simpl; lia
    |simpl; unfold SIZE_MAX; lia|].
  exists s'. split; [exact Hrun|]. split; [exact Hh|].
  rewrite Houtput. reflexivity.
Defined.

(** One character to a descriptor: [write] gives -1 on a descriptor that is
    not open and 0 on one that has no room, and nothing changes; otherwise
    the descriptor takes the character and the counter advances. *)
Lemma printf_output_to_descriptor (c : ascii) (s : state) :
  out_type (st_output s) = OUTPUT_file_descriptor →
  printf_output c s
  = match st_fds s !! out_fd (st_output s) with
    | None => Ok false s
    | Some d =>
        match dev_room d with
        | Some O => Ok false s
        | room =>
            Ok true
              (set_output
                 (set_characters_written
                    (to_size_t (out_characters_written (st_output s) + 1))
                    (st_output s))
                 (set_fds
                    (<[out_fd (st_output s)
                       := mk_device (dev_data d ++ [c]) (Nat.pred <$> room)]>
                       (st_fds s)) s))
        end
    end.
Proof.
  intros Htype.
  unfold printf_output, printf_output_dprintf, count_character, get_output,
    put_output, write.
  exec. rewrite Htype. exec.
  destruct (st_fds s !! out_fd (st_output s)) as [[data [[|k]|]]|];
    reflexivity.
Qed.

(** X12.  A run of characters sent to a descriptor sink: a descriptor that
    is not open takes nothing, and the run fails at its first character
    with nothing changed; an open descriptor takes the characters for which
    it has room, in order, the counter advances by one for each of them and
    for no other, and the run succeeds exactly when it has taken them
    all. *)
Theorem emit_to_a_descriptor (cs : list ascii) (s : state) (fd : Z) :
  out_type (st_output s) = OUTPUT_file_descriptor →
  out_fd (st_output s) = fd →
  0 ≤ out_characters_written (st_output s) →
  out_characters_written (st_output s) + Z.of_nat (length cs) ≤ SIZE_MAX →
  match st_fds s !! fd with
  | None => emit cs s = Ok (bool_decide (cs = [])) s
  | Some (mk_device data room) =>
      let accepted := match room with None => cs | Some k => take k cs end in
      ∃ s' : state,
        emit cs s = Ok (bool_decide (accepted = cs)) s'
        ∧ st_fds s' !! fd
          = Some (mk_device (data ++ accepted)
                    ((λ k, (k - length accepted)%nat) <$> room))
        ∧ (∀ fd', fd' ≠ fd → st_fds s' !! fd' = st_fds s !! fd')
        ∧ st_output s'
          = set_characters_written
              (out_characters_written (st_output s)
               + Z.of_nat (length accepted)) (st_output s)
        ∧ st_streams s' = st_streams s
        ∧ st_buffers s' = st_buffers s
        ∧ st_mem s' = st_mem s
  end.
Proof.
  intros Htype Hfd Hlow Hhigh.
  destruct (st_fds s !! fd) as [[data room]|] eqn:Hdevice.
  2: { destruct cs as [|c cs]; [reflexivity|].
       simpl emit. rewrite and_then_run, printf_output_to_descriptor, Hfd,
         Hdevice by exact Htype. reflexivity. }
  revert s data room Htype Hfd Hlow Hhigh Hdevice.
  induction cs as [|c cs IH]; intros s data room Htype Hfd Hlow Hhigh Hdevice
    accepted.
  - exists s. assert (Haccepted : accepted = [])
      by (subst accepted; destruct room; [apply take_nil|reflexivity]).
    rewrite Haccepted, app_nil_r. simpl.
    destruct s as [[] ss fds bs m]. simpl in *.
    rewrite Z.add_0_r.
    repeat split; auto. rewrite Hdevice. do 2 f_equal.
    destruct room; simpl; [f_equal; lia|reflexivity].
  - simpl emit. rewrite and_then_run.
    rewrite (printf_output_to_descriptor c s Htype), Hfd, Hdevice.
    simpl length in Hhigh. cbn [dev_room dev_data].
    destruct room as [[|k]|].
    + exists s. subst accepted. simpl.
      destruct s as [[] ss fds bs m]. simpl in *. rewrite Z.add_0_r.
      rewrite app_nil_r. repeat split; auto.
    + rewrite to_size_t_id by lia.
      match goal with |- context [emit cs ?st] => set (s1 := st) end.
      destruct (IH s1 (data ++ [c]) (Some k))
        as (s' & Hrun & Hh & Hother & Houtput & Hss & Hbs & Hm);
        [exact Htype|exact Hfd|simpl; lia|simpl; lia
        |apply lookup_insert_eq|].
      exists s'. subst accepted. simpl in *.
      rewrite Hrun, Hh, Houtput, <- app_assoc. simpl.
      repeat split; auto.
      * f_equal. destruct (decide (take k cs = cs)) as [Heq|Hne].
        -- rewrite !bool_decide_true; congruence.
        -- rewrite !bool_decide_false; congruence.
      * intros fd' Hne. rewrite Hother by exact Hne. simpl.
        apply lookup_insert_ne. congruence.
      * destruct s as [[] ss fds bs m]. unfold set_characters_written.
        simpl. f_equal. lia.
    + rewrite to_size_t_id by lia.
      match goal with |- context [emit cs ?st] => set (s1 := st) end.
      destruct (IH s1 (data ++ [c]) None)
        as (s' & Hrun & Hh & Hother & Houtput & Hss & Hbs & Hm);
        [exact Htype|exact Hfd|simpl; lia|simpl; lia
        |apply lookup_insert_eq|].
      exists s'. subst accepted. simpl in *.
      rewrite Hrun, Hh, Houtput, <- app_assoc. simpl.
      repeat split; auto.
      * rewrite !bool_decide_true by reflexivity. reflexivity.
      * intros fd' Hne. rewrite Hother by exact Hne. simpl.
        apply lookup_insert_ne. congruence.
      * destruct s as [[] ss fds bs m]. unfold set_characters_written.
        simpl. f_equal. lia.
Qed.

(** Two characters to the descriptor 4, which is not open. *)
Lemma emit_to_a_descriptor_witness :
  let s := mk_state
             (mk_output OUTPUT_file_descriptor None 4 None 0 SIZE_MAX 0)
             ∅ {[3 := mk_device [] None]} ∅ Scenario.no_memory in
  emit ["h"; "i"]%char s = Ok false s.
Proof.
  intros s.
  exact (emit_to_a_descriptor ["h"; "i"]%char s 4 eq_refl eq_refl
           ltac:(simpl; lia) ltac:(simpl; unfold SIZE_MAX; lia)).
Defined.

Lemma resize_list_ge {A} (n : Z) (d : A) (l : list A) :
  Z.of_nat (length l) ≤ n →
  resize_list n d l = l ++ replicate (Z.to_nat n - length l) d.
Proof. intros H. unfold resize_list. rewrite take_ge by lia. reflexivity. Qed.

Lemma take_insert_snoc {A} (l : list A) (i : nat) (x : A) :
  (i < length l)%nat → take (S i) (<[i := x]> l) = take i l ++ [x].
Proof.
  intros Hi. rewrite (take_S_r _ _ x).
  - rewrite take_insert_ge by lia. reflexivity.
  - apply list_lookup_insert_eq. exact Hi.
Qed.

(** X13.  The growable sink keeps its buffer and its capacity field in step
    while it stores characters: when the buffer has [allocated_size] bytes
    and holds the [characters_written] characters sent so far, a further
    character is stored behind them, the buffer being moved to one of twice
    the size first when it is full, and afterwards the buffer has
    [allocated_size] bytes again and holds one character more. *)
Theorem printf_output_asprintf_grows (c : ascii) (s : state) (a : N)
  (data : list ascii) :
  let o := st_output s in
  out_type o = OUTPUT_allocated_string →
  out_string o = Some (a, 0) →
  m_heap (st_mem s) !! a = Some (BChars data) →
  Z.of_nat (length data) = out_allocated_size o →
  0 ≤ out_characters_written o ≤ out_allocated_size o →
  0 < out_allocated_size o → out_allocated_size o * 2 ≤ SIZE_MAX →
  head (m_oracle (st_mem s)) ≠ Some false →
  m_fresh (st_mem s) ≠ a →
  ∃ (s' : state) (a' : N) (data' : list ascii),
    printf_output c s = Ok true s'
    ∧ out_string (st_output s') = Some (a', 0)
    ∧ m_heap (st_mem s') !! a' = Some (BChars data')
    ∧ Z.of_nat (length data') = out_allocated_size (st_output s')
    ∧ out_characters_written (st_output s') = out_characters_written o + 1
    ∧ out_characters_written (st_output s')
      ≤ out_allocated_size (st_output s')
    ∧ take (Z.to_nat (out_characters_written o + 1)) data'
      = take (Z.to_nat (out_characters_written o)) data ++ [c]
    ∧ out_allocated_size (st_output s')
      = (if decide (out_characters_written o < out_allocated_size o)
         then out_allocated_size o else out_allocated_size o * 2).
Proof.
  intros o Htype Hstring Hdata Hlength Hcount Hsize Hmax Hgranted Hfresh.
  unfold printf_output, printf_output_asprintf, count_character, get_output,
    put_output.
  exec. fold o. rewrite Htype. exec. fold o.
  destruct (decide (out_allocated_size o ≤ out_characters_written o))
    as [Hfull|Hroom].
  - (* the buffer is full *)
    assert (Hcw : out_characters_written o = out_allocated_size o) by lia.
    pose proof (realloc_chars_granted a data
                  (to_size_t (out_allocated_size o * 2)) (st_mem s) Hdata
                  Hgranted) as Hrealloc.
    rewrite to_size_t_id in Hrealloc |- * by lia.
    rewrite resize_list_ge in Hrealloc by lia.
    set (data1 := data ++ replicate _ NUL) in Hrealloc.
    set (m1 := mk_memory _ _ _ _) in Hrealloc.
    assert (Hdata1 : m_heap m1 !! m_fresh (st_mem s) = Some (BChars data1)).
    { subst m1. cbn [m_heap]. rewrite lookup_delete_ne by congruence.
      apply lookup_insert_eq. }
    assert (Hlen1 : Z.of_nat (length data1) = out_allocated_size o * 2).
    { subst data1. rewrite length_app, length_replicate. lia. }
    pose proof (store_char_in_range (m_fresh (st_mem s)) data1
                  (out_characters_written o) c m1 Hdata1 ltac:(lia))
      as Hstore.
    rewrite Hstring, bind_run. unfold liftE at 1. rewrite Hrealloc. exec.
    unfold liftE. exec. rewrite Hstore.
    eexists _, (m_fresh (st_mem s)), _. split; [reflexivity|].
    exec. cbn [m_heap set_heap].
    rewrite to_size_t_id by lia.
    split; [reflexivity|]. split; [apply lookup_insert_eq|].
    split; [rewrite length_insert; exact Hlen1|].
    split; [reflexivity|]. split; [lia|]. split.
    + replace (Z.to_nat (out_characters_written o + 1))
        with (S (Z.to_nat (out_characters_written o))) by lia.
      rewrite take_insert_snoc by lia. f_equal.
      subst data1. rewrite take_app_le by lia. reflexivity.
    + destruct (decide _); [lia|reflexivity].
  - (* there is room *)
    pose proof (store_char_in_range a data (out_characters_written o) c
                  (st_mem s) Hdata ltac:(lia)) as Hstore.
    exec. fold o. rewrite Hstring. unfold liftE. exec. rewrite Hstore.
    eexists _, a, _. split; [reflexivity|].
    exec. cbn [m_heap set_heap]. fold o. rewrite Hstring.
    rewrite to_size_t_id by lia.
    split; [reflexivity|]. split; [apply lookup_insert_eq|].
    split; [rewrite length_insert; exact Hlength|].
    split; [reflexivity|]. split; [lia|]. split.
    + replace (Z.to_nat (out_characters_written o + 1))
        with (S (Z.to_nat (out_characters_written o))) by lia.
      apply take_insert_snoc. lia.
    + destruct (decide _); [reflexivity|lia].
Qed.

(** A third character sent to a full buffer of two bytes. *)
Lemma printf_output_asprintf_grows_witness :
  let s := mk_state
             (mk_output OUTPUT_allocated_string None 0 (Some (10%N, 0)) 2
                SIZE_MAX 2)
             ∅ ∅ ∅
             (mk_memory [] {[10%N := BChars ["a"; "b"]%char]} 11%N []) in
  ∃ (s' : state) (a' : N) (data' : list ascii),
    printf_output "c" s = Ok true s'
    ∧ m_heap (st_mem s') !! a' = Some (BChars data')
    ∧ take 3 data' = ["a"; "b"; "c"]%char
    ∧ Z.of_nat (length data') = 4
    ∧ out_allocated_size (st_output s') = 4.
Proof.
  intros s.
  destruct (printf_output_asprintf_grows "c" s 10%N ["a"; "b"]%char)
    as (s' & a' & data' & Hrun & _ & Hheap & Hlength & _ & _ & Htake & Hsize);
    [reflexivity|reflexivity|reflexivity|reflexivity|simpl; lia|simpl; lia
    |simpl; unfold SIZE_MAX; lia|discriminate|discriminate|].
  exists s', a', data'. split; [exact Hrun|]. split; [exact Hheap|].
  split; [exact Htake|]. rewrite Hlength, Hsize. split; reflexivity.
Defined.

(** X14.  When the growable sink is full and the reallocation fails, the
    sink frees the buffer and reports the failure: the character is not
    stored and the counter is not advanced. *)
Theorem printf_output_asprintf_out_of_memory (c : ascii) (s : state) (a : N)
  (data : list ascii) (oracle : list bool) :
  let o := st_output s in
  out_type o = OUTPUT_allocated_string →
  out_string o = Some (a, 0) →
  m_heap (st_mem s) !! a = Some (BChars data) →
  out_allocated_size o ≤ out_characters_written o →
  m_oracle (st_mem s) = false :: oracle →
  printf_output c s
  = Ok false
      (set_mem
         (mk_memory (m_valist (st_mem s)) (delete a (m_heap (st_mem s)))
            (m_fresh (st_mem s)) oracle) s).
Proof.
  intros o Htype Hstring Hdata Hfull Horacle.
  unfold printf_output, printf_output_asprintf, count_character, get_output,
    put_output.
  exec. fold o. rewrite Htype. exec. fold o.
  destruct (decide (out_allocated_size o ≤ out_characters_written o));
    [|contradiction].
  rewrite Hstring, bind_run.
  assert (Hrealloc :
    liftE (realloc_chars (Some (a, 0)) (to_size_t (out_allocated_size o * 2)))
      s
    = Ok None
        (set_mem
           (mk_memory (m_valist (st_mem s)) (m_heap (st_mem s))
              (m_fresh (st_mem s)) oracle) s)).
  { unfold liftE, realloc_chars, realloc.
    destruct (decide (0 = 0)); [|contradiction].
    run. rewrite Hdata. run. cbn [resize_chars]. run.
    unfold malloc at 1. rewrite Horacle. reflexivity. }
  rewrite Hrealloc. exec.
  unfold liftE, free_chars, free.
  destruct (decide (0 = 0)); [|contradiction].
  exec. cbn [m_heap]. rewrite Hdata. exec. reflexivity.
Qed.

(** A third character sent to a full buffer of two bytes when no memory is
    left. *)
Lemma printf_output_asprintf_out_of_memory_witness :
  let s := mk_state
             (mk_output OUTPUT_allocated_string None 0 (Some (10%N, 0)) 2
                SIZE_MAX 2)
             ∅ ∅ ∅
             (mk_memory [] {[10%N := BChars ["a"; "b"]%char]} 11%N [false]) in
  ∃ s' : state,
    printf_output "c" s = Ok false s'
    ∧ m_heap (st_mem s') !! 10%N = None
    ∧ out_characters_written (st_output s') = 2.
Proof.
  intros s. eexists. split.
  - apply (printf_output_asprintf_out_of_memory "c" s 10%N ["a"; "b"]%char []);
      [reflexivity|reflexivity|reflexivity|simpl; lia|reflexivity].
  - split; reflexivity.
Defined.

(** ** The unbounded-string entry points *)

Lemma exceeds_set_mem (h : N) (room : Z) (s : state) (m : memory) :
  exceeds h room s → exceeds h room (set_mem m s).
Proof. intros H. exact H. Qed.

Lemma exceeds_output (h : N) (room : Z) (s s' : state) (c : ascii)
  (b : bool) :
  exceeds h room s → printf_output c s = Ok b s' → exceeds h room s'.
Proof.
  intros (d & Hd & Hlong) Hout.
  destruct (printf_output_streams c s s' b h d Hout Hd) as (d' & Hd' & Hle).
  exists d'. split; [exact Hd'|lia].
Qed.

Section Sprintf.

Variable str : option (N * Z).
Variable room : Z.
Variable buffers : gmap N (list ascii).
Variable h : N.

Hypothesis room_range : 0 ≤ room ∧ room + 1 < SIZE_MAX.
Hypothesis space : array_at str (room + 1) buffers.

Lemma sprintf_related_mem s1 s2 :
  sprintf_related str room buffers h s1 s2 → st_mem s1 = st_mem s2.
Proof. intros (full & _ & Hm & _). exact Hm. Qed.

Lemma sprintf_related_set_mem s1 s2 m :
  sprintf_related str room buffers h s1 s2 →
  sprintf_related str room buffers h (set_mem m s1) (set_mem m s2).
Proof.
  intros (full & Hlen & Hm & Ho1 & Hb1 & Ho2 & Hs2).
  exists full. repeat split; assumption.
Qed.

Lemma sprintf_related_count s1 s2 :
  sprintf_related str room buffers h s1 s2 →
  out_characters_written (st_output s1)
  = out_characters_written (st_output s2).
Proof.
  intros (full & _ & _ & Ho1 & _ & Ho2 & _). rewrite Ho1, Ho2. reflexivity.
Qed.

Lemma sprintf_related_output s1 s2 c b s2' :
  sprintf_related str room buffers h s1 s2 →
  printf_output c s2 = Ok b s2' →
  exceeds h room s2'
  ∨ ∃ s1', printf_output c s1 = Ok b s1'
           ∧ sprintf_related str room buffers h s1' s2'.
Proof.
  intros (full & Hlen & Hm & Ho1 & Hb1 & Ho2 & Hs2).
  destruct s1 as [o1 ss1 f1 b1 m1], s2 as [o2 ss2 f2 b2 m2].
  cbn [st_mem st_output st_buffers st_streams] in *. subst o1 o2 b1 m1.
  set (n := Z.of_nat (length full)) in *.
  unfold printf_output, printf_output_fprintf, count_character, get_output,
    put_output, putc.
  exec. rewrite Hs2. exec. intros [= <- <-]. exec.
  destruct (decide (n + 1 ≤ room)) as [Hfit|Hover].
  2: { left. eexists. split; [apply lookup_insert_eq|].
       simpl. rewrite length_app. simpl. lia. }
  right. rewrite (to_size_t_id (n + 1)) by lia.
  assert (Hlen' : Z.of_nat (length (full ++ [c])) = n + 1)
    by (rewrite length_app; simpl; lia).
  unfold printf_output_sprintf, count_character, get_output, put_output,
    store_buffer.
  exec.
  destruct (decide (SIZE_MAX = 0)) as [Hzero|_]; [unfold SIZE_MAX in Hzero; lia|].
  destruct (decide (SIZE_MAX - 1 ≤ n)) as [Hfull|_]; [lia|].
  destruct space as (a & off & data & -> & Ha & Hoff & Hcap).
  destruct (stored_at_snoc a off full c buffers data Ha Hoff)
    as (data1 & Hdata1 & Hin & Hnew); [lia|].
  cbn [shift mbind option_bind]. exec. rewrite Hdata1. exec.
  destruct (decide (0 ≤ off + n < Z.of_nat (length data1)))
    as [_|Hbad]; [|subst n; lia].
  exec. eexists. split; [reflexivity|].
  exists (full ++ [c]). cbv zeta. exec.
  rewrite Hlen', to_size_t_id by lia.
  cbn [next_char shift mbind option_bind].
  repeat split; try lia.
  - unfold set_characters_written, set_string; simpl. do 3 f_equal. lia.
  - subst n. exact Hnew.
  - apply lookup_insert_eq.
Qed.

End Sprintf.

(** X15.  The unbounded-string entry points next to the run of the engine
    that sends the same template and arguments to an unbounded stream:
    whenever that run returns, with [full] the characters it has emitted, and
    the caller's array has room for [full] and a terminator, [new_sprintf] and
    [new_vsprintf] return too; the array has received all of [full], followed
    on success by the terminator, and on success the value returned is the
    length of [full] as an [int], on failure -1. *)
Theorem sprintf_stores_the_whole_output (str : option (N * Z))
  (format : string) (args : list arg) (s : state) (h : N) (result : bool)
  (s2' : state) (full : list ascii) :
  array_at str (Z.of_nat (length full) + 1) (st_buffers s) →
  Z.of_nat (length full) + 1 < SIZE_MAX →
  start (mk_output OUTPUT_stream (Some h) 0 None 0 SIZE_MAX 0) format args
    (with_fresh_stream h s) = Ok result s2' →
  st_streams s2' !! h = Some (mk_device full None) →
  ∃ s1',
    new_sprintf str (Some format) args s
    = Ok (if result then to_int (Z.of_nat (length full)) else -1) s1'
    ∧ new_vsprintf str (Some format) args s
      = new_sprintf str (Some format) args s
    ∧ st_buffers s1'
      = stored_at str (if result then full ++ [NUL] else full) (st_buffers s)
    ∧ (Z.of_nat (length full) ≤ INT_MAX →
       to_int (Z.of_nat (length full)) = Z.of_nat (length full)).
Proof.
  intros Hspace Hlen Href Hfull.
  set (room := Z.of_nat (length full)) in *.
  assert (Hint : room ≤ INT_MAX → to_int room = room)
    by (intros Hle; apply to_int_id; unfold INT_MIN, INT_MAX in *; lia).
  unfold start, with_fresh_stream, put_output in Href. revert Href. exec.
  cbn [liftE modify]. exec.
  set (s2 := set_mem _ _).
  set (s1 := set_mem (set_valist args (st_mem s))
               (set_output (mk_output OUTPUT_string None 0 str 0 SIZE_MAX 0)
                  s)).
  intros Href.
  assert (Hstart : sprintf_related str room (st_buffers s) h s1 s2).
  { exists []. simpl length. repeat split.
    - lia.
    - subst s1. simpl. destruct str as [[a off]|]; simpl;
        rewrite ?Z.add_0_r; reflexivity.
    - symmetry. apply stored_at_nil.
    - apply lookup_insert_eq. }
  assert (Hrange : 0 ≤ room ∧ room + 1 < SIZE_MAX) by lia.
  assert (Hsim : follows (sprintf_related str room (st_buffers s) h)
                   (exceeds h room) (generic_printf format)).
  { apply follows_generic_printf.
    - apply sprintf_related_mem.
    - apply sprintf_related_set_mem.
    - apply sprintf_related_count.
    - intros. eapply sprintf_related_output; eauto.
    - apply exceeds_set_mem.
    - intros. eapply exceeds_output; eauto. }
  destruct (Hsim s1 s2) as [Hfollow _].
  destruct (Hfollow Hstart result s2' Href)
    as [(d & Hd & Hlong)|(s1' & Hrun & Hrel)].
  { rewrite Hfull in Hd. injection Hd as <-. simpl in Hlong. lia. }
  destruct Hrel as (full' & _ & _ & Ho1 & Hb1 & _ & Hs2).
  rewrite Hfull in Hs2. injection Hs2 as <-.
  destruct Hspace as (a & off & data & -> & Ha & Hoff & Hcap).
  unfold new_vsprintf, new_sprintf, start, put_output, c_assert.
  cbn [non_null]. exec.
  cbn [liftE modify]. exec. fold s1. rewrite Hrun.
  destruct s1' as [o1 ss1 f1 b1 m1].
  cbn [st_output st_buffers] in Ho1, Hb1. subst o1 b1.
  destruct result.
  2: { eexists. split; [reflexivity|]. cbn [st_buffers].
       repeat split; try assumption; reflexivity. }
  unfold return_count, characters_written, terminate_string, get_output,
    store_buffer.
  destruct (stored_at_snoc a off full NUL (st_buffers s) data Ha Hoff)
    as (data1 & Hdata1 & Hin & Hnew); [lia|].
  cbn [shift mbind option_bind]. exec. rewrite Hdata1. exec.
  destruct (decide (0 ≤ off + Z.of_nat (length full)
                    < Z.of_nat (length data1))) as [_|Hbad]; [|lia].
  exec. eexists. split; [reflexivity|].
  cbn [st_buffers].
  repeat split; try assumption; reflexivity.
Qed.

(** The template "%d items" with the argument 42 into the 16-byte array of
    the scenario machine. *)
Lemma sprintf_stores_the_whole_output_witness :
  ∃ s1' : state,
    new_sprintf (Some (7%N, 0)) (Some "%d items") [AInt 42] Scenario.machine
    = Ok 8 s1'
    ∧ Scenario.c_string <$> st_buffers s1' !! 7%N = Some "42 items"%string.
Proof.
  edestruct sprintf_stores_the_whole_output
    with (str := Some (7%N, 0)) (format := "%d items"%string)
         (args := [AInt 42]) (s := Scenario.machine) (h := 5%N)
         (result := true) (full := String.list_ascii_of_string "42 items")
    as (s1' & Hrun & _ & Hbuf & _).
  - exists 7%N, 0, (replicate 16 NUL).
    split; [reflexivity|]. split; [reflexivity|]. simpl. lia.
  - simpl. unfold SIZE_MAX. lia.
  - vm_compute. reflexivity.
  - vm_compute. reflexivity.
  - exists s1'. split; [exact Hrun|].
    rewrite Hbuf. vm_compute. reflexivity.
Defined.

(** ** Templates without directives *)

Lemma generic_printf_loop_literal (fuel : nat) (format_start format : string)
  (first_element : bool) (pia : positional_info_array) (position_count : Z)
  (text : list ascii) (s : state) :
  (String.length format ≤ fuel)%nat →
  literal format = Some text →
  generic_printf_loop fuel format_start format false first_element pia
    position_count s
  = emit text s.
Proof.
  revert format text s.
  induction fuel as [|fuel IH]; intros format text s Hfuel Hliteral.
  - destruct format as [|c rest]; [|simpl in Hfuel; lia].
    injection Hliteral as <-. reflexivity.
  - destruct format as [|c rest].
    { injection Hliteral as <-. reflexivity. }
    cbn [generic_printf_loop peek]. cbn [literal] in Hliteral.
    destruct (decide (c = NUL)) as [HNUL|HNUL].
    { injection Hliteral as <-. reflexivity. }
    unfold is_char at 1. cbn [peek].
    destruct (decide (c = "%"%char)) as [->|Hpercent].
    + destruct rest as [|c' rest']; [discriminate|].
      destruct (decide (c' = "%"%char)) as [->|]; [|discriminate].
      destruct (literal rest') as [text'|] eqn:Hrest; [|discriminate].
      injection Hliteral as <-.
      rewrite (bool_decide_true ("%"%char = "%"%char)) by reflexivity.
      unfold is_char. cbn [skip peek andb].
      rewrite (bool_decide_true ("%"%char = "%"%char)) by reflexivity.
      cbn [emit]. rewrite bind_run, and_then_run.
      destruct (printf_output "%" s) as [[] s'| | |]; try reflexivity.
      cbn [negb]. apply IH; [simpl in Hfuel; lia|exact Hrest].
    + destruct (literal rest) as [text'|] eqn:Hrest; [|discriminate].
      injection Hliteral as <-.
      unfold is_char. cbn [peek].
      rewrite !(bool_decide_false (c = "%"%char)) by assumption.
      cbn [andb emit]. rewrite bind_run, and_then_run.
      destruct (printf_output c s) as [[] s'| | |]; try reflexivity.
      cbn [negb skip]. apply IH; [simpl in Hfuel; lia|exact Hrest].
Qed.

(** X16.  A template that holds no directive is copied to the sink, whatever
    the sink is: the engine submits its characters in order up to the
    terminator, one "%" for every "%%", stops at the first character the sink
    refuses, and fetches no argument. *)
Theorem generic_printf_copies_literal_text (format : string)
  (text : list ascii) (s : state) :
  literal format = Some text →
  generic_printf format s = emit text s.
Proof.
  intros Hliteral. unfold generic_printf.
  apply generic_printf_loop_literal; [reflexivity|exact Hliteral].
Qed.

(** The template "100%% sure" to the standard output of the scenario
    machine. *)
Lemma generic_printf_copies_literal_text_witness :
  generic_printf "100%% sure"
    (set_output (mk_output OUTPUT_stream (Some 1%N) 0 None 0 SIZE_MAX 0)
       Scenario.machine)
  = emit (String.list_ascii_of_string "100% sure")
      (set_output (mk_output OUTPUT_stream (Some 1%N) 0 None 0 SIZE_MAX 0)
         Scenario.machine).
Proof.
  apply (generic_printf_copies_literal_text "100%% sure"). reflexivity.
Defined.

(** ** Positional delivery *)

Lemma wrap_signed_idempotent (bits z : Z) :
  0 < bits → wrap_signed bits (wrap_signed bits z) = wrap_signed bits z.
Proof.
  intros Hbits. unfold wrap_signed.
  assert (Hpow : 0 < 2 ^ bits) by (apply Z.pow_pos_nonneg; lia).
  replace ((z + 2 ^ (bits - 1)) `mod` 2 ^ bits - 2 ^ (bits - 1)
           + 2 ^ (bits - 1))
    with ((z + 2 ^ (bits - 1)) `mod` 2 ^ bits) by lia.
  rewrite Z.mod_mod by lia. reflexivity.
Qed.

Lemma wrap_unsigned_idempotent (bits z : Z) :
  0 < bits → wrap_unsigned bits (wrap_unsigned bits z) = wrap_unsigned bits z.
Proof.
  intros Hbits. unfold wrap_unsigned.
  assert (Hpow : 0 < 2 ^ bits) by (apply Z.pow_pos_nonneg; lia).
  rewrite Z.mod_mod by lia. reflexivity.
Qed.

(** Running loads and stores on a heap whose live objects are known. *)
Ltac mem_steps :=
  repeat first
    [ progress exec_mem
    | progress cbn [pi_item pi_length pi_type]
    | rewrite lookup_insert_eq
    | rewrite lookup_insert_ne by congruence
    | rewrite list_lookup_insert_eq by lia
    | rewrite Z.add_simpl_r
    | match goal with
      | H : _ !! _ = Some _ |- _ => rewrite H
      | H : pi_length _ = _ |- _ => rewrite H
      | H : fs_position _ = _ |- _ => rewrite H
      | H : ∀ b, malloc b _ = _ |- _ => rewrite H
      | |- context [decide (?x = ?x)] =>
          destruct (decide (x = x)); [|contradiction]
      | |- context [decide (0 ≤ ?x)] =>
          destruct (decide (0 ≤ x)); [|lia]
      | |- context [decide (0 ≤ ?x < ?y)] =>
          destruct (decide (0 ≤ x < y)); [|lia]
      end ].

(** X17.  Positional delivery agrees with sequential delivery: once
    [pop_and_store_integer] has moved the next argument into the slot of a
    position, [pop_or_load_integer] reads from the slot the value it would
    have fetched from the argument list directly, for every length modifier
    of an integer; the load changes nothing. *)
Theorem positional_integer_round_trip (fs : format_specifier) (a : N)
  (i : Z) (items : list positional_info) (it : positional_info) (z : Z)
  (rest : list arg) (m : memory) :
  m_heap m !! a = Some (BItems items) →
  0 ≤ i → items !! Z.to_nat i = Some it →
  pi_length it = fs_length fs → fs_length fs ≠ LENGTH_L →
  fs_position fs = i + 1 →
  m_valist m = AInt z :: rest →
  head (m_oracle m) ≠ Some false →
  m_fresh m ≠ a →
  ∃ (m' : memory) (v : Z),
    pop_and_store_integer (Some a) i m = Ok true m'
    ∧ pop_or_load_integer fs true (Some a) m' = Ok v m'
    ∧ pop_or_load_integer fs false (Some a) m = Ok v (set_valist rest m)
    ∧ m_valist m' = rest.
Proof.
  intros Hheap Hi Hit Hlength HL Hposition Hvalist Horacle Hfresh.
  destruct m as [valist heap fresh oracle].
  cbn [m_heap m_valist m_oracle m_fresh] in *. subst valist.
  assert (Hmalloc : ∀ b,
    malloc b (mk_memory (AInt z :: rest) heap fresh oracle)
    = Ok (Some fresh)
        (mk_memory (AInt z :: rest) (<[fresh := b]> heap) (fresh + 1)%N
           (tail oracle))).
  { intros b. unfold malloc. cbn [m_oracle m_valist m_heap m_fresh].
    destruct oracle as [|[] oracle]; try reflexivity.
    exfalso. apply Horacle. reflexivity. }
  assert (Hbound : 0 ≤ i < Z.of_nat (length items)).
  { apply lookup_lt_Some in Hit. lia. }
  unfold pop_and_store_integer, pop_or_load_integer, pop_and_store, item_of,
    set_item, load_item, store_item, store_object, load_integer, load_object,
    va_arg_integer, va_arg.
  destruct (fs_length fs) eqn:Hlen; [| | | | | | | |contradiction].
  all: eexists _, _; mem_steps.
  all: split; [reflexivity|]; mem_steps.
  all: split; [reflexivity|]; split; [|reflexivity].
  all: unfold to_int, to_long, to_intmax, to_size_t, to_ptrdiff;
    rewrite ?wrap_signed_idempotent, ?wrap_unsigned_idempotent by lia;
    reflexivity.
Qed.

(** The directive "%1$hhd" with the argument 300: the slot holds the [int]
    300, and the conversion to [signed char] gives 44 on both ways. *)
Lemma positional_integer_round_trip_witness :
  let fs := mk_fs 5 false false false false false 0 0 0 (-1) LENGTH_hh TYPE_d
              1 in
  let m := mk_memory [AInt 300]
             {[20%N := BItems [mk_pi LENGTH_hh TYPE_d None]]} 21%N [] in
  ∃ m' : memory,
    pop_and_store_integer (Some 20%N) 0 m = Ok true m'
    ∧ pop_or_load_integer fs true (Some 20%N) m' = Ok 44 m'
    ∧ pop_or_load_integer fs false (Some 20%N) m = Ok 44 (set_valist [] m).
Proof.
  intros fs m.
  destruct (positional_integer_round_trip fs 20%N 0
              [mk_pi LENGTH_hh TYPE_d None] (mk_pi LENGTH_hh TYPE_d None) 300
              [] m)
    as (m' & v & Hstore & Hload & Hpop & _);
    [reflexivity|lia|reflexivity|reflexivity|discriminate|reflexivity
    |reflexivity|discriminate|discriminate|].
  assert (Hv : v = 44).
  { vm_compute in Hpop. injection Hpop as <-. reflexivity. }
  subst v. exists m'. split; [exact Hstore|]. split; [exact Hload|exact Hpop].
Defined.

(** ** The growable-string entry points on their error paths *)

(** X18.  [new_asprintf] and [new_vasprintf] end the program at an
    assertion exactly when the template or the out-parameter is NULL, whether
    or not the allocation on entry has succeeded: the test behind the
    assertions, which would free the buffer and return -1, is reached with
    non-NULL parameters only, and the engine itself never stops at an
    assertion. *)
Theorem new_asprintf_null_parameters (strp : bool) (format : option string)
  (args : list arg) (s : state) :
  (new_asprintf strp format args s = Aborted
   ↔ format = None ∨ strp = false)
  ∧ (new_vasprintf strp format args s = Aborted
     ↔ format = None ∨ strp = false).
Proof.
  assert (H : new_asprintf strp format args s = Aborted
              ↔ format = None ∨ strp = false); [|split; exact H].
  unfold new_asprintf, malloc_chars, put_output.
  assert (Hmalloc : ∃ string s0,
    liftE (q ← malloc (BChars (replicate
                                 (Z.to_nat BASE_ALLOCATED_STRING_SIZE) NUL));
           mret ((λ a, (a, 0)) <$> q)) s = Ok string s0).
  { unfold liftE, malloc. rewrite bind_run.
    destruct (m_oracle (st_mem s)) as [|[] oracle]; eexists _, _; reflexivity. }
  destruct Hmalloc as (string & s0 & Hmalloc).
  rewrite bind_run, Hmalloc. exec. unfold c_assert.
  destruct format as [f|]; cbn [non_null]; exec.
  2: { split; [left|]; reflexivity. }
  destruct strp; exec.
  2: { split; [right|]; reflexivity. }
  split; [|intros [|]; discriminate].
  intros Haborted. exfalso.
  destruct string as [p|]; [|discriminate].
  assert (Hsafe : safe (λ _, True)
                    (result ← start
                                (mk_output OUTPUT_allocated_string None 0
                                   (Some p) BASE_ALLOCATED_STRING_SIZE
                                   SIZE_MAX 0) f args;
                     asprintf_finish result)).
  { apply safe_then; [apply safe_start|]. intros result.
    unfold asprintf_finish, get_output, put_output, realloc_chars,
      malloc_chars, free_chars.
    safe_all. }
  match type of Haborted with ?m ?st = _ => specialize (Hsafe st) end.
  rewrite Haborted in Hsafe. exact Hsafe.
Qed.

(** A NULL out-parameter on the scenario machine. *)
Lemma new_asprintf_null_parameters_witness :
  new_asprintf false (Some "%d") [AInt 1] Scenario.machine = Aborted
  ∧ new_asprintf true (Some "%d") [AInt 1] Scenario.machine ≠ Aborted.
Proof.
  split.
  - apply (new_asprintf_null_parameters false (Some "%d"%string)).
    right. reflexivity.
  - intros H.
    apply (new_asprintf_null_parameters true (Some "%d"%string)) in H.
    destruct H; discriminate.
Defined.

(** X19.  When the first directive of the template is invalid,
    [new_asprintf] and [new_vasprintf] return -1 and assign NULL, and the
    buffer of 16 bytes they have allocated on entry is not released: it is
    still in the heap when they return. *)
Theorem new_asprintf_invalid_directive_keeps_the_buffer (rest : string)
  (e : format_error) (fs : format_specifier) (args : list arg) (s : state) :
  read_format_string rest = Some (e, fs) →
  format_error_is_error e = true →
  peek rest ≠ "%"%char →
  head (m_oracle (st_mem s)) ≠ Some false →
  ∃ s' : state,
    new_asprintf true (Some (String "%" rest)) args s
    = Ok (-1, Assigned None) s'
    ∧ new_vasprintf true (Some (String "%" rest)) args s
      = Ok (-1, Assigned None) s'
    ∧ m_heap (st_mem s')
      = <[m_fresh (st_mem s) := BChars (replicate 16 NUL)]>
          (m_heap (st_mem s)).
Proof.
  intros Hparse Herror Hpercent Horacle.
  destruct s as [o ss f bs [valist heap fresh oracle]].
  cbn [st_mem m_oracle m_heap m_fresh] in *.
  assert (Hengine : ∀ s0,
    generic_printf (String "%" rest) s0 = Ok false s0).
  { intros s0. unfold generic_printf. cbn [String.length generic_printf_loop].
    destruct (decide (peek (String "%" rest) = NUL)) as [HNUL|_];
      [discriminate HNUL|].
    unfold is_char. cbn [peek skip].
    rewrite (bool_decide_true ("%"%char = "%"%char)) by reflexivity.
    rewrite (bool_decide_false (peek rest = "%"%char)) by assumption.
    cbn [andb]. rewrite Hparse. run. rewrite Herror. reflexivity. }
  unfold new_vasprintf, new_asprintf, start, malloc_chars, put_output,
    asprintf_finish, liftE, malloc, c_assert. cbn [non_null].
  destruct oracle as [|[] oracle]; [| |exfalso; apply Horacle; reflexivity].
  all: exec_mem; rewrite Hengine; exec_mem.
  all: eexists; split; [reflexivity|]; split; reflexivity.
Qed.

(** The template "%q" on the scenario machine: address 10 is the buffer. *)
Lemma new_asprintf_invalid_directive_keeps_the_buffer_witness :
  ∃ s' : state,
    new_asprintf true (Some "%q") [] Scenario.machine
    = Ok (-1, Assigned None) s'
    ∧ m_heap (st_mem s') !! 10%N = Some (BChars (replicate 16 NUL)).
Proof.
  edestruct (new_asprintf_invalid_directive_keeps_the_buffer "q")
    with (args := @nil arg) (s := Scenario.machine)
    as (s' & Hrun & _ & Hheap).
  - vm_compute. reflexivity.
  - reflexivity.
  - discriminate.
  - discriminate.
  - exists s'. split; [exact Hrun|]. rewrite Hheap. reflexivity.
Defined.

(** ** The table of positions *)





(** ** The stream entry points *)

Section Fprintf.

Variable h : N.
Variable pre : list ascii.

Lemma stream_appended_mem s1 s2 :
  stream_appended h pre s1 s2 → st_mem s1 = st_mem s2.
Proof. intros [-> _]. reflexivity. Qed.

Lemma stream_appended_set_mem s1 s2 m :
  stream_appended h pre s1 s2 →
  stream_appended h pre (set_mem m s1) (set_mem m s2).
Proof.
  intros [-> (cs & room & Hlen & Ho & Hs)]. split; [reflexivity|].
  exists cs, room. repeat split; assumption.
Qed.

Lemma stream_appended_count s1 s2 :
  stream_appended h pre s1 s2 →
  out_characters_written (st_output s1)
  = out_characters_written (st_output s2).
Proof. intros [-> _]. reflexivity. Qed.

Lemma stream_appended_output s1 s2 c b s2' :
  stream_appended h pre s1 s2 →
  printf_output c s2 = Ok b s2' →
  overlong h s2'
  ∨ ∃ s1', printf_output c s1 = Ok b s1' ∧ stream_appended h pre s1' s2'.
Proof.
  intros [-> (cs & room & Hlen & Ho & Hs)] Hrun.
  destruct (decide (Z.of_nat (length cs) + 1 ≤ SIZE_MAX)) as [Hfit|Hover].
  2: { destruct b.
       - left. revert Hrun.
         destruct s2 as [o2 ss2 f2 b2 m2].
         cbn [st_output st_streams] in *. subst o2.
         unfold printf_output, printf_output_fprintf, count_character,
           get_output, put_output, putc.
         exec. rewrite Hs. exec.
         destruct room as [[|k]|]; exec; intros [= <-];
           (eexists; split; [apply lookup_insert_eq|]);
           simpl; rewrite !length_app; simpl; lia.
       - right. exists s2'. split; [exact Hrun|]. split; [reflexivity|].
         revert Hrun.
         destruct s2 as [o2 ss2 f2 b2 m2].
         cbn [st_output st_streams] in *. subst o2.
         unfold printf_output, printf_output_fprintf, count_character,
           get_output, put_output, putc.
         exec. rewrite Hs. exec.
         destruct room as [[|k]|]; exec; intros [= <-].
         exists cs, (Some O). repeat split; assumption. }
  right. exists s2'. split; [exact Hrun|]. split; [reflexivity|].
  revert Hrun.
  destruct s2 as [o2 ss2 f2 b2 m2].
  cbn [st_output st_streams] in *. subst o2.
  unfold printf_output, printf_output_fprintf, count_character, get_output,
    put_output, putc.
  exec. rewrite Hs. exec.
  assert (Hlen' : Z.of_nat (length (cs ++ [c])) = Z.of_nat (length cs) + 1)
    by (rewrite length_app; simpl; lia).
  destruct room as [[|k]|]; exec; intros [= <- <-].
  - exists cs, (Some O). repeat split; assumption.
  - exists (cs ++ [c]), (Some k). cbn [st_output st_streams].
    rewrite Hlen', to_size_t_id, app_assoc by lia.
    repeat split; [lia|apply lookup_insert_eq].
  - exists (cs ++ [c]), None. cbn [st_output st_streams].
    rewrite Hlen', to_size_t_id, app_assoc by lia.
    repeat split; [lia|apply lookup_insert_eq].
Qed.

End Fprintf.

(** X21.  What [new_fprintf] returns is the number of characters it has
    appended to the stream.  Whenever the engine, started on the sink of the
    stream, returns [result], the stream holds what it held before followed
    by the characters [cs] the engine has emitted, the counter of the sink
    is the length of [cs], and [new_fprintf] returns in the same state with
    that length as an [int] when [result] is true and with -1 when it is
    false.  [new_vfprintf] does the same, and [new_printf] and [new_vprintf]
    are the same call on the standard output. *)
Theorem fprintf_returns_the_number_appended (h : N) (format : string)
  (args : list arg) (s s1 : state) (result : bool) (d : device) :
  st_streams s !! h = Some d →
  start (mk_output OUTPUT_stream (Some h) 0 None 0 SIZE_MAX 0) format args s
  = Ok result s1 →
  (∀ d', st_streams s1 !! h = Some d' →
         Z.of_nat (length (dev_data d')) ≤ SIZE_MAX) →
  ∃ (cs : list ascii) (room : option nat),
    st_streams s1 !! h = Some (mk_device (dev_data d ++ cs) room)
    ∧ out_characters_written (st_output s1) = Z.of_nat (length cs)
    ∧ new_fprintf (Some h) (Some format) args s
      = Ok (if result then to_int (Z.of_nat (length cs)) else -1) s1
    ∧ new_vfprintf (Some h) (Some format) args s
      = Ok (if result then to_int (Z.of_nat (length cs)) else -1) s1
    ∧ new_printf (Some format) args = new_fprintf stdout (Some format) args
    ∧ new_vprintf (Some format) args = new_fprintf stdout (Some format) args.
Proof.
  intros Hd Hrun Hshort.
  assert (Hentry : ∀ n : Z,
    (result ← start (mk_output OUTPUT_stream (Some h) 0 None 0 SIZE_MAX 0)
                format args;
     if result : bool then return_count else mret (-1)) s = Ok n s1 →
    new_fprintf (Some h) (Some format) args s = Ok n s1
    ∧ new_vfprintf (Some h) (Some format) args s = Ok n s1).
  { intros n Hn. split; exact Hn. }
  unfold start, put_output in Hrun, Hentry. revert Hrun Hentry. exec.
  cbn [liftE modify]. exec.
  set (s0 := set_mem _ _). intros Hengine Hentry.
  assert (Hstart : stream_appended h (dev_data d) s0 s0).
  { split; [reflexivity|]. exists [], (dev_room d). rewrite app_nil_r.
    simpl length. repeat split.
    - unfold SIZE_MAX. lia.
    - subst s0. cbn [st_streams set_mem set_output]. rewrite Hd.
      destruct d; reflexivity. }
  assert (Hsim : follows (stream_appended h (dev_data d)) (overlong h)
                   (generic_printf format)).
  { apply follows_generic_printf.
    - apply stream_appended_mem.
    - apply stream_appended_set_mem.
    - apply stream_appended_count.
    - intros. eapply stream_appended_output; eauto.
    - apply overlong_set_mem.
    - intros. eapply overlong_output; eauto. }
  destruct (Hsim s0 s0) as [Hfollow _].
  destruct (Hfollow Hstart result s1 Hengine)
    as [Hlong|(s1' & _ & _ & cs & room & Hlen & Ho & Hs)].
  - (* the stream would hold more than SIZE_MAX characters *)
    exfalso. destruct Hlong as (d' & Hd' & Hlong).
    specialize (Hshort d' Hd'). lia.
  - exists cs, room. split; [exact Hs|].
    split; [rewrite Ho; reflexivity|].
    destruct (Hentry (if result then to_int (Z.of_nat (length cs)) else -1))
      as [Hf Hv].
    { rewrite Hengine. destruct result; [|reflexivity].
      unfold return_count, characters_written, get_output. exec.
      rewrite Ho. reflexivity. }
    split; [exact Hf|]. split; [exact Hv|]. split; reflexivity.
Qed.

(** The template "%c%c" with the arguments 'o' and 'k' to a stream that
    holds "> " already. *)
Lemma fprintf_returns_the_number_appended_witness :
  let s := set_streams {[1%N := mk_device [">"; " "]%char None]}
             Scenario.machine in
  ∃ s1 : state,
    new_fprintf (Some 1%N) (Some "%c%c") [AInt 111; AInt 107] s = Ok 2 s1
    ∧ dev_data <$> st_streams s1 !! 1%N = Some [">"; " "; "o"; "k"]%char.
Proof.
  intros s.
  eassert (Hrun : start (mk_output OUTPUT_stream (Some 1%N) 0 None 0 SIZE_MAX
                           0) "%c%c" [AInt 111; AInt 107] s
                  = Ok true _) by (vm_compute; reflexivity).
  destruct (fprintf_returns_the_number_appended 1%N "%c%c"
              [AInt 111; AInt 107] s _ true
              (mk_device [">"; " "]%char None) eq_refl Hrun)
    as (cs & room & Hstream & Hcount & Hentry & _).
  { intros d' Hd'. vm_compute in Hd'. injection Hd' as <-.
    vm_compute. discriminate. }
  eexists. split.
  - rewrite Hentry. rewrite <- Hcount. reflexivity.
  - reflexivity.
Defined.

Lemma all_slots_given_from (n : nat) (a : N)
  (seen todo : list positional_info) (m : memory) :
  m_heap m !! a = Some (BItems (seen ++ todo)) →
  (n ≤ length todo)%nat →
  all_slots_given n (Some a) (Z.of_nat (length seen)) m
  = Ok (bool_decide (Forall (λ it, pi_type it ≠ TYPE_ERROR) (take n todo))) m.
Proof.
  revert seen todo. induction n as [|n IH]; intros seen todo Hheap Hn.
  - cbn [all_slots_given]. rewrite take_0, bool_decide_true by constructor.
    reflexivity.
  - destruct todo as [|it todo]; [simpl in Hn; lia|].
    cbn [all_slots_given]. unfold load_item. exec_mem. rewrite Hheap.
    exec_mem.
    destruct (decide (0 ≤ Z.of_nat (length seen))) as [_|Hbad]; [|lia].
    rewrite Nat2Z.id, list_lookup_middle by reflexivity. exec_mem.
    destruct (decide (pi_type it = TYPE_ERROR)) as [Herror|Hgiven].
    + rewrite bool_decide_false; [reflexivity|].
      intros Hall. apply Forall_inv in Hall. contradiction.
    + replace (Z.of_nat (length seen) + 1)
        with (Z.of_nat (length (seen ++ [it])))
        by (rewrite length_app; simpl; lia).
      rewrite (IH (seen ++ [it]) todo);
        [|rewrite <- app_assoc; exact Hheap|simpl in Hn; lia].
      f_equal. apply bool_decide_ext. cbn [take]. rewrite Forall_cons.
      tauto.
Qed.

(** X22.  The closing check of the scan for positions answers whether every
    one of the first [n] slots of the table has been given a type, and
    leaves the memory as it is: a position that no directive names makes it
    answer false. *)
Theorem all_slots_given_finds_the_gap (n : nat) (a : N)
  (items : list positional_info) (m : memory) :
  m_heap m !! a = Some (BItems items) →
  (n ≤ length items)%nat →
  all_slots_given n (Some a) 0 m
  = Ok (bool_decide (Forall (λ it, pi_type it ≠ TYPE_ERROR) (take n items))) m.
Proof.
  intros Hheap Hn. exact (all_slots_given_from n a [] items m Hheap Hn).
Qed.

(** A table whose second slot has not been given. *)
Lemma all_slots_given_finds_the_gap_witness :
  let items := [mk_pi LENGTH_none TYPE_d None; blank_item;
                mk_pi LENGTH_none TYPE_s None] in
  let m := mk_memory [] {[20%N := BItems items]} 21%N [] in
  all_slots_given 3 (Some 20%N) 0 m = Ok false m
  ∧ all_slots_given 1 (Some 20%N) 0 m = Ok true m.
Proof.
  intros items m. split.
  - rewrite (all_slots_given_finds_the_gap 3 20%N items m eq_refl);
      [reflexivity|simpl; lia].
  - rewrite (all_slots_given_finds_the_gap 1 20%N items m eq_refl);
      [reflexivity|simpl; lia].
Defined.

(** X23.  Positional delivery agrees with sequential delivery for the
    unsigned conversions too: what [pop_or_load_unsigned_integer] reads from
    the slot [pop_and_store_unsigned_integer] has filled is the value it
    would have fetched from the argument list directly, for every length
    modifier of an integer. *)
Theorem positional_unsigned_round_trip (fs : format_specifier) (a : N)
  (i : Z) (items : list positional_info) (it : positional_info) (z : Z)
  (rest : list arg) (m : memory) :
  m_heap m !! a = Some (BItems items) →
  0 ≤ i → items !! Z.to_nat i = Some it →
  pi_length it = fs_length fs → fs_length fs ≠ LENGTH_L →
  fs_position fs = i + 1 →
  m_valist m = AInt z :: rest →
  head (m_oracle m) ≠ Some false →
  m_fresh m ≠ a →
  ∃ (m' : memory) (v : Z),
    pop_and_store_unsigned_integer (Some a) i m = Ok true m'
    ∧ pop_or_load_unsigned_integer fs true (Some a) m' = Ok v m'
    ∧ pop_or_load_unsigned_integer fs false (Some a) m
      = Ok v (set_valist rest m)
    ∧ m_valist m' = rest.
Proof.
  intros Hheap Hi Hit Hlength HL Hposition Hvalist Horacle Hfresh.
  destruct m as [valist heap fresh oracle].
  cbn [m_heap m_valist m_oracle m_fresh] in *. subst valist.
  assert (Hmalloc : ∀ b,
    malloc b (mk_memory (AInt z :: rest) heap fresh oracle)
    = Ok (Some fresh)
        (mk_memory (AInt z :: rest) (<[fresh := b]> heap) (fresh + 1)%N
           (tail oracle))).
  { intros b. unfold malloc. cbn [m_oracle m_valist m_heap m_fresh].
    destruct oracle as [|[] oracle]; try reflexivity.
    exfalso. apply Horacle. reflexivity. }
  assert (Hbound : 0 ≤ i < Z.of_nat (length items)).
  { apply lookup_lt_Some in Hit. lia. }
  unfold pop_and_store_unsigned_integer, pop_or_load_unsigned_integer,
    pop_and_store, item_of, set_item, load_item, store_item, store_object,
    load_integer, load_object, va_arg_integer, va_arg.
  destruct (fs_length fs) eqn:Hlen; [| | | | | | | |contradiction].
  all: eexists _, _; mem_steps.
  all: split; [reflexivity|]; mem_steps.
  all: split; [reflexivity|]; split; [|reflexivity].
  all: unfold to_uint, to_ulong, to_uintmax, to_size_t, to_ptrdiff;
    rewrite ?wrap_signed_idempotent, ?wrap_unsigned_idempotent by lia;
    reflexivity.
Qed.

(** The directive "%1$hu" with the argument -1: the slot holds the
    [unsigned int] 4294967295, and the conversion to [unsigned short] gives
    65535 on both ways. *)
Lemma positional_unsigned_round_trip_witness :
  let fs := mk_fs 4 false false false false false 0 0 0 (-1) LENGTH_h TYPE_u
              1 in
  let m := mk_memory [AInt (-1)]
             {[20%N := BItems [mk_pi LENGTH_h TYPE_u None]]} 21%N [] in
  ∃ m' : memory,
    pop_and_store_unsigned_integer (Some 20%N) 0 m = Ok true m'
    ∧ pop_or_load_unsigned_integer fs true (Some 20%N) m' = Ok 65535 m'
    ∧ pop_or_load_unsigned_integer fs false (Some 20%N) m
      = Ok 65535 (set_valist [] m).
Proof.
  intros fs m.
  destruct (positional_unsigned_round_trip fs 20%N 0
              [mk_pi LENGTH_h TYPE_u None] (mk_pi LENGTH_h TYPE_u None) (-1)
              [] m)
    as (m' & v & Hstore & Hload & Hpop & _);
    [reflexivity|lia|reflexivity|reflexivity|discriminate|reflexivity
    |reflexivity|discriminate|discriminate|].
  assert (Hv : v = 65535).
  { vm_compute in Hpop. injection Hpop as <-. reflexivity. }
  subst v. exists m'. split; [exact Hstore|]. split; [exact Hload|exact Hpop].
Defined.

(** ** The entry points come to an end *)

(** X24.  No entry point runs on for ever, whatever the template, the
    arguments and the state of the machine: each of them returns, meets
    undefined behaviour or stops at the assertion on a NULL parameter.  The
    main loop of the engine moves forward in the template with every
    iteration, and the loop that doubles the size of the table of positions
    leaves the range of [int] before it has run 32 times. *)
Theorem entry_points_come_to_an_end (format : option string)
  (args : list arg) (s : state) :
  new_printf format args s ≠ Exhausted
  ∧ new_vprintf format args s ≠ Exhausted
  ∧ (∀ stream : option N,
       new_fprintf stream format args s ≠ Exhausted
       ∧ new_vfprintf stream format args s ≠ Exhausted)
  ∧ (∀ str : option (N * Z),
       new_sprintf str format args s ≠ Exhausted
       ∧ new_vsprintf str format args s ≠ Exhausted
       ∧ ∀ size : Z,
           new_snprintf str size format args s ≠ Exhausted
           ∧ new_vsnprintf str size format args s ≠ Exhausted)
  ∧ (∀ fd : Z,
       new_dprintf fd format args s ≠ Exhausted
       ∧ new_vdprintf fd format args s ≠ Exhausted)
  ∧ (∀ strp : bool,
       new_asprintf strp format args s ≠ Exhausted
       ∧ new_vasprintf strp format args s ≠ Exhausted).
Proof.
  assert (Hcount : ∀ output f,
    safe (λ _, True)
      (result ← start output f args;
       if result : bool then return_count else mret (-1))).
  { intros output f. apply safe_then; [apply safe_start|].
    intros []; unfold return_count, characters_written, get_output; safe_all. }
  assert (Hstring : ∀ output f (guard : bool),
    safe (λ _, True)
      (result ← start output f args;
       if result : bool then
         _ ← (if guard then terminate_string else mret ()); return_count
       else mret (-1))).
  { intros output f guard. apply safe_then; [apply safe_start|].
    intros []; destruct guard;
      unfold terminate_string, return_count, characters_written, get_output,
        store_buffer; safe_all. }
  assert (Hsimple : ∀ output,
    (_ ← c_assert (non_null format);
     match format with
     | None => mret (-1)
     | Some format =>
         result ← start output format args;
         if result : bool then return_count else mret (-1)
     end) s ≠ Exhausted).
  { intros output. apply c_assert_never_exhausted. intros _.
    destruct format as [f|]; [|discriminate].
    apply safe_never_exhausted, Hcount. }
  assert (Hunbounded : ∀ (str : option (N * Z)) output,
    (_ ← c_assert (non_null format);
     _ ← c_assert (non_null str);
     match format, str with
     | Some format, Some _ =>
         result ← start output format args;
         if result : bool then _ ← terminate_string; return_count
         else mret (-1)
     | _, _ => mret (-1)
     end) s ≠ Exhausted).
  { intros str output. apply c_assert_never_exhausted. intros _.
    rewrite bind_run. destruct (non_null str); [|discriminate].
    cbn [c_assert mret comp_ret].
    destruct format as [f|], str as [p|]; try discriminate.
    apply safe_never_exhausted, (Hstring _ f true). }
  assert (Hgrowable : ∀ strp, new_asprintf strp format args s ≠ Exhausted).
  { intros strp. unfold new_asprintf.
    apply bind_never_exhausted; [unfold malloc_chars; safe_all|].
    intros string s0.
    apply bind_never_exhausted; [unfold put_output; safe_all|].
    intros _ s1.
    apply c_assert_never_exhausted. intros _.
    apply c_assert_never_exhausted. intros _.
    apply safe_never_exhausted.
    destruct format as [f|], strp, string as [p|];
      unfold free_chars; try solve [safe_all].
    apply safe_then; [apply safe_start|]. intros result.
    unfold asprintf_finish, get_output, put_output, realloc_chars,
      malloc_chars, free_chars.
    safe_all. }
  split; [apply Hsimple|]. split; [apply Hsimple|].
  split; [intros stream; split; apply Hsimple|].
  split.
  { intros str. split; [apply Hunbounded|]. split; [apply Hunbounded|].
    intros size. split; apply new_snprintf_never_exhausted. }
  split; [intros fd; split; apply Hsimple|].
  intros strp. split; apply Hgrowable.
Qed.
